(** * evergreen_lint: the [required-expansions-write] rule

    A shallow embedding of
    [evergreen_lint/rules/required_expansions_write.py]: the YAML document
    is a tree of Python values, the rule is a function into an error
    type (a Python exception aborts the rule), and the closures of
    [__call__] take the four classification sets as an explicit argument. *)

From Stdlib Require Import ZArith DecimalString DecimalNat DecimalFacts Sorted Ascii.
From stdpp Require Import base list strings sorting.

(** ** Python values as the YAML loader produces them *)

(** Mappings keep their insertion order, as Python dicts do; keys are
    strings.  A dict never holds a key twice: [dict_wf] below. *)
#[warnings="-register-all"]
Inductive value : Type :=
| VNone
| VBool (b : bool)
| VInt (n : Z)
| VStr (s : string)
| VList (l : list value)
| VDict (d : list (string * value)).

Definition dict : Type := list (string * value).

Definition LintError : Type := string.

Inductive exn : Type := TypeError | AttributeError | KeyError.

Inductive res (A : Type) : Type :=
| Ok (a : A)
| Raise (e : exn).
Arguments Ok {A} a.
Arguments Raise {A} e.

#[global] Instance res_ret : MRet res := fun A a => Ok a.
#[global] Instance res_bind : MBind res := fun A B f m =>
  match m with
  | Ok a => f a
  | Raise e => Raise e
  end.

(** The value of a condition: an exception is no [True]. *)
Definition holds (r : res bool) : bool :=
  match r with
  | Ok b => b
  | Raise _ => false
  end.

(** ** The Python operations the rule uses *)

Fixpoint dict_get (k : string) (d : dict) : option value :=
  match d with
  | [] => None
  | (k', v) :: d' => if String.eqb k k' then Some v else dict_get k d'
  end.

Definition dict_wf (d : dict) : Prop := NoDup d.*1.

Fixpoint is_substring (needle hay : string) : bool :=
  String.prefix needle hay ||
  match hay with
  | EmptyString => false
  | String _ hay' => is_substring needle hay'
  end.

Definition is_str (k : string) (v : value) : bool :=
  match v with
  | VStr s => String.eqb s k
  | _ => false
  end.

(** [k in v] for a string [k]. *)
Definition py_contains (k : string) (v : value) : res bool :=
  match v with
  | VDict d => Ok (bool_decide (is_Some (dict_get k d)))
  | VList l => Ok (existsb (is_str k) l)
  | VStr s => Ok (is_substring k s)
  | VNone | VBool _ | VInt _ => Raise TypeError
  end.

(** [v[k]] for a string [k]. *)
Definition py_getitem (v : value) (k : string) : res value :=
  match v with
  | VDict d =>
      match dict_get k d with
      | Some x => Ok x
      | None => Raise KeyError
      end
  | _ => Raise TypeError
  end.

(** A set of function names, in the order the names were added. *)
Definition name_set : Type := list string.

Definition set_add (x : string) (s : name_set) : name_set :=
  if decide (x ∈ s) then s else s ++ [x].

(** [v in s] for a set of strings: lists and dicts are unhashable. *)
Definition py_in_set (v : value) (s : name_set) : res bool :=
  match v with
  | VStr x => Ok (bool_decide (x ∈ s))
  | VList _ | VDict _ => Raise TypeError
  | VNone | VBool _ | VInt _ => Ok false
  end.

Definition py_truthy (v : value) : bool :=
  match v with
  | VNone => false
  | VBool b => b
  | VInt n => negb (n =? 0)%Z
  | VStr s => negb (String.eqb s "")
  | VList l => negb (bool_decide (l = []))
  | VDict d => negb (bool_decide (d = []))
  end.

Definition isinstance_dict (v : value) : bool :=
  match v with
  | VDict _ => true
  | _ => false
  end.

(** [v.items()]. *)
Definition py_items (v : value) : res dict :=
  match v with
  | VDict d => Ok d
  | _ => Raise AttributeError
  end.

(** The items [enumerate(v)] runs over: a string is the sequence of its
    characters, a dict the sequence of its keys (the rule skips a dict
    before it scans). *)
Definition py_sequence (v : value) : res (list value) :=
  match v with
  | VList l => Ok l
  | VStr s => Ok ((fun c => VStr (String c EmptyString)) <$> String.list_ascii_of_string s)
  | VDict d => Ok (VStr <$> d.*1)
  | VNone | VBool _ | VInt _ => Raise TypeError
  end.

Definition str_nat (n : nat) : string := NilZero.string_of_uint (Nat.to_uint n).

(** ** What the rule takes from outside *)

(** The module [evergreen_lint.helpers]: the four structural predicates on
    a command and the two document walkers, used as total functions. *)
Class Helpers : Type := {
  match_expansions_write : value -> bool;
  match_subprocess_exec : value -> bool;
  match_expansions_update : value -> bool;
  match_timeout_update : value -> bool;
  iterate_command_lists : dict -> list (string * value);
  iterate_fn_calls_context : dict -> list (string * value * value);
}.

(** The interpreter: how an f-string prints [list(s)] for a set [s] built
    by the given additions (the iteration order of a set is the
    interpreter's), and how it prints a list or a dict. *)
Class Interp : Type := {
  format_set_list : name_set -> string;
  format_container : value -> string;
}.

(** [f"{v}"]. *)
Definition py_format `{Interp} (v : value) : string :=
  match v with
  | VStr s => s
  | VInt n => NilZero.string_of_int (Z.to_int n)
  | VBool true => "True"
  | VBool false => "False"
  | VNone => "None"
  | VList _ | VDict _ => format_container v
  end.

(** The four sets of [__call__]. *)
Record fn_sets : Type := FnSets {
  expansions_write_fns : name_set;
  subprocess_exec_fns : name_set;
  expansions_update_fns : name_set;
  timeout_update_fns : name_set;
}.

Definition no_fns : fn_sets := FnSets [] [] [] [].

(** The locals of the scan of one command list. *)
Record scan_state : Type := ScanState {
  out : list LintError;
  first_subprocess : option nat;
  first_subprocess_cmd : option value;
  first_exp_write : option nat;
  warned_subprocess : bool;
}.

Definition scan_init : scan_state := ScanState [] None None None false.

Section Rule.
Context `{Helpers} `{Interp}.

Section Closures.
Variable fns : fn_sets.

Definition _out_message_dangerous_function (context : string) : LintError :=
      context +:+ " cannot safely take arguments. Call expansions.write with params: file: expansions.yml; redacted: true, (or use one of these functions: "
        +:+ format_set_list (expansions_write_fns fns)
        +:+ ") in the function, or do not pass arguments to it.".

Definition _out_message_expansions_update (context fname : string) : LintError :=
      context +:+ " is an " +:+ fname
        +:+ " command that is not immediately followed by an expansions.write call. Always call expansions.write with params: file: expansions.yml; redacted: true, (or use one of these functions: "
        +:+ format_set_list (expansions_write_fns fns)
        +:+ ") after calling " +:+ fname +:+ ".".

Definition _out_message_subprocess (context : string) : LintError :=
      context +:+ " calls an evergreen shell script without a preceding expansions.write call. Always call expansions.write with params: file: expansions.yml; redacted: true, (or use one of these functions: "
        +:+ format_set_list (expansions_write_fns fns)
        +:+ ") before calling an evergreen shell script via subprocess.exec.".

    (** ["func" in command and command["func"] in s] *)
Definition func_in (command : value) (s : name_set) : res bool :=
      b ← py_contains "func" command;
      if b : bool then f ← py_getitem command "func"; py_in_set f s
      else Ok false.

Definition _is_expansions_write_or_fn (command : value) : res bool :=
      if match_expansions_write command then Ok true
      else func_in command (expansions_write_fns fns).

Definition _is_subprocess_exec_or_fn (command : value) : res bool :=
      if match_subprocess_exec command then Ok true
      else func_in command (subprocess_exec_fns fns).

Definition _is_expansions_update_or_fn (command : value) : res bool :=
      if match_expansions_update command then Ok true
      else func_in command (expansions_update_fns fns).

Definition _is_timeout_update_or_fn (command : value) : res bool :=
      if match_timeout_update command then Ok true
      else func_in command (timeout_update_fns fns).

Definition _context_add_fn (context : string) (command : option value) : res string :=
      match command with
      | None => Ok context
      | Some c =>
          if py_truthy c then
            b ← py_contains "func" c;
            if b : bool then
              f ← py_getitem c "func";
              Ok (context +:+ ", (function call: " +:+ py_format f +:+ ")")
            else Ok context
          else Ok context
      end.

Definition command_context (context : string) (idx : nat) : string :=
      context +:+ ", command " +:+ str_nat idx.

    (** [if first_subprocess is None and ...: ... elif first_exp_write is None and ...: ...] *)
Definition note_first (idx : nat) (command : value) (st : scan_state)
        : res scan_state :=
      is_first ← (if first_subprocess st is None
                  then _is_subprocess_exec_or_fn command else Ok false);
      if is_first : bool then
        Ok (ScanState (out st) (Some idx) (Some command)
              (first_exp_write st) (warned_subprocess st))
      else
        is_write ← (if first_exp_write st is None
                    then _is_expansions_write_or_fn command else Ok false);
        if is_write : bool then
          Ok (ScanState (out st) (first_subprocess st) (first_subprocess_cmd st)
                (Some idx) (warned_subprocess st))
        else Ok st.

    (** [if not warned_subprocess and ... and first_exp_write is None: ...] *)
Definition warn_missing_write (context : string) (idx : nat) (command : value)
        (st : scan_state) : res scan_state :=
      warn ← (if warned_subprocess st then Ok false
              else
                b ← _is_subprocess_exec_or_fn command;
                Ok (b && bool_decide (first_exp_write st = None)));
      if warn : bool then
        c ← _context_add_fn (command_context context idx) (Some command);
        Ok (ScanState (out st ++ [_out_message_subprocess c])
              (first_subprocess st) (first_subprocess_cmd st)
              (first_exp_write st) true)
      else Ok st.

Definition append_error (st : scan_state) (e : LintError) : scan_state :=
      ScanState (out st ++ [e]) (first_subprocess st) (first_subprocess_cmd st)
        (first_exp_write st) (warned_subprocess st).

    (** [if _is_expansions_update_or_fn(command) or _is_timeout_update_or_fn(command): ...] *)
Definition check_update (context : string) (commands : list value)
        (idx : nat) (command : value) (st : scan_state) : res scan_state :=
      is_update ← (b ← _is_expansions_update_or_fn command;
                   if b : bool then Ok true else _is_timeout_update_or_fn command);
      if is_update : bool then
        unwritten ← (if bool_decide (length commands ≤ idx + 1) then Ok true
                     else
                       match commands !! (idx + 1) with
                       | Some next => b ← _is_expansions_write_or_fn next; Ok (negb b)
                       | None => Ok true
                       end);
        if unwritten : bool then
          b ← _is_expansions_update_or_fn command;
          if b : bool then
            c ← _context_add_fn (command_context context idx) (Some command);
            Ok (append_error st (_out_message_expansions_update c "expansions.update"))
          else
            b' ← _is_timeout_update_or_fn command;
            if b' : bool then
              c ← _context_add_fn (command_context context idx) (Some command);
              Ok (append_error st (_out_message_expansions_update c "timeout.update"))
            else Ok st
        else Ok st
      else Ok st.

    (** One turn of the loop over [enumerate(commands)]. *)
Definition scan_step (context : string) (commands : list value)
        (idx : nat) (command : value) (st : scan_state) : res scan_state :=
      st1 ← note_first idx command st;
      st2 ← warn_missing_write context idx command st1;
      check_update context commands idx command st2.

Fixpoint scan_loop (context : string) (commands : list value)
        (idx : nat) (rest : list value) (st : scan_state) : res scan_state :=
      match rest with
      | [] => Ok st
      | command :: rest' =>
          st' ← scan_step context commands idx command st;
          scan_loop context commands (S idx) rest' st'
      end.

    (** The condition of the [if] after the loop. *)
Definition fallback_due (st : scan_state) : bool :=
      negb (warned_subprocess st) &&
      match first_subprocess st, first_exp_write st with
      | Some s, Some w => bool_decide (s < w)
      | _, _ => false
      end.

Definition _check_command_list (context : string) (commands : list value)
        : res (list LintError) :=
      st ← scan_loop context commands 0 commands scan_init;
      if fallback_due st then
        c ← _context_add_fn
              (command_context context (default 0 (first_subprocess st)))
              (first_subprocess_cmd st);
        Ok (out st ++ [_out_message_subprocess c])
      else Ok (out st).

    (** The checker without the [if] after the loop. *)
Definition _check_command_list_no_fallback (context : string)
        (commands : list value) : res (list LintError) :=
      st ← scan_loop context commands 0 commands scan_init;
      Ok (out st).

End Closures.

  (** [name()] and [defaults()]. *)
Definition name : string := "required-expansions-write".

Definition defaults : dict := [("regex", VStr ".*\/evergreen\/.*\.sh")].

  (** One turn of the loop over [yaml["functions"].items()]. *)
Definition classify_step (fns : fn_sets) (item : string * value) : fn_sets :=
    let '(fname, body) := item in
    if isinstance_dict body then
      if match_expansions_write body then
        FnSets (set_add fname (expansions_write_fns fns)) (subprocess_exec_fns fns)
          (expansions_update_fns fns) (timeout_update_fns fns)
      else if match_subprocess_exec body then
        FnSets (expansions_write_fns fns) (set_add fname (subprocess_exec_fns fns))
          (expansions_update_fns fns) (timeout_update_fns fns)
      else if match_expansions_update body then
        FnSets (expansions_write_fns fns) (subprocess_exec_fns fns)
          (set_add fname (expansions_update_fns fns)) (timeout_update_fns fns)
      else if match_timeout_update body then
        FnSets (expansions_write_fns fns) (subprocess_exec_fns fns)
          (expansions_update_fns fns) (set_add fname (timeout_update_fns fns))
      else fns
    else fns.

Definition classify (yaml : dict) : res fn_sets :=
    match dict_get "functions" yaml with
    | Some functions =>
        items ← py_items functions;
        Ok (foldl classify_step no_fns items)
    | None => Ok no_fns
    end.

  (** The loop over [iterate_command_lists(yaml)]. *)
Fixpoint check_command_lists (fns : fn_sets) (lists : list (string * value))
      (out : list LintError) : res (list LintError) :=
    match lists with
    | [] => Ok out
    | (context, commands) :: lists' =>
        if isinstance_dict commands then check_command_lists fns lists' out
        else
          cmds ← py_sequence commands;
          errs ← _check_command_list fns context cmds;
          check_command_lists fns lists' (out ++ errs)
    end.

  (** [command["func"] in subprocess_exec_fns and "vars" in command and command["vars"]] *)
Definition takes_arguments (fns : fn_sets) (command : value) : res bool :=
    f ← py_getitem command "func";
    b ← py_in_set f (subprocess_exec_fns fns);
    if b : bool then
      v ← py_contains "vars" command;
      if v : bool then x ← py_getitem command "vars"; Ok (py_truthy x)
      else Ok false
    else Ok false.

  (** The loop over [iterate_fn_calls_context(yaml)]. *)
Fixpoint check_fn_calls (fns : fn_sets) (calls : list (string * value * value))
      (out : list LintError) : res (list LintError) :=
    match calls with
    | [] => Ok out
    | (context, command, _) :: calls' =>
        b ← takes_arguments fns command;
        if b : bool then
          check_fn_calls fns calls' (out ++ [_out_message_dangerous_function fns context])
        else check_fn_calls fns calls' out
    end.

Definition __call__ (config : dict) (yaml : dict) : res (list LintError) :=
    fns ← classify yaml;
    out ← check_command_lists fns (iterate_command_lists yaml) [];
    check_fn_calls fns (iterate_fn_calls_context yaml) out.

End Rule.

(** ** Helpers and interpreter for the examples *)

Definition command_is (name : string) (command : value) : bool :=
  match command with
  | VDict d =>
      match dict_get "command" d with
      | Some (VStr s) => String.eqb s name
      | _ => false
      end
  | _ => false
  end.

(** Modelled from the spec: the module [evergreen_lint.helpers] is not in
    the sources.  A step is an expansions-write, expansions-update or
    timeout-update step by its command identifier; a script-execution
    step is a [subprocess.exec] whose arguments name a script under an
    [evergreen/] directory ending in [.sh].  The command lists of a
    document are the function bodies (either form), the blocks of the
    tasks ([commands] and the set-up, tear-down and timeout hooks) and the
    global [pre], [post] and [timeout] blocks; the call sites are the
    [func] steps of the blocks of the tasks and of the global blocks.  The
    spec gives no labels: those of functions and of task commands are
    the ones of the examples, the others are this model's. *)
Fixpoint has_suffix_from (suffix s : string) : bool :=
  String.eqb s suffix ||
  match s with
  | EmptyString => false
  | String _ s' => has_suffix_from suffix s'
  end.

Definition script_path (s : string) : bool :=
  is_substring "/evergreen/" s && has_suffix_from ".sh" s.

Definition names_script (arg : value) : bool :=
  match arg with
  | VStr s => script_path s
  | _ => false
  end.

Definition runs_evergreen_script (command : value) : bool :=
  command_is "subprocess.exec" command &&
  match command with
  | VDict d =>
      match dict_get "params" d with
      | Some (VDict params) =>
          match dict_get "args" params with
          | Some (VList args) => existsb names_script args
          | _ => false
          end
      | _ => false
      end
  | _ => false
  end.

Definition task_name (task : value) : string :=
  match task with
  | VDict d =>
      match dict_get "name" d with
      | Some (VStr s) => s
      | _ => ""
      end
  | _ => ""
  end.

(** The list of commands under [key], empty when there is none. *)
Definition block (key : string) (d : dict) : list value :=
  match dict_get key d with
  | Some (VList l) => l
  | _ => []
  end.

Definition task_commands (task : value) : list value :=
  match task with
  | VDict d => block "commands" d
  | _ => []
  end.

Definition doc_tasks (yaml : dict) : list value := block "tasks" yaml.

Definition doc_functions (yaml : dict) : dict :=
  match dict_get "functions" yaml with
  | Some (VDict d) => d
  | _ => []
  end.

Definition is_fn_call (command : value) : bool :=
  match command with
  | VDict d => bool_decide (is_Some (dict_get "func" d))
  | _ => false
  end.

Definition hook_keys : list string :=
  ["setup_task"; "teardown_task"; "setup_group"; "teardown_group"; "timeout"].

Definition global_keys : list string := ["pre"; "post"; "timeout"].

(** The blocks a mapping has among [keys], each with its label. *)
Definition blocks_of (label : string -> string) (keys : list string) (d : dict)
    : list (string * list value) :=
  (fun key => (label key, block key d))
    <$> filter (fun key => is_Some (dict_get key d)) keys.

Definition task_blocks (task : value) : list (string * list value) :=
  ("Task '" +:+ task_name task +:+ "'", task_commands task)
  :: match task with
     | VDict d =>
         blocks_of (fun key => "Task '" +:+ task_name task +:+ "', " +:+ key) hook_keys d
     | _ => []
     end.

Definition doc_blocks (yaml : dict) : list (string * list value) :=
  (doc_tasks yaml ≫= task_blocks)
  ++ blocks_of (fun key => "Global '" +:+ key +:+ "'") global_keys yaml.

Definition spec_command_lists (yaml : dict) : list (string * value) :=
  ((fun '(fname, body) => ("Function '" +:+ fname +:+ "'", body)) <$> doc_functions yaml)
  ++ ((fun entry => (entry.1, VList entry.2)) <$> doc_blocks yaml).

Definition spec_fn_calls (yaml : dict) : list (string * value * value) :=
  entry ← doc_blocks yaml;
  (fun '(idx, command) =>
     (entry.1 +:+ ", command " +:+ str_nat idx, command, VList entry.2))
    <$> filter (fun p => is_fn_call p.2 = true) (imap pair entry.2).

Definition spec_helpers : Helpers := {|
  match_expansions_write := command_is "expansions.write";
  match_subprocess_exec := runs_evergreen_script;
  match_expansions_update := command_is "expansions.update";
  match_timeout_update := command_is "timeout.update";
  iterate_command_lists := spec_command_lists;
  iterate_fn_calls_context := spec_fn_calls;
|}.

(** An interpreter for the examples: names print quoted, in the order they
    were added. *)
Fixpoint join_quoted (names : list string) : string :=
  match names with
  | [] => ""
  | [x] => "'" +:+ x +:+ "'"
  | x :: rest => "'" +:+ x +:+ "', " +:+ join_quoted rest
  end.

Definition example_interp : Interp := {|
  format_set_list names := "[" +:+ join_quoted names +:+ "]";
  format_container _ := "[...]";
|}.

Definition cmd (name : string) : value := VDict [("command", VStr name)].
Definition call (fname : string) : value := VDict [("func", VStr fname)].

(** The well-formed call of the comment of the rule: [expansions.write]
    with [file: expansions.yml] and [redacted: true]. *)
Definition expansions_write_yml : value :=
  VDict [("command", VStr "expansions.write");
         ("params", VDict [("file", VStr "expansions.yml"); ("redacted", VBool true)])].

Definition run_script (path : string) : value :=
  VDict [("command", VStr "subprocess.exec");
         ("params", VDict [("binary", VStr "bash"); ("args", VList [VStr path])])].

Definition one_task (name : string) (commands : list value) : dict :=
  [("tasks", VList [VDict [("name", VStr name); ("commands", VList commands)]])].

Definition example_doc : dict :=
  [("functions", VDict [("f_write", expansions_write_yml);
                        ("f_run", run_script "./src/evergreen/run.sh");
                        ("f_both", VList [call "f_run"; call "f_write"])]);
   ("tasks", VList [VDict [("name", VStr "compile");
                           ("commands",
                            VList [call "f_write";
                                   VDict [("func", VStr "f_run");
                                          ("vars", VDict [("target", VStr "all")])]])]])].

(** ** The violations of a command list, from the words of the rule *)

Definition scalar (v : value) : bool :=
  match v with
  | VList _ | VDict _ => false
  | _ => true
  end.

(** A command as the document model has it: a mapping whose [func], when
    it has one, is a name (or another scalar). *)
Definition wf_command (command : value) : bool :=
  match command with
  | VDict d =>
      match dict_get "func" d with
      | Some f => scalar f
      | None => true
      end
  | _ => false
  end.

Inductive violation : Type :=
| MissingWrite (idx : nat) (command : value)
| UpdateNotFollowed (fname : string) (idx : nat) (command : value).

Definition violation_idx (v : violation) : nat :=
  match v with
  | MissingWrite idx _ => idx
  | UpdateNotFollowed _ idx _ => idx
  end.

Definition is_missing_write (v : violation) : bool :=
  match v with
  | MissingWrite _ _ => true
  | UpdateNotFollowed _ _ _ => false
  end.

Definition is_update_violation (v : violation) : bool :=
  match v with
  | MissingWrite _ _ => false
  | UpdateNotFollowed _ _ _ => true
  end.

(** An update violation tagged to the index [idx]. *)
Definition update_violation_at (idx : nat) (v : violation) : Prop :=
  is_update_violation v = true ∧ violation_idx v = idx.

#[global] Instance update_violation_at_dec idx v : Decision (update_violation_at idx v).
Proof. unfold update_violation_at. apply _. Defined.

(** The order of detection in one scan: by index, and at one index the
    missing write before the update. *)
Definition detected_before (v1 v2 : violation) : Prop :=
  violation_idx v1 < violation_idx v2 ∨
  (violation_idx v1 = violation_idx v2 ∧
   is_missing_write v1 = true ∧ is_update_violation v2 = true).

Section Violations.
Context `{Helpers} `{Interp}.
Variable fns : fn_sets.

Definition runs_script (c : value) : bool := holds (_is_subprocess_exec_or_fn fns c).
Definition writes_expansions (c : value) : bool := holds (_is_expansions_write_or_fn fns c).
Definition updates_expansions (c : value) : bool := holds (_is_expansions_update_or_fn fns c).
Definition updates_timeout (c : value) : bool := holds (_is_timeout_update_or_fn fns c).

  (** A step that calls a function of the set [s]. *)
Definition calls_one_of (s : name_set) (c : value) : Prop :=
    ∃ d f, c = VDict d ∧ dict_get "func" d = Some (VStr f) ∧ f ∈ s.

  (** The four kinds of step: the command itself, or a call of a
      function of the matching set. *)
Definition script_execution_step (c : value) : Prop :=
    match_subprocess_exec c = true ∨ calls_one_of (subprocess_exec_fns fns) c.
Definition expansions_write_step (c : value) : Prop :=
    match_expansions_write c = true ∨ calls_one_of (expansions_write_fns fns) c.
Definition expansions_update_step (c : value) : Prop :=
    match_expansions_update c = true ∨ calls_one_of (expansions_update_fns fns) c.
Definition timeout_update_step (c : value) : Prop :=
    match_timeout_update c = true ∨ calls_one_of (timeout_update_fns fns) c.

  (** The label of a command: [_context_add_fn] on a mapping. *)
Definition context_with_fn (context : string) (command : value) : string :=
    match command with
    | VDict d =>
        match dict_get "func" d with
        | Some f => context +:+ ", (function call: " +:+ py_format f +:+ ")"
        | None => context
        end
    | _ => context
    end.

Definition render_violation (context : string) (v : violation) : LintError :=
    match v with
    | MissingWrite idx c =>
        _out_message_subprocess fns (context_with_fn (command_context context idx) c)
    | UpdateNotFollowed fname idx c =>
        _out_message_expansions_update fns
          (context_with_fn (command_context context idx) c) fname
    end.

  (** No script execution and no write among these commands. *)
Definition clean_prefix (pre : list value) : bool :=
    forallb (fun c => negb (runs_script c) && negb (writes_expansions c)) pre.

Definition followed_by_write (commands : list value) (idx : nat) : bool :=
    match commands !! S idx with
    | Some next => writes_expansions next
    | None => false
    end.

Definition missing_write_at (commands : list value) (idx : nat) (c : value)
      : list violation :=
    if runs_script c && clean_prefix (take idx commands)
    then [MissingWrite idx c] else [].

Definition update_at (commands : list value) (idx : nat) (c : value)
      : list violation :=
    if (updates_expansions c || updates_timeout c)
       && negb (followed_by_write commands idx)
    then [UpdateNotFollowed
            (if updates_expansions c then "expansions.update" else "timeout.update")
            idx c]
    else [].

Definition violations_at (commands : list value) (idx : nat) (c : value)
      : list violation :=
    missing_write_at commands idx c ++ update_at commands idx c.

  (** The violations of the first commands [pre] of [commands]. *)
Definition violations_upto (commands pre : list value) : list violation :=
    mjoin (imap (violations_at commands) pre).

Definition violations (commands : list value) : list violation :=
    violations_upto commands commands.

  (** What the locals of the scan say after the commands [pre]. *)
Definition scan_clean (st : scan_state) : Prop :=
    first_subprocess st = None ∧ first_exp_write st = None ∧
    warned_subprocess st = false.

Definition scan_settled (idx : nat) (st : scan_state) : Prop :=
    warned_subprocess st = true ∨
    ∃ w, first_exp_write st = Some w ∧ w < idx ∧
         ∀ s, first_subprocess st = Some s → w < s.

Definition scan_inv (idx : nat) (st : scan_state) : Prop :=
    scan_clean st ∨ scan_settled idx st.

Definition scan_rel (clean : bool) (idx : nat) (st : scan_state) : Prop :=
    if clean then scan_clean st else scan_settled idx st.

  (** The errors of one entry of [iterate_command_lists]. *)
Definition list_errors (entry : string * value) : list LintError :=
    match entry.2 with
    | VList commands => render_violation entry.1 <$> violations commands
    | _ => []
    end.

  (** The errors of one entry of [iterate_fn_calls_context]. *)
Definition call_errors (site : string * value * value) : list LintError :=
    if holds (takes_arguments fns site.1.2)
    then [_out_message_dangerous_function fns site.1.1] else [].

End Violations.

(** The set a function body goes to: the first of the four predicates
    it matches, for a body that is a single command. *)
Section FirstMatch.
Context `{Helpers}.

Definition goes_to_write (body : value) : bool :=
    isinstance_dict body && match_expansions_write body.
Definition goes_to_exec (body : value) : bool :=
    isinstance_dict body && negb (match_expansions_write body)
    && match_subprocess_exec body.
Definition goes_to_update (body : value) : bool :=
    isinstance_dict body && negb (match_expansions_write body)
    && negb (match_subprocess_exec body) && match_expansions_update body.
Definition goes_to_timeout (body : value) : bool :=
    isinstance_dict body && negb (match_expansions_write body)
    && negb (match_subprocess_exec body) && negb (match_expansions_update body)
    && match_timeout_update body.
End FirstMatch.

Definition in_some_set (fns : fn_sets) (fname : string) : Prop :=
  fname ∈ expansions_write_fns fns ∨ fname ∈ subprocess_exec_fns fns ∨
  fname ∈ expansions_update_fns fns ∨ fname ∈ timeout_update_fns fns.

(** A document the walkers of which yield command lists and call sites
    of the document model: [functions], when present, is a mapping; a
    command list is a single command or a list of commands; a call site
    is a mapping with a scalar [func]. *)
Definition wf_command_list (commands : value) : bool :=
  match commands with
  | VDict _ => true
  | VList l => forallb wf_command l
  | _ => false
  end.

Definition wf_fn_call (command : value) : bool :=
  match command with
  | VDict d =>
      match dict_get "func" d with
      | Some f => scalar f
      | None => false
      end
  | _ => false
  end.

Definition wf_document `{Helpers} (yaml : dict) : bool :=
  match dict_get "functions" yaml with
  | Some functions => isinstance_dict functions
  | None => true
  end
  && forallb (fun entry => wf_command_list entry.2) (iterate_command_lists yaml)
  && forallb (fun site => wf_fn_call site.1.2) (iterate_fn_calls_context yaml).

(** ** Notions for the further properties *)

Definition is_digit (ch : ascii) : bool :=
  (48 <=? nat_of_ascii ch) && (nat_of_ascii ch <=? 57).

Fixpoint all_digits (s : string) : bool :=
  match s with
  | EmptyString => true
  | String ch s' => is_digit ch && all_digits s'
  end.

Definition starts_without_digit (s : string) : bool :=
  match s with
  | EmptyString => true
  | String ch _ => negb (is_digit ch)
  end.

Definition ends_with (t s : string) : Prop := ∃ p, s = p +:+ t.

Definition known_update_name (fname : string) : Prop :=
  fname = "expansions.update" ∨ fname = "timeout.update".

Definition known_violation (v : violation) : Prop :=
  match v with
  | MissingWrite _ _ => True
  | UpdateNotFollowed fname _ _ => known_update_name fname
  end.

Definition update_step_count `{Helpers} (fns : fn_sets) (commands : list value) : nat :=
  length (filter (λ c, updates_expansions fns c || updates_timeout fns c = true) commands).

Definition raises_only {A} (allowed : exn → Prop) (r : res A) : Prop :=
  match r with
  | Ok _ => True
  | Raise e => allowed e
  end.

(** A command on which the test ["func" in command and command["func"] in s]
    raises: no container to look into, or a [func] that cannot be hashed
    or indexed. *)
Definition func_probe_fails (c : value) : bool :=
  match c with
  | VNone | VBool _ | VInt _ => true
  | VStr s => is_substring "func" s
  | VList l => existsb (is_str "func") l
  | VDict d =>
      match dict_get "func" d with
      | Some (VList _) | Some (VDict _) => true
      | _ => false
      end
  end.

Definition swapped_doc : dict :=
  [("functions", VDict [("f_run", run_script "./src/evergreen/run.sh");
                        ("f_write", expansions_write_yml);
                        ("f_both", VList [call "f_run"; call "f_write"])])].

(** ** evergreen_lint/config.py *)

(** What [load] can end with: the [RuntimeError] the validation raises,
    with its message, or another exception of the interpreter. *)
Inductive config_error : Type :=
| RuntimeError (msg : string)
| Uncaught (e : exn).

Inductive outcome (A : Type) : Type :=
| Done (a : A)
| Failed (e : config_error).
Arguments Done {A} a.
Arguments Failed {A} e.

#[global] Instance outcome_ret : MRet outcome := fun A a => Done a.
#[global] Instance outcome_bind : MBind outcome := fun A B f m =>
  match m with
  | Done a => f a
  | Failed e => Failed e
  end.

Definition lift {A} (r : res A) : outcome A :=
  match r with
  | Ok a => Done a
  | Raise e => Failed (Uncaught e)
  end.

(** What the module takes from outside: [os.path.abspath(os.path.join(path, f))]
    and how an f-string prints a set of names. *)
Class ConfigEnv : Type := {
  abspath_join : string -> string -> string;
  format_name_set : list string -> string;
}.

(** [f"{type(v)}"]. *)
Definition type_repr (v : value) : string :=
  match v with
  | VNone => "<class 'NoneType'>"
  | VBool _ => "<class 'bool'>"
  | VInt _ => "<class 'int'>"
  | VStr _ => "<class 'str'>"
  | VList _ => "<class 'list'>"
  | VDict _ => "<class 'dict'>"
  end.

(** [d[k] = v]: the value of a key the dict has is replaced in place, a
    new key goes to the end. *)
Fixpoint dict_set (k : string) (v : value) (d : dict) : dict :=
  match d with
  | [] => [(k, v)]
  | (k', v') :: d' =>
      if String.eqb k k' then (k, v) :: d' else (k', v') :: dict_set k v d'
  end.

(** [RULES] of [evergreen_lint/rules/__init__.py], each rule with its
    [defaults()]. *)
Definition RULES_defaults : list (string * dict) :=
  [("limit-keyval-inc", [("limit", VInt 0)]);
   ("shell-exec-explicit-shell", []);
   ("no-working-dir-on-shell", []);
   ("invalid-function-name", [("regex", VStr "^f_[a-z][A-Za-z0-9_]*")]);
   ("no-shell-exec", []);
   ("no-multiline-expansions-update", []);
   ("invalid-build-parameter",
    [("regex", VStr "[a-z][a-z0-9_]*"); ("require-description", VBool true)]);
   ("required-expansions-write", [("regex", VStr ".*\/evergreen\/.*\.sh")]);
   ("dependency-for-func", [("dependencies", VDict [])]);
   ("tasks-for-variants", [("task-variant-mappings", VDict [])]);
   ("enforce-tags-for-tasks", [("tag_groups", VList [])])].

Fixpoint rule_defaults (name : string) (table : list (string * dict)) : option dict :=
  match table with
  | [] => None
  | (n, d) :: table' => if String.eqb name n then Some d else rule_defaults name table'
  end.

Definition DEFAULT_HELP_URL : string := "https://github.com/evergreen-ci/config-lint".

(** [if "help_url" not in rawconf or not rawconf["help_url"]: ...] *)
Definition set_default_help_url (conf : dict) : dict :=
  match dict_get "help_url" conf with
  | Some url =>
      if py_truthy url then conf
      else dict_set "help_url" (VStr DEFAULT_HELP_URL) conf
  | None => dict_set "help_url" (VStr DEFAULT_HELP_URL) conf
  end.

Definition isinstance_list (v : value) : bool :=
  match v with
  | VList _ => true
  | _ => false
  end.

(** A rule entry the validation lets pass: a mapping that names a rule of
    [RULES] and has no option the rule's [defaults()] do not have. *)
Definition rule_entry_ok (rule : value) : Prop :=
  ∃ d n defaults, rule = VDict d ∧ dict_get "rule" d = Some (VStr n) ∧
    rule_defaults n RULES_defaults = Some defaults ∧
    ∀ k, k ∈ d.*1 → k = "rule" ∨ k ∈ defaults.*1.

Section Config.
Context `{ConfigEnv}.

(** The loop over [enumerate(rawconf["files"])] for a list. *)
Fixpoint resolve_files (path : string) (i : nat) (files : list value)
    : outcome (list value) :=
  match files with
  | [] => Done []
  | VStr f :: files' =>
      rest ← resolve_files path (S i) files';
      Done (VStr (abspath_join path f) :: rest)
  | file :: _ =>
      Failed (RuntimeError ("'files', index " +:+ str_nat i +:+ ": expected a str, got a "
                            +:+ type_repr file))
  end.

(** The same loop for whatever truthy value [files] holds: the first
    character of a string passes the test and the assignment into the
    string raises; the first key of a mapping passes, being a string as
    every key of a mapping is here, and [files[0]] is no key of it (a
    first key that is no string would get the [RuntimeError] of the
    test instead); a number cannot be enumerated. *)
Definition validate_files (path : string) (files : value) : outcome value :=
  match files with
  | VList l => l' ← resolve_files path 0 l; Done (VList l')
  | VStr _ => Failed (Uncaught TypeError)
  | VDict _ => Failed (Uncaught KeyError)
  | VNone | VBool _ | VInt _ => Failed (Uncaught TypeError)
  end.

(** One turn of the loop over [enumerate(rawconf["rules"])]. Past the two
    tests [rule] is a mapping and [rule["rule"]] a string, the only values
    on which [rule["rule"]] and the lookup in [RULES] succeed. *)
Definition validate_rule (i : nat) (rule : value) : outcome unit :=
  named ← lift (py_contains "rule" rule);
  if negb named then
    Failed (RuntimeError "'rules' index {i}: unnamed rule (missing 'rule' key)")
  else
    name ← lift (py_getitem rule "rule");
    known ← lift (py_in_set name RULES_defaults.*1);
    if negb known then
      Failed (RuntimeError "'rules' index {i}: unknown rule '{rule[]}'")
    else
      match rule, name with
      | VDict d, VStr n =>
          let config_file_params := filter (λ k, k ≠ "rule") d.*1 in
          let default_rule_params := (default [] (rule_defaults n RULES_defaults)).*1 in
          let unknown := filter (λ k, k ∉ default_rule_params) config_file_params in
          if bool_decide (unknown = []) then Done ()
          else
            Failed (RuntimeError ("'rules' index " +:+ str_nat i +:+ ": rule '" +:+ n
                                  +:+ "': unknown config params: "
                                  +:+ format_name_set unknown))
      | _, _ => Done ()
      end.

Fixpoint validate_rules (i : nat) (rules : list value) : outcome unit :=
  match rules with
  | [] => Done ()
  | rule :: rules' => validate_rule i rule ;; validate_rules (S i) rules'
  end.

Definition _validate (path : string) (rawconf : value) : outcome value :=
  match rawconf with
  | VDict conf =>
      match dict_get "files" conf with
      | Some files =>
          if py_truthy files then
            files' ← validate_files path files;
            let conf2 := set_default_help_url (dict_set "files" files' conf) in
            match dict_get "rules" conf2 with
            | Some rules =>
                if py_truthy rules then
                  items ← lift (py_sequence rules);
                  validate_rules 0 items;;
                  Done (VDict conf2)
                else Failed (RuntimeError "'rules' key: a list of rules is required")
            | None => Failed (RuntimeError "'rules' key: a list of rules is required")
            end
          else Failed (RuntimeError "'files' key: a list of files is required")
      | None => Failed (RuntimeError "'files' key: a list of files is required")
      end
  | _ =>
      Failed (RuntimeError ("expected to read a dictionary, but read a "
                            +:+ type_repr rawconf))
  end.

(** [load], after [yaml.safe_load] has read [rawconf]. *)
Definition load (rawconf : value) (path : string) : outcome value :=
  match _validate path rawconf with
  | Failed (RuntimeError msg) => Failed (RuntimeError ("config file invalid: " +:+ msg))
  | other => other
  end.

End Config.

(** ** evergreen_lint/__main__.py *)

(** A rule class: its [defaults()] and its [__call__]. *)
Record rule_class : Type := RuleClass {
  rule_defaults_of : dict;
  rule_call : dict -> dict -> res (list LintError);
}.

(** The [__call__] of the ten rules of the package whose bodies are not
    modelled here, by rule name, and [yamlhandler.load_file]. *)
Class LintEnv : Type := {
  other_rule_call : string -> dict -> dict -> res (list LintError);
  load_file : value -> res dict;
}.

Definition other_rule `{LintEnv} (name : string) (defaults : dict) : string * rule_class :=
  (name, RuleClass defaults (other_rule_call name)).

(** [RULES] of [evergreen_lint/rules/__init__.py]. *)
Definition RULES `{Helpers} `{Interp} `{LintEnv} : list (string * rule_class) :=
  [other_rule "limit-keyval-inc" [("limit", VInt 0)];
   other_rule "shell-exec-explicit-shell" [];
   other_rule "no-working-dir-on-shell" [];
   other_rule "invalid-function-name" [("regex", VStr "^f_[a-z][A-Za-z0-9_]*")];
   other_rule "no-shell-exec" [];
   other_rule "no-multiline-expansions-update" [];
   other_rule "invalid-build-parameter"
     [("regex", VStr "[a-z][a-z0-9_]*"); ("require-description", VBool true)];
   (name, RuleClass defaults __call__);
   other_rule "dependency-for-func" [("dependencies", VDict [])];
   other_rule "tasks-for-variants" [("task-variant-mappings", VDict [])];
   other_rule "enforce-tags-for-tasks" [("tag_groups", VList [])]].

(** A Python dict with string keys and values of any type: lookup, and
    assignment as [dict_set] does it. *)
Fixpoint alist_get {A} (k : string) (l : list (string * A)) : option A :=
  match l with
  | [] => None
  | (k', v) :: l' => if String.eqb k k' then Some v else alist_get k l'
  end.

Fixpoint alist_set {A} (k : string) (v : A) (l : list (string * A)) : list (string * A) :=
  match l with
  | [] => [(k, v)]
  | (k', v') :: l' =>
      if String.eqb k k' then (k, v) :: l' else (k', v') :: alist_set k v l'
  end.

(** [{**a, **b}] *)
Definition dict_merge (a b : dict) : dict :=
  foldl (fun acc kv => dict_set kv.1 kv.2 acc) a b.

(** [del d[k]] *)
Fixpoint dict_del (k : string) (d : dict) : res dict :=
  match d with
  | [] => Raise KeyError
  | (k', v) :: d' =>
      if String.eqb k k' then Ok d'
      else d'' ← dict_del k d'; Ok ((k', v) :: d'')
  end.

(** The state of the loops of [lint]: the rules chosen and the config of
    every rule. *)
Definition chosen : Type := list (string * rule_class) * list (string * dict).

Definition sum_lengths (errors : list (string * list LintError)) : nat :=
  foldl (fun n entry => n + length entry.2) 0 errors.

Section Lint.
Context `{Helpers} `{Interp} `{LintEnv}.

(** [RULES[v]] *)
Definition rules_getitem (v : value) : res (string * rule_class) :=
  match v with
  | VStr n =>
      match alist_get n RULES with
      | Some cls => Ok (n, cls)
      | None => Raise KeyError
      end
  | VList _ | VDict _ => Raise TypeError
  | VNone | VBool _ | VInt _ => Raise KeyError
  end.

(** The configs before the config file is read: every rule's defaults. *)
Definition default_configs : list (string * dict) :=
  foldl (fun configs entry => alist_set entry.1 (rule_defaults_of entry.2) configs) [] RULES.

(** One turn of the loop over [config["rules"]]. *)
Definition choose_rule (st : chosen) (rule : value) : res chosen :=
  name ← py_getitem rule "rule";
  entry ← rules_getitem name;
  let rules := alist_set entry.1 entry.2 st.1 in
  match alist_get entry.1 st.2, rule with
  | Some config, VDict options =>
      merged ← dict_del "rule" (dict_merge config options);
      Ok (rules, alist_set entry.1 merged st.2)
  | None, _ => Raise KeyError
  | _, _ => Raise TypeError
  end.

Fixpoint choose_rules (st : chosen) (rules : list value) : res chosen :=
  match rules with
  | [] => Ok st
  | rule :: rules' => st' ← choose_rule st rule; choose_rules st' rules'
  end.

(** The loop over [rules.items()] for one file. *)
Fixpoint run_rules (rules : list (string * rule_class)) (configs : list (string * dict))
    (yaml_dict : dict) (errors : list (string * list LintError))
    : res (list (string * list LintError)) :=
  match rules with
  | [] => Ok errors
  | (rulename, cls) :: rules' =>
      let config := default (rule_defaults_of cls) (alist_get rulename configs) in
      rule_errors ← rule_call cls config yaml_dict;
      run_rules rules' configs yaml_dict
        (if bool_decide (rule_errors = []) then errors
         else alist_set rulename rule_errors errors)
  end.

(** The [print] calls for the errors of one file, one string a call. *)
Fixpoint error_prints (print_nl : bool) (rule : string) (error_list : list LintError)
    : list string :=
  match error_list with
  | [] => []
  | error :: error_list' =>
      (if print_nl then [""] else []) ++ (rule +:+ ": " +:+ error)
        :: error_prints true rule error_list'
  end.

Fixpoint errors_prints (print_nl : bool) (errors : list (string * list LintError))
    : list string :=
  match errors with
  | [] => []
  | (rule, error_list) :: errors' =>
      error_prints print_nl rule error_list
      ++ errors_prints (print_nl || negb (bool_decide (error_list = []))) errors'
  end.

(** What [lint] prints for one file, and whether it found errors (or the
    exception of the lookup of [help_url], after the first line). *)
Definition report (config : value) (yaml_file : value)
    (errors : list (string * list LintError)) : list string * res bool :=
  let err_count := sum_lengths errors in
  if bool_decide (err_count = 0) then
    (["0 errors found in '" +:+ py_format yaml_file +:+ "'"], Ok false)
  else
    let summary :=
      str_nat err_count +:+ " "
        +:+ (if bool_decide (1 < err_count) then "errors" else "error")
        +:+ " found in '" +:+ py_format yaml_file +:+ "':" in
    match py_getitem config "help_url" with
    | Ok help_url =>
        ([summary;
          "For help resolving errors, see the helpful documentation at "
            +:+ py_format help_url]
         ++ errors_prints false errors, Ok true)
    | Raise e => ([summary], Raise e)
    end.

(** The errors of the rules on one file. *)
Definition lint_file (st : chosen) (yaml_file : value)
    : res (list (string * list LintError)) :=
  yaml_dict ← load_file yaml_file;
  run_rules st.1 st.2 yaml_dict [].

(** The loop over [filenames]: what has been printed, and the exit status
    or the exception the loop ends with. *)
Fixpoint lint_files (config : value) (st : chosen) (filenames : list value)
    (ret : nat) (printed : list string) : list string * res nat :=
  match filenames with
  | [] => (printed, Ok ret)
  | yaml_file :: filenames' =>
      match lint_file st yaml_file with
      | Ok errors =>
          match report config yaml_file errors with
          | (prints, Ok found) =>
              lint_files config st filenames' (if found : bool then 1 else ret)
                (printed ++ prints)
          | (prints, Raise e) => (printed ++ prints, Raise e)
          end
      | Raise e => (printed, Raise e)
      end
  end.

(** [lint] up to the loop over the files: the rules chosen, their
    configs and the files. *)
Definition lint_setup (config : value) : res (chosen * list value) :=
  filenames ← py_getitem config "files";
  rules ← py_getitem config "rules";
  rule_items ← py_sequence rules;
  st ← choose_rules ([], default_configs) rule_items;
  file_items ← py_sequence filenames;
  Ok (st, file_items).

Definition lint (config : option value) : list string * res nat :=
  match config with
  | None => (["-c/--config: a config file is required"], Ok 1)
  | Some config =>
      match lint_setup config with
      | Ok (st, file_items) => lint_files config st file_items 0 []
      | Raise e => ([], Raise e)
      end
  end.

End Lint.

(** ** Notions for the facts about [lint] *)

(** The keys of a config while it is merged: the defaults' keys, and
    [rule] once the entry's own key has been copied. *)
Definition with_rule (b : bool) (keys : list string) : list string :=
  if b then keys ++ ["rule"] else keys.

(** The entry names the rule [n]. *)
Definition names_rule (rule : value) (n : string) : Prop :=
  ∃ d, rule = VDict d ∧ dict_get "rule" d = Some (VStr n).

(** What holds of the rules chosen and of the configs, all along. *)
Definition chosen_inv `{Helpers} `{Interp} `{LintEnv} (st : chosen) : Prop :=
  NoDup st.1.*1 ∧
  (∀ n cls, (n, cls) ∈ st.1 → alist_get n RULES = Some cls) ∧
  (∀ n cls, alist_get n RULES = Some cls →
     ∃ c, alist_get n st.2 = Some c ∧ c.*1 = (rule_defaults_of cls).*1).

(** The config [lint] passes to a chosen rule. *)
Definition rule_config (st : chosen) (n : string) (cls : rule_class) : dict :=
  default (rule_defaults_of cls) (alist_get n st.2).

(** A file on which every chosen rule returns no error, and one on which
    some chosen rule returns an error (no rule raising). *)
Definition file_clean `{LintEnv} (st : chosen) (yaml_file : value) : Prop :=
  ∃ yaml_dict, load_file yaml_file = Ok yaml_dict ∧
    ∀ n cls, (n, cls) ∈ st.1 → rule_call cls (rule_config st n cls) yaml_dict = Ok [].

Definition file_dirty `{LintEnv} (st : chosen) (yaml_file : value) : Prop :=
  ∃ yaml_dict n cls rule_errors, load_file yaml_file = Ok yaml_dict ∧
    (n, cls) ∈ st.1 ∧
    rule_call cls (rule_config st n cls) yaml_dict = Ok rule_errors ∧
    rule_errors ≠ [].

Definition zero_errors_line `{Interp} (yaml_file : value) : string :=
  "0 errors found in '" +:+ py_format yaml_file +:+ "'".

(** The lines of the errors of one file, one a [print(f"{rule}:", error)],
    and the two ways the blank lines go with them. *)
Definition error_lines (errors : list (string * list LintError)) : list string :=
  mjoin ((λ entry, (λ error, entry.1 +:+ ": " +:+ error) <$> entry.2) <$> errors).

Definition blank_before (lines : list string) : list string :=
  mjoin ((λ line, [""; line]) <$> lines).

Definition blank_between (lines : list string) : list string :=
  match lines with
  | [] => []
  | line :: lines' => line :: blank_before lines'
  end.

(** ** An example run *)

Definition is_absolute (f : string) : bool :=
  match f with
  | String c _ => Ascii.eqb c "/"
  | EmptyString => false
  end.

Definition example_config_env : ConfigEnv := {|
  abspath_join path f := if is_absolute f then f else path +:+ "/" +:+ f;
  format_name_set names := "{" +:+ String.concat ", " names +:+ "}";
|}.

Definition example_lint_env : LintEnv := {|
  other_rule_call _ _ _ := Ok [];
  load_file _ := Ok example_doc;
|}.

Definition example_rules : list value :=
  [VDict [("rule", VStr "required-expansions-write"); ("regex", VStr "\.py$")];
   VDict [("rule", VStr "no-shell-exec")]].

Definition example_rawconf : value :=
  VDict [("files", VList [VStr "evergreen.yml"]); ("rules", VList example_rules)].

Definition example_config : value :=
  VDict [("files", VList [VStr "/repo/evergreen.yml"]); ("rules", VList example_rules);
         ("help_url", VStr DEFAULT_HELP_URL)].

(** The first line [lint] prints for a file with errors. *)
Definition summary_line `{Interp} (err_count : nat) (yaml_file : value) : string :=
  str_nat err_count +:+ " " +:+ (if bool_decide (1 < err_count) then "errors" else "error")
    +:+ " found in '" +:+ py_format yaml_file +:+ "':".

(** ** The order in which a set is enumerated *)

(** The interpreter [i] when the sets enumerate as [order] says: the
    order of the names of a set of strings follows their hashes, which
    change from one process to the next. *)
Definition with_set_order (order : name_set -> name_set) (i : Interp) : Interp := {|
  format_set_list names := @format_set_list i (order names);
  format_container := @format_container i;
|}.

(** Two errors that are the same but for the printed set. *)
Definition differ_in_set (s1 s2 : string) (e1 e2 : LintError) : Prop :=
  ∃ before after, e1 = before +:+ s1 +:+ after ∧ e2 = before +:+ s2 +:+ after.

(** Two functions that write the expansions, and a task that runs a
    script before any of them. *)
Definition two_writers_doc : dict :=
  [("functions", VDict [("f_write", expansions_write_yml);
                        ("f_write_too", expansions_write_yml)]);
   ("tasks", VList [VDict [("name", VStr "compile");
                           ("commands", VList [run_script "./src/evergreen/run.sh"])]])].

(** ** The rule when a helper may raise *)

(** The rule once more, with helpers that may raise: a predicate returns
    its answer or the exception it raises, a walker the pairs it yields
    and the exception that ends the walk, if one does.  What the rule
    does with the answers is as above. *)
Module Raising.

Class Helpers : Type := {
  match_expansions_write : value -> res bool;
  match_subprocess_exec : value -> res bool;
  match_expansions_update : value -> res bool;
  match_timeout_update : value -> res bool;
  iterate_command_lists : dict -> list (string * value) * option exn;
  iterate_fn_calls_context : dict -> list (string * value * value) * option exn;
}.

(** The end of a [for] over a walker. *)
Definition walk_end (stop : option exn) : res unit :=
  match stop with
  | Some e => Raise e
  | None => Ok ()
  end.

Section Rule.
Context `{Helpers} `{Interp}.

Section Closures.
Variable fns : fn_sets.

Definition _is_expansions_write_or_fn (command : value) : res bool :=
  b ← match_expansions_write command;
  if b : bool then Ok true else func_in command (expansions_write_fns fns).

Definition _is_subprocess_exec_or_fn (command : value) : res bool :=
  b ← match_subprocess_exec command;
  if b : bool then Ok true else func_in command (subprocess_exec_fns fns).

Definition _is_expansions_update_or_fn (command : value) : res bool :=
  b ← match_expansions_update command;
  if b : bool then Ok true else func_in command (expansions_update_fns fns).

Definition _is_timeout_update_or_fn (command : value) : res bool :=
  b ← match_timeout_update command;
  if b : bool then Ok true else func_in command (timeout_update_fns fns).

Definition note_first (idx : nat) (command : value) (st : scan_state)
    : res scan_state :=
  is_first ← (if first_subprocess st is None
              then _is_subprocess_exec_or_fn command else Ok false);
  if is_first : bool then
    Ok (ScanState (out st) (Some idx) (Some command)
          (first_exp_write st) (warned_subprocess st))
  else
    is_write ← (if first_exp_write st is None
                then _is_expansions_write_or_fn command else Ok false);
    if is_write : bool then
      Ok (ScanState (out st) (first_subprocess st) (first_subprocess_cmd st)
            (Some idx) (warned_subprocess st))
    else Ok st.

Definition warn_missing_write (context : string) (idx : nat) (command : value)
    (st : scan_state) : res scan_state :=
  warn ← (if warned_subprocess st then Ok false
          else
            b ← _is_subprocess_exec_or_fn command;
            Ok (b && bool_decide (first_exp_write st = None)));
  if warn : bool then
    c ← _context_add_fn (command_context context idx) (Some command);
    Ok (ScanState (out st ++ [_out_message_subprocess fns c])
          (first_subprocess st) (first_subprocess_cmd st)
          (first_exp_write st) true)
  else Ok st.

Definition check_update (context : string) (commands : list value)
    (idx : nat) (command : value) (st : scan_state) : res scan_state :=
  is_update ← (b ← _is_expansions_update_or_fn command;
               if b : bool then Ok true else _is_timeout_update_or_fn command);
  if is_update : bool then
    unwritten ← (if bool_decide (length commands ≤ idx + 1) then Ok true
                 else
                   match commands !! (idx + 1) with
                   | Some next => b ← _is_expansions_write_or_fn next; Ok (negb b)
                   | None => Ok true
                   end);
    if unwritten : bool then
      b ← _is_expansions_update_or_fn command;
      if b : bool then
        c ← _context_add_fn (command_context context idx) (Some command);
        Ok (append_error st (_out_message_expansions_update fns c "expansions.update"))
      else
        b' ← _is_timeout_update_or_fn command;
        if b' : bool then
          c ← _context_add_fn (command_context context idx) (Some command);
          Ok (append_error st (_out_message_expansions_update fns c "timeout.update"))
        else Ok st
    else Ok st
  else Ok st.

Definition scan_step (context : string) (commands : list value)
    (idx : nat) (command : value) (st : scan_state) : res scan_state :=
  st1 ← note_first idx command st;
  st2 ← warn_missing_write context idx command st1;
  check_update context commands idx command st2.

Fixpoint scan_loop (context : string) (commands : list value)
    (idx : nat) (rest : list value) (st : scan_state) : res scan_state :=
  match rest with
  | [] => Ok st
  | command :: rest' =>
      st' ← scan_step context commands idx command st;
      scan_loop context commands (S idx) rest' st'
  end.

Definition _check_command_list (context : string) (commands : list value)
    : res (list LintError) :=
  st ← scan_loop context commands 0 commands scan_init;
  if fallback_due st then
    c ← _context_add_fn
          (command_context context (default 0 (first_subprocess st)))
          (first_subprocess_cmd st);
    Ok (out st ++ [_out_message_subprocess fns c])
  else Ok (out st).

End Closures.

Definition classify_step (fns : fn_sets) (item : string * value) : res fn_sets :=
  let '(fname, body) := item in
  if isinstance_dict body then
    w ← match_expansions_write body;
    if w : bool then
      Ok (FnSets (set_add fname (expansions_write_fns fns)) (subprocess_exec_fns fns)
            (expansions_update_fns fns) (timeout_update_fns fns))
    else
      s ← match_subprocess_exec body;
      if s : bool then
        Ok (FnSets (expansions_write_fns fns) (set_add fname (subprocess_exec_fns fns))
              (expansions_update_fns fns) (timeout_update_fns fns))
      else
        u ← match_expansions_update body;
        if u : bool then
          Ok (FnSets (expansions_write_fns fns) (subprocess_exec_fns fns)
                (set_add fname (expansions_update_fns fns)) (timeout_update_fns fns))
        else
          t ← match_timeout_update body;
          if t : bool then
            Ok (FnSets (expansions_write_fns fns) (subprocess_exec_fns fns)
                  (expansions_update_fns fns) (set_add fname (timeout_update_fns fns)))
          else Ok fns
  else Ok fns.

Fixpoint classify_items (fns : fn_sets) (items : dict) : res fn_sets :=
  match items with
  | [] => Ok fns
  | item :: items' => fns' ← classify_step fns item; classify_items fns' items'
  end.

Definition classify (yaml : dict) : res fn_sets :=
  match dict_get "functions" yaml with
  | Some functions => items ← py_items functions; classify_items no_fns items
  | None => Ok no_fns
  end.

Fixpoint check_command_lists (fns : fn_sets) (lists : list (string * value))
    (out : list LintError) : res (list LintError) :=
  match lists with
  | [] => Ok out
  | (context, commands) :: lists' =>
      if isinstance_dict commands then check_command_lists fns lists' out
      else
        cmds ← py_sequence commands;
        errs ← _check_command_list fns context cmds;
        check_command_lists fns lists' (out ++ errs)
  end.

Definition __call__ (config : dict) (yaml : dict) : res (list LintError) :=
  fns ← classify yaml;
  out ← check_command_lists fns (iterate_command_lists yaml).1 [];
  walk_end (iterate_command_lists yaml).2;;
  out' ← check_fn_calls fns (iterate_fn_calls_context yaml).1 out;
  walk_end (iterate_fn_calls_context yaml).2;;
  Ok out'.

End Rule.

(** One of the four predicates raises [e] on [c]. *)
Definition predicate_raises `{Helpers} (e : exn) (c : value) : Prop :=
  match_expansions_write c = Raise e ∨ match_subprocess_exec c = Raise e ∨
  match_expansions_update c = Raise e ∨ match_timeout_update c = Raise e.


(** What the check of [commands] may raise: the [TypeError] of the
    rule's own tests, or what a predicate raises on one of the commands. *)
Definition may_raise `{Helpers} (commands : list value) (e : exn) : Prop :=
  e = TypeError ∨ ∃ c, c ∈ commands ∧ predicate_raises e c.

End Raising.

(** Helpers that never raise. *)
Definition returning (h : Helpers) : Raising.Helpers := {|
  Raising.match_expansions_write c := Ok (match_expansions_write c);
  Raising.match_subprocess_exec c := Ok (match_subprocess_exec c);
  Raising.match_expansions_update c := Ok (match_expansions_update c);
  Raising.match_timeout_update c := Ok (match_timeout_update c);
  Raising.iterate_command_lists yaml := (iterate_command_lists yaml, None);
  Raising.iterate_fn_calls_context yaml := (iterate_fn_calls_context yaml, None);
|}.

(** Helpers for the examples that raise as a membership test does on a
    value that is no container, and answer as [spec_helpers] on the
    others. *)
Definition probing (answer : value -> bool) (c : value) : res bool :=
  match c with
  | VNone | VBool _ | VInt _ => Raise TypeError
  | _ => Ok (answer c)
  end.

Definition probing_helpers : Raising.Helpers := {|
  Raising.match_expansions_write := probing (@match_expansions_write spec_helpers);
  Raising.match_subprocess_exec := probing (@match_subprocess_exec spec_helpers);
  Raising.match_expansions_update := probing (@match_expansions_update spec_helpers);
  Raising.match_timeout_update := probing (@match_timeout_update spec_helpers);
  Raising.iterate_command_lists yaml := (spec_command_lists yaml, None);
  Raising.iterate_fn_calls_context yaml := (spec_fn_calls yaml, None);
|}.

(** * Facts about one scan *)

Ltac res_simpl := cbn [mbind res_bind mret res_ret] in *.

Lemma bind_Ok {A B} (m : res A) (f : A → res B) b :
  m ≫= f = Ok b → ∃ a, m = Ok a ∧ f a = Ok b.
Proof. destruct m; [eauto|done]. Qed.

Ltac res_inv :=
  repeat match goal with
  | Hb : _ ≫= _ = Ok _ |- _ => apply bind_Ok in Hb as (? & ? & ?)
  | Hb : Ok _ = Ok _ |- _ => injection Hb as <-
  | Hb : Raise _ = Ok _ |- _ => discriminate Hb
  | Hb : (if ?b then _ else _) = Ok _ |- _ => destruct b eqn:?
  | Hb : match ?x with _ => _ end = Ok _ |- _ => destruct x eqn:?
  end.

Section ScanFacts.
Context `{Helpers} `{Interp}.
Variable fns : fn_sets.

Lemma holds_total (r : res bool) b : r = Ok b → r = Ok (holds r).
  Proof. by intros ->. Qed.

Lemma func_in_total c s : wf_command c = true → ∃ b, func_in c s = Ok b.
  Proof.
    destruct c as [| | | | |d]; try done. unfold func_in; simpl.
    destruct (dict_get "func" d) as [f|] eqn:E; simpl; [|by eauto].
    destruct f; simpl; try done; eauto.
  Qed.

Lemma is_subprocess_total c :
    wf_command c = true → _is_subprocess_exec_or_fn fns c = Ok (runs_script fns c).
  Proof.
    intros Hc. unfold runs_script, _is_subprocess_exec_or_fn.
    case_match; [done|]. destruct (func_in_total c (subprocess_exec_fns fns) Hc) as [b ->]. done.
  Qed.

Lemma check_update_locals context commands idx c st st' :
    check_update fns context commands idx c st = Ok st' →
    first_subprocess st' = first_subprocess st ∧
    first_exp_write st' = first_exp_write st ∧
    warned_subprocess st' = warned_subprocess st.
  Proof.
    unfold check_update. intros Hs. res_inv; done.
  Qed.

Lemma scan_step_inv context commands idx c st st' :
    scan_inv idx st →
    scan_step fns context commands idx c st = Ok st' →
    scan_inv (S idx) st'.
  Proof.
    unfold scan_step. intros Hinv Hs.
    apply bind_Ok in Hs as (st1 & H1 & Hs).
    apply bind_Ok in Hs as (st2 & H2 & H3).
    apply check_update_locals in H3 as (E1 & E2 & E3).
    unfold scan_inv, scan_clean, scan_settled in *. rewrite E1, E2, E3. clear E1 E2 E3 st'.
    unfold note_first, warn_missing_write in *.
    destruct st as [o fs fc fw w]; simpl in *.
    destruct Hinv as [(-> & -> & ->)|[->|(w' & -> & ? & ?)]].
    - destruct (_is_subprocess_exec_or_fn fns c) as [[|]|]; res_simpl; res_inv;
        simpl in *; res_inv; simpl in *; naive_solver lia.
    - res_inv; simpl in *; res_inv; naive_solver.
    - res_inv; simpl in *; res_inv; simpl in *; try done; naive_solver lia.
  Qed.

Lemma is_write_total c :
    wf_command c = true → _is_expansions_write_or_fn fns c = Ok (writes_expansions fns c).
  Proof.
    intros Hc. unfold writes_expansions, _is_expansions_write_or_fn.
    case_match; [done|]. destruct (func_in_total c (expansions_write_fns fns) Hc) as [b ->]. done.
  Qed.

Lemma is_update_total c :
    wf_command c = true → _is_expansions_update_or_fn fns c = Ok (updates_expansions fns c).
  Proof.
    intros Hc. unfold updates_expansions, _is_expansions_update_or_fn.
    case_match; [done|]. destruct (func_in_total c (expansions_update_fns fns) Hc) as [b ->]. done.
  Qed.

Lemma is_timeout_total c :
    wf_command c = true → _is_timeout_update_or_fn fns c = Ok (updates_timeout fns c).
  Proof.
    intros Hc. unfold updates_timeout, _is_timeout_update_or_fn.
    case_match; [done|]. destruct (func_in_total c (timeout_update_fns fns) Hc) as [b ->]. done.
  Qed.

Lemma context_add_fn_wf context c :
    wf_command c = true → _context_add_fn context (Some c) = Ok (context_with_fn context c).
  Proof.
    destruct c as [| | | | |d]; try done. intros _.
    unfold _context_add_fn, context_with_fn, py_truthy, py_contains, py_getitem.
    case_bool_decide as Hd; [by subst|]. cbn [negb]. res_simpl.
    destruct (dict_get "func" d) eqn:E; [|done].
    by rewrite bool_decide_eq_true_2 by eauto.
  Qed.

Lemma check_update_wf context commands idx c st :
    wf_command c = true →
    (∀ next, commands !! S idx = Some next → wf_command next = true) →
    check_update fns context commands idx c st =
      Ok (ScanState (out st ++ (render_violation fns context <$> update_at fns commands idx c))
            (first_subprocess st) (first_subprocess_cmd st) (first_exp_write st)
            (warned_subprocess st)).
  Proof.
    intros Hc Hnext. unfold check_update, update_at, followed_by_write.
    rewrite is_update_total, is_timeout_total, context_add_fn_wf by done.
    replace (idx + 1) with (S idx) by lia.
    destruct (commands !! S idx) as [next|] eqn:En.
    - case_bool_decide as Hl; [apply lookup_ge_None_2 in Hl; congruence|].
      rewrite (is_write_total next) by eauto.
      destruct st, (updates_expansions fns c), (updates_timeout fns c),
        (writes_expansions fns next); simpl; by rewrite ?app_nil_r.
    - destruct st, (updates_expansions fns c), (updates_timeout fns c);
        simpl; try case_bool_decide; simpl; by rewrite ?app_nil_r.
  Qed.

Lemma scan_step_wf context commands idx c st clean :
    wf_command c = true →
    (∀ next, commands !! S idx = Some next → wf_command next = true) →
    scan_rel clean idx st →
    ∃ st', scan_step fns context commands idx c st = Ok st' ∧
      out st' = out st ++ (render_violation fns context <$>
                  ((if runs_script fns c && clean then [MissingWrite idx c] else [])
                   ++ update_at fns commands idx c)) ∧
      scan_rel (clean && negb (runs_script fns c) && negb (writes_expansions fns c))
        (S idx) st'.
  Proof.
    intros Hc Hnext Hrel. unfold scan_step.
    assert (∃ st2, (note_first fns idx c st ≫= warn_missing_write fns context idx c) = Ok st2 ∧
      out st2 = out st ++ (render_violation fns context <$>
                  (if runs_script fns c && clean then [MissingWrite idx c] else [])) ∧
      scan_rel (clean && negb (runs_script fns c) && negb (writes_expansions fns c))
        (S idx) st2) as (st2 & E2 & Hout & Hrel2).
    { unfold note_first, warn_missing_write.
      rewrite is_subprocess_total, is_write_total, context_add_fn_wf by done.
      unfold scan_rel, scan_clean, scan_settled in *.
      destruct st as [o fs fc fw w]; simpl in *.
      destruct clean.
      - destruct Hrel as (-> & -> & ->).
        destruct (runs_script fns c), (writes_expansions fns c); simpl;
          eexists; (split; [done|]); simpl; rewrite ?app_nil_r; naive_solver lia.
      - destruct Hrel as [->|(w' & -> & ? & ?)].
        + destruct fs, fw, (runs_script fns c), (writes_expansions fns c); simpl;
          eexists; (split; [done|]); simpl; rewrite ?app_nil_r; naive_solver lia.
        + destruct fs, w, (runs_script fns c), (writes_expansions fns c); simpl;
          eexists; (split; [done|]); simpl; rewrite ?app_nil_r; naive_solver lia. }
    apply bind_Ok in E2 as (st1 & -> & E2). res_simpl. rewrite E2. res_simpl.
    rewrite check_update_wf by done. eexists; split; [done|]. simpl.
    rewrite Hout, fmap_app, (assoc_L (++)). split; [done|].
    revert Hrel2. unfold scan_rel, scan_clean, scan_settled. by case_match.
  Qed.

Lemma violations_upto_snoc commands pre c rest :
    commands = pre ++ c :: rest →
    violations_upto fns commands (pre ++ [c]) =
      violations_upto fns commands pre ++
      ((if runs_script fns c && clean_prefix fns pre
        then [MissingWrite (length pre) c] else [])
       ++ update_at fns commands (length pre) c).
  Proof.
    intros ->. unfold violations_upto. rewrite imap_app, join_app. simpl.
    rewrite app_nil_r, Nat.add_0_r. unfold violations_at, missing_write_at.
    by rewrite take_app_length.
  Qed.

Lemma clean_prefix_snoc pre c :
    clean_prefix fns (pre ++ [c]) =
      clean_prefix fns pre && negb (runs_script fns c) && negb (writes_expansions fns c).
  Proof.
    unfold clean_prefix. rewrite forallb_app. simpl.
    by destruct (forallb _ pre), (runs_script fns c), (writes_expansions fns c).
  Qed.

Lemma scan_loop_wf context commands rest : ∀ pre st,
    commands = pre ++ rest →
    Forall (λ c, wf_command c = true) commands →
    out st = render_violation fns context <$> violations_upto fns commands pre →
    scan_rel (clean_prefix fns pre) (length pre) st →
    ∃ st', scan_loop fns context commands (length pre) rest st = Ok st' ∧
      out st' = render_violation fns context <$> violations fns commands ∧
      scan_rel (clean_prefix fns commands) (length commands) st'.
  Proof.
    induction rest as [|c rest IH]; intros pre st Hcmds Hwf Hout Hrel.
    - rewrite app_nil_r in Hcmds. subst pre. by exists st.
    - simpl.
      destruct (scan_step_wf context commands (length pre) c st (clean_prefix fns pre))
        as (st1 & -> & Hout1 & Hrel1); [| |done|].
      + rewrite Forall_forall in Hwf. apply Hwf. subst. rewrite elem_of_app, elem_of_cons. auto.
      + intros next Hn. rewrite Forall_forall in Hwf. apply Hwf.
        by eapply list_elem_of_lookup_2.
      + res_simpl. replace (S (length pre)) with (length (pre ++ [c])) in *
          by (rewrite length_app; simpl; lia).
        apply IH.
        * by rewrite <-(assoc_L (++)).
        * done.
        * rewrite (violations_upto_snoc _ _ _ rest), fmap_app by done.
          by rewrite Hout1, Hout.
        * by rewrite clean_prefix_snoc.
  Qed.

Lemma fallback_never_due idx st : scan_inv idx st → fallback_due st = false.
  Proof.
    unfold fallback_due, scan_inv, scan_clean, scan_settled.
    destruct st as [o fs fc fw wd]; simpl.
    intros [(-> & -> & ->)|[->|(w & -> & ? & Hs)]]; try done.
    destruct wd, fs as [s|]; try done.
    simpl. apply bool_decide_eq_false_2. specialize (Hs s eq_refl). lia.
  Qed.

Lemma scan_rel_inv clean idx st : scan_rel clean idx st → scan_inv idx st.
  Proof. destruct clean; [by left|by right]. Qed.

Lemma check_command_list_wf context commands :
    Forall (λ c, wf_command c = true) commands →
    _check_command_list fns context commands =
      Ok (render_violation fns context <$> violations fns commands).
  Proof.
    intros Hwf. unfold _check_command_list.
    destruct (scan_loop_wf context commands commands [] scan_init)
      as (st & E & Hout & Hrel); try done.
    simpl in E. rewrite E. res_simpl.
    by rewrite (fallback_never_due _ _ (scan_rel_inv _ _ _ Hrel)), Hout.
  Qed.

Lemma scan_loop_inv context commands rest : ∀ idx st st',
    scan_inv idx st →
    scan_loop fns context commands idx rest st = Ok st' →
    scan_inv (idx + length rest) st'.
  Proof.
    induction rest as [|c rest IH]; intros idx st st' Hinv Hs; simpl in *.
    - rewrite Nat.add_0_r. by simplify_eq.
    - apply bind_Ok in Hs as (st1 & H1 & Hs).
      replace (idx + S (length rest)) with (S idx + length rest) by lia.
      eapply IH; [|done]. by eapply scan_step_inv.
  Qed.

Lemma fallback_unreachable context commands :
    _check_command_list fns context commands =
    _check_command_list_no_fallback fns context commands.
  Proof.
    unfold _check_command_list, _check_command_list_no_fallback.
    destruct (scan_loop _ _ _ _ _ _) as [st|e] eqn:E; [|done]. res_simpl.
    apply scan_loop_inv in E; [|by left].
    by rewrite (fallback_never_due _ _ E).
  Qed.
End ScanFacts.

#[local] Set Warnings "-clear-no-such-hyp".

Section StepKinds.
Context {helpers : Helpers} {interp : Interp}.
Variable fns : fn_sets.

Lemma func_in_true c s : func_in c s = Ok true ↔ calls_one_of s c.
  Proof.
    unfold func_in, calls_one_of. split.
    - intros Hf. apply bind_Ok in Hf as ([|] & Hc & Hf); [|done].
      apply bind_Ok in Hf as (f & Hg & Hf).
      destruct c as [| | | | |d]; try done. simpl in Hg.
      destruct (dict_get "func" d) as [f'|] eqn:E; [|done]. simplify_eq.
      destruct f as [| | |x| |]; try done. simpl in Hf. simplify_eq.
      exists d, x. split_and!; [done..|]. by eapply bool_decide_eq_true_1.
    - intros (d & f & -> & E & Hin). simpl. rewrite E.
      rewrite bool_decide_eq_true_2 by eauto. res_simpl. simpl.
      by rewrite bool_decide_eq_true_2.
  Qed.

Lemma holds_true r : holds r = true ↔ r = Ok true.
  Proof. destruct r as [[|]|]; naive_solver. Qed.

Lemma runs_script_iff c : runs_script fns c = true ↔ script_execution_step fns c.
  Proof.
    unfold runs_script, script_execution_step, _is_subprocess_exec_or_fn.
    rewrite holds_true. case_match; [naive_solver|]. rewrite func_in_true. naive_solver.
  Qed.

Lemma writes_expansions_iff c : writes_expansions fns c = true ↔ expansions_write_step fns c.
  Proof.
    unfold writes_expansions, expansions_write_step, _is_expansions_write_or_fn.
    rewrite holds_true. case_match; [naive_solver|]. rewrite func_in_true. naive_solver.
  Qed.

Lemma updates_expansions_iff c :
    updates_expansions fns c = true ↔ expansions_update_step fns c.
  Proof.
    unfold updates_expansions, expansions_update_step, _is_expansions_update_or_fn.
    rewrite holds_true. case_match; [naive_solver|]. rewrite func_in_true. naive_solver.
  Qed.

Lemma updates_timeout_iff c : updates_timeout fns c = true ↔ timeout_update_step fns c.
  Proof.
    unfold updates_timeout, timeout_update_step, _is_timeout_update_or_fn.
    rewrite holds_true. case_match; [naive_solver|]. rewrite func_in_true. naive_solver.
  Qed.

  (** Membership in the violations. *)
Lemma elem_of_violations commands v :
    v ∈ violations fns commands ↔
    ∃ idx c, commands !! idx = Some c ∧ v ∈ violations_at fns commands idx c.
  Proof.
    unfold violations, violations_upto. rewrite list_elem_of_join. split.
    - intros (l & Hv & Hl). apply elem_of_lookup_imap in Hl as (i & c & -> & Hc). eauto.
    - intros (i & c & Hc & Hv). eexists; split; [done|].
      apply elem_of_lookup_imap. eauto.
  Qed.

Lemma clean_prefix_take commands idx :
    clean_prefix fns (take idx commands) = true ↔
    ∀ j c, j < idx → commands !! j = Some c →
      runs_script fns c = false ∧ writes_expansions fns c = false.
  Proof.
    unfold clean_prefix. rewrite <-Is_true_true, forallb_True, Forall_lookup. split.
    - intros Hall j c Hj Hc. specialize (Hall j c).
      rewrite lookup_take_lt in Hall by done. specialize (Hall Hc).
      apply Is_true_true in Hall. revert Hall. 
      by destruct (runs_script fns c), (writes_expansions fns c).
    - intros Hall j c Hc. apply lookup_take_Some in Hc as [Hc Hj].
      destruct (Hall j c Hj Hc) as [-> ->]. done.
  Qed.

Lemma missing_write_elem_of commands idx c :
    MissingWrite idx c ∈ violations fns commands ↔
    commands !! idx = Some c ∧ runs_script fns c = true ∧
    clean_prefix fns (take idx commands) = true.
  Proof.
    rewrite elem_of_violations. unfold violations_at, missing_write_at, update_at. split.
    - intros (i & c' & Hc & Hv). apply elem_of_app in Hv as [Hv|Hv].
      + destruct (runs_script fns c') eqn:?, (clean_prefix fns (take i commands)) eqn:?;
          simpl in Hv; try by apply elem_of_nil in Hv.
        apply list_elem_of_singleton in Hv. by simplify_eq.
      + case_match; [|by apply elem_of_nil in Hv].
        by apply list_elem_of_singleton in Hv.
    - intros (Hc & Hr & Hp). exists idx, c. split; [done|].
      rewrite Hr, Hp. simpl. constructor.
  Qed.
End StepKinds.

Section MissingWriteFacts.
Context {helpers : Helpers} {interp : Interp}.
Variable fns : fn_sets.

Lemma missing_write_count commands pre : ∀ rest,
    commands = pre ++ rest →
    length (filter (λ v, is_missing_write v = true) (violations_upto fns commands pre)) ≤ 1 ∧
    (clean_prefix fns pre = true →
     filter (λ v, is_missing_write v = true) (violations_upto fns commands pre) = []).
  Proof.
    induction pre as [|c pre IH] using rev_ind; intros rest Hcmds;
      [split; [simpl; lia|done]|].
    rewrite <-(assoc_L (++)) in Hcmds. simpl in Hcmds.
    destruct (IH _ Hcmds) as [Hle Hclean].
    rewrite (violations_upto_snoc fns _ _ _ rest), !filter_app, clean_prefix_snoc by done.
    assert (filter (λ v, is_missing_write v = true) (update_at fns commands (length pre) c) = [])
      as ->.
    { unfold update_at. by case_match. }
    rewrite app_nil_r, length_app.
    destruct (clean_prefix fns pre); [rewrite Hclean by done|];
      destruct (runs_script fns c); simpl; split; try done; lia.
  Qed.

Lemma first_script_execution (commands : list value) i c :
    commands !! i = Some c → runs_script fns c = true →
    ∃ s cs, s ≤ i ∧ commands !! s = Some cs ∧ runs_script fns cs = true ∧
      ∀ j c', j < s → commands !! j = Some c' → runs_script fns c' = false.
  Proof.
    intros Hc Hr.
    destruct (list_find_elem_of (λ c, runs_script fns c = true) commands c)
      as [[s cs] Hfind]; [by eapply list_elem_of_lookup_2|done|].
    apply list_find_Some in Hfind as (Hs & Hrs & Hfirst).
    exists s, cs. split_and!; [|done..|].
    - destruct (decide (s ≤ i)); [done|]. destruct (Hfirst i c); [done|lia|done].
    - intros j c' Hj Hc'. specialize (Hfirst j c' Hc' Hj). by destruct (runs_script fns c').
  Qed.
End MissingWriteFacts.

Section UpdateFacts.
Context {helpers : Helpers} {interp : Interp}.
Variable fns : fn_sets.

Lemma filter_none {A} (P : A → Prop) `{!∀ x, Decision (P x)} (l : list A) :
    (∀ x, x ∈ l → ¬ P x) → filter P l = [].
  Proof.
    induction l as [|x l IH]; intros Hall; [done|].
    rewrite filter_cons_False by (apply Hall; constructor).
    apply IH. intros y Hy. apply Hall. by constructor.
  Qed.

Lemma violations_at_idx commands idx c v :
    v ∈ violations_at fns commands idx c → violation_idx v = idx.
  Proof.
    unfold violations_at, missing_write_at, update_at.
    intros [Hv|Hv]%elem_of_app; case_match; try (by apply elem_of_nil in Hv);
      by apply list_elem_of_singleton in Hv as ->.
  Qed.

Lemma filter_violations_at (P : violation → Prop) `{!∀ v, Decision (P v)}
      (commands : list value) idx c :
    (∀ v, P v → violation_idx v = idx) →
    commands !! idx = Some c →
    filter P (violations fns commands) = filter P (violations_at fns commands idx c).
  Proof.
    intros HP Hc. unfold violations, violations_upto.
    rewrite <-(take_drop_middle commands idx c Hc) at 2.
    rewrite imap_app, join_app, filter_app. simpl. rewrite filter_app.
    assert (length (take idx commands) = idx) as Hlen.
    { rewrite length_take. apply lookup_lt_Some in Hc. lia. }
    rewrite Hlen, Nat.add_0_r.
    rewrite filter_none, (filter_none P (mjoin _)), app_nil_r; [done| |].
    - intros v (l & Hv & Hl)%list_elem_of_join Hp.
      apply elem_of_lookup_imap in Hl as (j & c' & -> & Hj).
      apply violations_at_idx in Hv. apply HP in Hp. simpl in Hv. lia.
    - intros v (l & Hv & Hl)%list_elem_of_join Hp.
      apply elem_of_lookup_imap in Hl as (j & c' & -> & Hj).
      apply lookup_take_Some in Hj as [_ Hj].
      apply violations_at_idx in Hv. apply HP in Hp. lia.
  Qed.

Lemma append_inj_l (a x y : string) : a +:+ x = a +:+ y → x = y.
  Proof. induction a as [|ch a IH]; simpl; [done|]. intros [=]. auto. Qed.

Lemma update_wording_differs context :
    _out_message_expansions_update fns context "expansions.update" ≠
    _out_message_expansions_update fns context "timeout.update".
  Proof.
    unfold _out_message_expansions_update. intros Heq%append_inj_l. simpl in Heq.
    discriminate Heq.
  Qed.
End UpdateFacts.

Lemma forallb_wf (commands : list value) :
  forallb wf_command commands = true → Forall (λ c, wf_command c = true) commands.
Proof.
  induction commands as [|c commands IH]; simpl; [done|].
  intros [? ?]%andb_prop. constructor; auto.
Qed.

Section MissingWrite.
Context {helpers : Helpers} {interp : Interp}.
Variable fns : fn_sets.

Lemma missing_write_violations context (commands : list value) :
    forallb wf_command commands = true →
    _check_command_list fns context commands =
      Ok (render_violation fns context <$> violations fns commands) ∧
    length (filter (λ v, is_missing_write v = true) (violations fns commands)) ≤ 1 ∧
    (∀ idx c, MissingWrite idx c ∈ violations fns commands →
       commands !! idx = Some c ∧ script_execution_step fns c ∧
       ∀ j c', j < idx → commands !! j = Some c' → ¬ script_execution_step fns c') ∧
    ((∃ idx c, MissingWrite idx c ∈ violations fns commands) ↔
     ∃ i c, commands !! i = Some c ∧ script_execution_step fns c ∧
       ∀ j c', j < i → commands !! j = Some c' → ¬ expansions_write_step fns c').
  Proof.
    intros Hwf%forallb_wf. split_and!.
    - by apply check_command_list_wf.
    - apply (missing_write_count fns commands commands []). by rewrite app_nil_r.
    - intros idx c (Hc & Hr & Hclean)%missing_write_elem_of.
      split_and!; [done|by apply runs_script_iff|].
      intros j c' Hj Hc' Hr'%runs_script_iff.
      rewrite clean_prefix_take in Hclean. destruct (Hclean j c' Hj Hc'). congruence.
    - split.
      + intros (idx & c & (Hc & Hr & Hclean)%missing_write_elem_of).
        exists idx, c. split_and!; [done|by apply runs_script_iff|].
        intros j c' Hj Hc' Hw'%writes_expansions_iff.
        rewrite clean_prefix_take in Hclean. destruct (Hclean j c' Hj Hc'). congruence.
      + intros (i & c & Hc & Hr%runs_script_iff & Hnow).
        destruct (first_script_execution fns commands i c Hc Hr)
          as (s & cs & Hs & Hcs & Hrs & Hfirst).
        exists s, cs. apply missing_write_elem_of. split_and!; [done..|].
        apply clean_prefix_take. intros j c' Hj Hc'. split; [by eauto|].
        destruct (writes_expansions fns c') eqn:Hw; [|done].
        destruct (Hnow j c'); [lia|done|]. by apply writes_expansions_iff.
  Qed.
End MissingWrite.

Section UpdateWrite.
Context {helpers : Helpers} {interp : Interp}.
Variable fns : fn_sets.

Lemma update_at_filter commands idx c :
    filter (update_violation_at idx) (violations_at fns commands idx c) =
    update_at fns commands idx c.
  Proof.
    unfold violations_at, missing_write_at, update_at. rewrite filter_app.
    rewrite (filter_none _ (if _ : bool then _ else _)).
    - case_match; [|done]. by rewrite filter_cons_True.
    - intros v Hv [Hu _]. case_match; [|by apply elem_of_nil in Hv].
      by apply list_elem_of_singleton in Hv as ->.
  Qed.

Lemma update_violations context (commands : list value) :
    forallb wf_command commands = true →
    _check_command_list fns context commands =
      Ok (render_violation fns context <$> violations fns commands) ∧
    (∀ idx c, commands !! idx = Some c →
       expansions_update_step fns c ∨ timeout_update_step fns c →
       ((∃ next, commands !! S idx = Some next ∧ expansions_write_step fns next) →
        filter (update_violation_at idx) (violations fns commands) = []) ∧
       (commands !! S idx = None ∨
        (∃ next, commands !! S idx = Some next ∧ ¬ expansions_write_step fns next) →
        (expansions_update_step fns c →
         filter (update_violation_at idx) (violations fns commands) =
           [UpdateNotFollowed "expansions.update" idx c]) ∧
        (¬ expansions_update_step fns c →
         filter (update_violation_at idx) (violations fns commands) =
           [UpdateNotFollowed "timeout.update" idx c]))) ∧
    (∀ label,
       _out_message_expansions_update fns label "expansions.update" ≠
       _out_message_expansions_update fns label "timeout.update").
  Proof.
    intros Hwf%forallb_wf. split_and!.
    - by apply check_command_list_wf.
    - intros idx c Hc Hupd.
      rewrite (filter_violations_at fns _ commands idx c) by (done || by intros v [_ ?]).
      rewrite update_at_filter. unfold update_at, followed_by_write.
      assert (updates_expansions fns c || updates_timeout fns c = true) as ->.
      { apply orb_true_iff.
        destruct Hupd; [left; by apply updates_expansions_iff
                       |right; by apply updates_timeout_iff]. }
      split.
      + intros (next & -> & Hw%writes_expansions_iff). by rewrite Hw.
      + intros Hnext.
        assert (match commands !! S idx with
                | Some next => writes_expansions fns next | None => false end = false) as ->.
        { destruct Hnext as [->|(next & -> & Hw)]; [done|].
          destruct (writes_expansions fns next) eqn:E; [|done].
          by apply writes_expansions_iff in E. }
        simpl. split.
        * intros Hu%updates_expansions_iff. by rewrite Hu.
        * intros Hu. destruct (updates_expansions fns c) eqn:E; [|done].
          by apply updates_expansions_iff in E.
    - apply update_wording_differs.
  Qed.
End UpdateWrite.

Section Order.
Context {helpers : Helpers} {interp : Interp}.
Variable fns : fn_sets.

Lemma violations_upto_idx commands pre v :
    v ∈ violations_upto fns commands pre → violation_idx v < length pre.
  Proof.
    unfold violations_upto. intros (l & Hv & Hl)%list_elem_of_join.
    apply elem_of_lookup_imap in Hl as (j & c & -> & Hj).
    apply violations_at_idx in Hv. apply lookup_lt_Some in Hj. lia.
  Qed.

Lemma violations_at_sorted commands idx c :
    StronglySorted detected_before (violations_at fns commands idx c).
  Proof.
    unfold violations_at, missing_write_at, update_at.
    destruct (runs_script fns c && _), ((_ || _) && _); simpl.
    - apply SSorted_cons; [|apply List.Forall_cons; [by right|apply List.Forall_nil]].
      apply SSorted_cons; [apply SSorted_nil|apply List.Forall_nil].
    - apply SSorted_cons; [apply SSorted_nil|apply List.Forall_nil].
    - apply SSorted_cons; [apply SSorted_nil|apply List.Forall_nil].
    - apply SSorted_nil.
  Qed.

Lemma violations_upto_sorted commands pre : ∀ rest,
    commands = pre ++ rest →
    StronglySorted detected_before (violations_upto fns commands pre).
  Proof.
    induction pre as [|c pre IH] using rev_ind; intros rest Hcmds; [constructor|].
    rewrite <-(assoc_L (++)) in Hcmds. simpl in Hcmds.
    assert (violations_upto fns commands (pre ++ [c]) =
            violations_upto fns commands pre ++ violations_at fns commands (length pre) c) as ->.
    { unfold violations_upto. rewrite imap_app, join_app. simpl.
      by rewrite app_nil_r, Nat.add_0_r. }
    apply StronglySorted_app_2; [|by eapply IH|apply violations_at_sorted].
    intros v1 v2 H1%violations_upto_idx H2%violations_at_idx. left. lia.
  Qed.

Lemma violations_sorted commands :
    StronglySorted detected_before (violations fns commands).
  Proof. apply (violations_upto_sorted commands commands []). by rewrite app_nil_r. Qed.

Lemma check_command_lists_wf lists : ∀ out,
    forallb (λ entry, wf_command_list entry.2) lists = true →
    check_command_lists fns lists out = Ok (out ++ mjoin (list_errors fns <$> lists)).
  Proof.
    induction lists as [|[context commands] lists IH]; intros out Hwf; simpl.
    - by rewrite app_nil_r.
    - simpl in Hwf. apply andb_prop in Hwf as [Hc Hwf].
      destruct commands as [| | | |l|d]; try done; simpl.
      + rewrite check_command_list_wf by by apply forallb_wf. res_simpl.
        rewrite IH by done. by rewrite (assoc_L (++)).
      + by rewrite IH.
  Qed.

Lemma takes_arguments_total command :
    wf_fn_call command = true →
    takes_arguments fns command = Ok (holds (takes_arguments fns command)).
  Proof.
    destruct command as [| | | | |d]; try done. unfold takes_arguments. simpl.
    destruct (dict_get "func" d) as [f|]; [|done]. intros Hf. res_simpl.
    destruct f; try done; simpl; try done.
    case_bool_decide; [|done]. res_simpl.
    destruct (dict_get "vars" d) as [x|] eqn:Ev; simpl; [|done].
    rewrite ?bool_decide_eq_true_2 by eauto. done.
  Qed.

Lemma check_fn_calls_wf calls : ∀ out,
    forallb (λ site, wf_fn_call site.1.2) calls = true →
    check_fn_calls fns calls out = Ok (out ++ mjoin (call_errors fns <$> calls)).
  Proof.
    induction calls as [|[[context command] enclosing] calls IH]; intros out Hwf; simpl.
    - by rewrite app_nil_r.
    - simpl in Hwf. apply andb_prop in Hwf as [Hc Hwf].
      rewrite takes_arguments_total by done. res_simpl. unfold call_errors. simpl.
      destruct (holds _); rewrite IH by done; [|done]. by rewrite <-(assoc_L (++)).
  Qed.
End Order.

Section Document.
Context {helpers : Helpers} {interp : Interp}.

Lemma call_wf config yaml :
    wf_document yaml = true →
    ∃ fns, classify yaml = Ok fns ∧
      check_command_lists fns (iterate_command_lists yaml) [] =
        Ok (mjoin (list_errors fns <$> iterate_command_lists yaml)) ∧
      __call__ config yaml =
        Ok (mjoin (list_errors fns <$> iterate_command_lists yaml) ++
            mjoin (call_errors fns <$> iterate_fn_calls_context yaml)).
  Proof.
    unfold wf_document, __call__, classify.
    intros [[Hf Hl]%andb_prop Hc]%andb_prop.
    destruct (dict_get "functions" yaml) as [[| | | | |d]|]; try done; simpl;
      eexists; (split; [done|]); res_simpl;
      rewrite check_command_lists_wf by done; simpl; (split; [done|]);
      by rewrite check_fn_calls_wf.
  Qed.
End Document.

Section Classification.
Context {helpers : Helpers}.

Lemma elem_of_set_add x y s : x ∈ set_add y s ↔ x = y ∨ x ∈ s.
  Proof.
    unfold set_add. case_decide.
    - naive_solver.
    - rewrite elem_of_app, list_elem_of_singleton. naive_solver.
  Qed.

Lemma classify_step_spec fns fname body f :
    let fns' := classify_step fns (fname, body) in
    (f ∈ expansions_write_fns fns' ↔
       f ∈ expansions_write_fns fns ∨ (f = fname ∧ goes_to_write body = true)) ∧
    (f ∈ subprocess_exec_fns fns' ↔
       f ∈ subprocess_exec_fns fns ∨ (f = fname ∧ goes_to_exec body = true)) ∧
    (f ∈ expansions_update_fns fns' ↔
       f ∈ expansions_update_fns fns ∨ (f = fname ∧ goes_to_update body = true)) ∧
    (f ∈ timeout_update_fns fns' ↔
       f ∈ timeout_update_fns fns ∨ (f = fname ∧ goes_to_timeout body = true)).
  Proof.
    unfold classify_step, goes_to_write, goes_to_exec, goes_to_update, goes_to_timeout.
    destruct (isinstance_dict body), (match_expansions_write body),
      (match_subprocess_exec body), (match_expansions_update body),
      (match_timeout_update body); simpl; rewrite ?elem_of_set_add; naive_solver.
  Qed.

Lemma classify_fold_spec items : ∀ fns f,
    let fns' := foldl classify_step fns items in
    (f ∈ expansions_write_fns fns' ↔
       f ∈ expansions_write_fns fns ∨ ∃ body, (f, body) ∈ items ∧ goes_to_write body = true) ∧
    (f ∈ subprocess_exec_fns fns' ↔
       f ∈ subprocess_exec_fns fns ∨ ∃ body, (f, body) ∈ items ∧ goes_to_exec body = true) ∧
    (f ∈ expansions_update_fns fns' ↔
       f ∈ expansions_update_fns fns ∨ ∃ body, (f, body) ∈ items ∧ goes_to_update body = true) ∧
    (f ∈ timeout_update_fns fns' ↔
       f ∈ timeout_update_fns fns ∨ ∃ body, (f, body) ∈ items ∧ goes_to_timeout body = true).
  Proof.
    induction items as [|[fname body] items IH]; intros fns f; simpl.
    - setoid_rewrite elem_of_nil. naive_solver.
    - destruct (IH (classify_step fns (fname, body)) f) as (-> & -> & -> & ->).
      destruct (classify_step_spec fns fname body f) as (-> & -> & -> & ->).
      setoid_rewrite elem_of_cons. naive_solver.
  Qed.

Lemma dict_wf_unique (d : dict) (k : string) (v1 v2 : value) :
    dict_wf d → (k, v1) ∈ d → (k, v2) ∈ d → v1 = v2.
  Proof.
    unfold dict_wf. induction d as [|[k' v'] d IH]; simpl.
    - by intros _ ?%elem_of_nil.
    - intros [Hk Hd]%NoDup_cons [?|H1]%elem_of_cons [?|H2]%elem_of_cons; simplify_eq.
      + done.
      + destruct Hk. apply list_elem_of_fmap. eexists (_, _). split; [|done]. done.
      + destruct Hk. apply list_elem_of_fmap. eexists (_, _). split; [|done]. done.
      + eauto.
  Qed.
End Classification.

Section FirstMatchFacts.
Context {helpers : Helpers} {interp : Interp}.

Lemma goes_to_exclusive body :
    ¬ (goes_to_write body = true ∧ goes_to_exec body = true) ∧
    ¬ (goes_to_write body = true ∧ goes_to_update body = true) ∧
    ¬ (goes_to_write body = true ∧ goes_to_timeout body = true) ∧
    ¬ (goes_to_exec body = true ∧ goes_to_update body = true) ∧
    ¬ (goes_to_exec body = true ∧ goes_to_timeout body = true) ∧
    ¬ (goes_to_update body = true ∧ goes_to_timeout body = true).
  Proof.
    unfold goes_to_write, goes_to_exec, goes_to_update, goes_to_timeout.
    destruct (isinstance_dict body), (match_expansions_write body),
      (match_subprocess_exec body), (match_expansions_update body),
      (match_timeout_update body); simpl; split_and!; intros [? ?]; discriminate.
  Qed.

(** C3. When [functions] is a mapping, classification succeeds; a name
    is in a set exactly when its body is a single command whose first
    matching predicate, in the order write, exec, update, timeout, is that
    set's; the four sets are pairwise disjoint; a list-form body, and a
    body matching no predicate, leave the name in no set. *)
Theorem classification_first_match (yaml functions : dict) :
    dict_get "functions" yaml = Some (VDict functions) →
    dict_wf functions →
    ∃ fns, classify yaml = Ok fns ∧
      (∀ f, f ∈ expansions_write_fns fns ↔
         ∃ body, (f, body) ∈ functions ∧ goes_to_write body = true) ∧
      (∀ f, f ∈ subprocess_exec_fns fns ↔
         ∃ body, (f, body) ∈ functions ∧ goes_to_exec body = true) ∧
      (∀ f, f ∈ expansions_update_fns fns ↔
         ∃ body, (f, body) ∈ functions ∧ goes_to_update body = true) ∧
      (∀ f, f ∈ timeout_update_fns fns ↔
         ∃ body, (f, body) ∈ functions ∧ goes_to_timeout body = true) ∧
      (∀ f, ¬ (f ∈ expansions_write_fns fns ∧ f ∈ subprocess_exec_fns fns) ∧
            ¬ (f ∈ expansions_write_fns fns ∧ f ∈ expansions_update_fns fns) ∧
            ¬ (f ∈ expansions_write_fns fns ∧ f ∈ timeout_update_fns fns) ∧
            ¬ (f ∈ subprocess_exec_fns fns ∧ f ∈ expansions_update_fns fns) ∧
            ¬ (f ∈ subprocess_exec_fns fns ∧ f ∈ timeout_update_fns fns) ∧
            ¬ (f ∈ expansions_update_fns fns ∧ f ∈ timeout_update_fns fns)) ∧
      (∀ f body, (f, body) ∈ functions → isinstance_dict body = false →
         ¬ in_some_set fns f) ∧
      (∀ f body, (f, body) ∈ functions →
         match_expansions_write body = false → match_subprocess_exec body = false →
         match_expansions_update body = false → match_timeout_update body = false →
         ¬ in_some_set fns f).
  Proof.
    intros Hf Hwf. unfold classify. rewrite Hf. simpl.
    eexists. split; [done|].
    pose proof (classify_fold_spec functions no_fns) as Hspec.
    assert (∀ f,
      (f ∈ expansions_write_fns (foldl classify_step no_fns functions) ↔
         ∃ body, (f, body) ∈ functions ∧ goes_to_write body = true) ∧
      (f ∈ subprocess_exec_fns (foldl classify_step no_fns functions) ↔
         ∃ body, (f, body) ∈ functions ∧ goes_to_exec body = true) ∧
      (f ∈ expansions_update_fns (foldl classify_step no_fns functions) ↔
         ∃ body, (f, body) ∈ functions ∧ goes_to_update body = true) ∧
      (f ∈ timeout_update_fns (foldl classify_step no_fns functions) ↔
         ∃ body, (f, body) ∈ functions ∧ goes_to_timeout body = true)) as Hchar.
    { intros f. destruct (Hspec f) as (H1 & H2 & H3 & H4). simpl in *.
      rewrite H1, H2, H3, H4. split_and!; split; try (intros [[]%elem_of_nil|?]; done);
        intros ?; by right. }
    clear Hspec.
    assert (∀ f b1 b2, (f, b1) ∈ functions → (f, b2) ∈ functions → b1 = b2) as Huniq.
    { intros f b1 b2. by apply dict_wf_unique. }
    split_and!.
    - intros f. apply Hchar.
    - intros f. apply Hchar.
    - intros f. apply Hchar.
    - intros f. apply Hchar.
    - intros f. destruct (Hchar f) as (H1 & H2 & H3 & H4).
      rewrite H1, H2, H3, H4.
      split_and!; intros [(b1 & Hb1 & Hg1) (b2 & Hb2 & Hg2)];
        rewrite (Huniq f b1 b2 Hb1 Hb2) in Hg1;
        destruct (goes_to_exclusive b2) as (? & ? & ? & ? & ? & ?); naive_solver.
    - intros f body Hb Hd. unfold in_some_set.
      destruct (Hchar f) as (H1 & H2 & H3 & H4). rewrite H1, H2, H3, H4.
      intros [(b & Hb' & Hg)|[(b & Hb' & Hg)|[(b & Hb' & Hg)|(b & Hb' & Hg)]]];
        rewrite (Huniq f b body Hb' Hb) in Hg; revert Hg;
        unfold goes_to_write, goes_to_exec, goes_to_update, goes_to_timeout;
        by rewrite Hd.
    - intros f body Hb Hw Hs Hu Ht. unfold in_some_set.
      destruct (Hchar f) as (H1 & H2 & H3 & H4). rewrite H1, H2, H3, H4.
      intros [(b & Hb' & Hg)|[(b & Hb' & Hg)|[(b & Hb' & Hg)|(b & Hb' & Hg)]]];
        rewrite (Huniq f b body Hb' Hb) in Hg; revert Hg;
        unfold goes_to_write, goes_to_exec, goes_to_update, goes_to_timeout;
        rewrite ?Hw, ?Hs, ?Hu, ?Ht; by destruct (isinstance_dict body).
  Qed.
End FirstMatchFacts.

Section WholeRule.
Context {helpers : Helpers} {interp : Interp}.

Lemma call_errors_cases fns (site : string * value * value) d :
    site.1.2 = VDict d →
    ((∃ f vars, dict_get "func" d = Some (VStr f) ∧ f ∈ subprocess_exec_fns fns ∧
        dict_get "vars" d = Some (VDict vars) ∧ vars ≠ []) →
     call_errors fns site = [_out_message_dangerous_function fns site.1.1]) ∧
    ((∀ f, dict_get "func" d = Some (VStr f) → f ∉ subprocess_exec_fns fns) →
     call_errors fns site = []) ∧
    (dict_get "vars" d = None ∨ dict_get "vars" d = Some (VDict []) →
     call_errors fns site = []).
  Proof.
    intros Hd. unfold call_errors, takes_arguments. rewrite Hd.
    unfold py_getitem, py_contains. split_and!.
    - intros (f & vars & -> & Hin & -> & Hne). res_simpl. simpl.
      rewrite bool_decide_eq_true_2 by done. res_simpl. simpl.
      rewrite bool_decide_eq_false_2 by done. done.
    - intros Hnot. destruct (dict_get "func" d) as [f|]; [|done]. res_simpl.
      destruct f as [| | |x| |]; try done. simpl.
      rewrite bool_decide_eq_false_2 by eauto. done.
    - intros Hv. destruct (dict_get "func" d) as [f|]; [|done]. res_simpl.
      destruct (py_in_set f (subprocess_exec_fns fns)) as [[|]|]; try done. res_simpl.
      destruct Hv as [->| ->]; [done|]. simpl. done.
  Qed.

Lemma unsafe_arguments_sites config (yaml : dict) :
    wf_document yaml = true →
    ∃ fns list_errs, classify yaml = Ok fns ∧
      check_command_lists fns (iterate_command_lists yaml) [] = Ok list_errs ∧
      __call__ config yaml =
        Ok (list_errs ++ mjoin (call_errors fns <$> iterate_fn_calls_context yaml)) ∧
      ∀ site d, site ∈ iterate_fn_calls_context yaml → site.1.2 = VDict d →
        ((∃ f vars, dict_get "func" d = Some (VStr f) ∧ f ∈ subprocess_exec_fns fns ∧
            dict_get "vars" d = Some (VDict vars) ∧ vars ≠ []) →
         call_errors fns site = [_out_message_dangerous_function fns site.1.1]) ∧
        ((∀ f, dict_get "func" d = Some (VStr f) → f ∉ subprocess_exec_fns fns) →
         call_errors fns site = []) ∧
        (dict_get "vars" d = None ∨ dict_get "vars" d = Some (VDict []) →
         call_errors fns site = []).
  Proof.
    intros Hwf. destruct (call_wf config yaml Hwf) as (fns & Hc & Hl & Hcall).
    exists fns, (mjoin (list_errors fns <$> iterate_command_lists yaml)).
    split_and!; [done..|]. intros site d _ Hd. by apply call_errors_cases.
  Qed.

(** C8. On a well-formed document the result is the errors of the
    command lists, list after list, followed by all call-site errors; the
    errors of one list are its violations in the order of detection (by
    index, the missing write before the update at one index), and the
    branch after the scan adds nothing to them. *)
Theorem errors_in_detection_order config (yaml : dict) :
    wf_document yaml = true →
    ∃ fns, classify yaml = Ok fns ∧
      __call__ config yaml =
        Ok (mjoin (list_errors fns <$> iterate_command_lists yaml) ++
            mjoin (call_errors fns <$> iterate_fn_calls_context yaml)) ∧
      ∀ context commands, (context, VList commands) ∈ iterate_command_lists yaml →
        _check_command_list_no_fallback fns context commands =
          Ok (list_errors fns (context, VList commands)) ∧
        _check_command_list fns context commands =
          Ok (list_errors fns (context, VList commands)) ∧
        list_errors fns (context, VList commands) =
          render_violation fns context <$> violations fns commands ∧
        StronglySorted detected_before (violations fns commands).
  Proof.
    intros Hwf. destruct (call_wf config yaml Hwf) as (fns & Hc & Hl & Hcall).
    exists fns. split_and!; [done..|]. intros context commands Hin.
    assert (forallb wf_command commands = true) as Hcmds.
    { unfold wf_document in Hwf. apply andb_prop in Hwf as [[_ Hlists]%andb_prop _].
      apply Is_true_true in Hlists. rewrite forallb_True, Forall_forall in Hlists.
      specialize (Hlists _ Hin). by apply Is_true_true in Hlists. }
    rewrite <-fallback_unreachable, check_command_list_wf by by apply forallb_wf.
    split_and!; [done..|]. apply violations_sorted.
  Qed.

(** C9. When no command satisfies both the script-execution and the
    expansions-write predicate, the checker without the branch after the
    loop returns what the full checker returns; a list of a script
    execution followed by a write yields exactly one error. *)
Theorem fallback_branch_unreachable fns context (commands : list value) :
    forallb (λ c, negb (runs_script fns c && writes_expansions fns c)) commands = true →
    _check_command_list fns context commands =
      _check_command_list_no_fallback fns context commands ∧
    (∀ s w, commands = [s; w] →
       wf_command s = true → wf_command w = true →
       runs_script fns s = true → writes_expansions fns w = true →
       updates_expansions fns s || updates_timeout fns s = false →
       updates_expansions fns w || updates_timeout fns w = false →
       _check_command_list fns context commands =
         Ok [_out_message_subprocess fns (context_with_fn (command_context context 0) s)]).
  Proof.
    intros Hsep. split; [apply fallback_unreachable|].
    intros s w -> Hs Hw Hrs Hww Hus Huw.
    rewrite check_command_list_wf by (repeat constructor; done).
    unfold violations, violations_upto. simpl.
    unfold violations_at, missing_write_at, update_at. simpl.
    rewrite Hrs, Hus, Huw. simpl. by rewrite andb_false_r.
  Qed.

(** C10. The result of the rule is the same for any two configs. *)
Theorem config_not_read (config1 config2 yaml : dict) :
    __call__ config1 yaml = __call__ config2 yaml.
  Proof. reflexivity. Qed.

(** C6. The rule on a document whose [functions] key holds [None]: the
    call of [items()] raises, and nothing catches it. *)
Theorem null_functions_raises (config : dict) (rest : dict) :
    __call__ config (("functions", VNone) :: rest) = Raise AttributeError.
  Proof. reflexivity. Qed.
End WholeRule.

(** * Further properties of the rule *)

(** ** Strings *)

Lemma append_cons (ch : ascii) (a b : string) :
  String ch a +:+ b = String ch (a +:+ b).
Proof. reflexivity. Qed.

Lemma append_nil (b : string) : "" +:+ b = b.
Proof. reflexivity. Qed.

Lemma append_assoc (a b c : string) : (a +:+ b) +:+ c = a +:+ (b +:+ c).
Proof.
  induction a as [|ch a IH]; [done|]. rewrite !append_cons. by f_equal.
Qed.

Lemma append_length (a b : string) :
  String.length (a +:+ b) = String.length a + String.length b.
Proof.
  induction a as [|ch a IH]; [done|]. rewrite append_cons. simpl. by f_equal.
Qed.

Lemma prefix_append (a b : string) : String.prefix a (a +:+ b) = true.
Proof.
  induction a as [|ch a IH]; [by destruct b|]. rewrite append_cons. simpl.
  destruct (ascii_dec ch ch); [done|congruence].
Qed.

Lemma append_empty_r (a : string) : a +:+ "" = a.
Proof. induction a as [|ch a IH]; [done|]. rewrite append_cons. by f_equal. Qed.

(** Two ways to cut one string at the same distance from its end. *)
Lemma append_inj_r (a b x y : string) :
  a +:+ x = b +:+ y → String.length x = String.length y → x = y.
Proof.
  revert b. induction a as [|ch a IH]; intros [|ch' b] Heq Hlen;
    rewrite ?append_cons, ?append_nil in Heq.
  - done.
  - apply (f_equal String.length) in Heq. simpl in Heq.
    rewrite append_length in Heq. lia.
  - apply (f_equal String.length) in Heq. simpl in Heq.
    rewrite append_length in Heq. lia.
  - injection Heq as _ Heq. eauto.
Qed.

Lemma string_of_uint_digits d : all_digits (NilEmpty.string_of_uint d) = true.
Proof. induction d; simpl; done. Qed.

Lemma str_nat_digits n : all_digits (str_nat n) = true.
Proof.
  unfold str_nat, NilZero.string_of_uint.
  destruct (Nat.to_uint n) eqn:E; try done; rewrite <-E; apply string_of_uint_digits.
Qed.

Lemma str_nat_inj n m : str_nat n = str_nat m → n = m.
Proof.
  unfold str_nat. intros Heq. apply DecimalNat.Unsigned.to_uint_inj.
  assert (∀ k, Nat.to_uint k ≠ Decimal.Nil) as Hnn.
  { intros k. rewrite <-(DecimalNat.Unsigned.of_to k), DecimalNat.Unsigned.to_of.
    apply DecimalFacts.unorm_nonnil. }
  apply (f_equal NilZero.uint_of_string) in Heq.
  rewrite !NilZero.usu in Heq by apply Hnn. by injection Heq.
Qed.

(** Digits followed by something that starts with no digit: the digits
    are determined. *)
Lemma digits_then_other (d1 d2 t1 t2 : string) :
  all_digits d1 = true → all_digits d2 = true →
  starts_without_digit t1 = true → starts_without_digit t2 = true →
  d1 +:+ t1 = d2 +:+ t2 → d1 = d2 ∧ t1 = t2.
Proof.
  revert d2. induction d1 as [|ch d1 IH]; intros [|ch' d2] H1 H2 Ht1 Ht2 Heq;
    rewrite ?append_cons, ?append_nil in Heq; simpl in *.
  - done.
  - subst t1. simpl in Ht1. apply andb_prop in H2 as [H2 _].
    by rewrite H2 in Ht1.
  - subst t2. simpl in Ht2. apply andb_prop in H1 as [H1 _].
    by rewrite H1 in Ht2.
  - injection Heq as -> Heq. apply andb_prop in H1 as [_ H1].
    apply andb_prop in H2 as [_ H2].
    destruct (IH d2 H1 H2 Ht1 Ht2 Heq) as [-> ->]. done.
Qed.

Lemma ends_with_differ (t1 t2 s1 s2 : string) :
  ends_with t1 s1 → ends_with t2 s2 →
  String.length t1 = String.length t2 → t1 ≠ t2 → s1 ≠ s2.
Proof.
  intros [p1 ->] [p2 ->] Hlen Hne Heq. by apply Hne, (append_inj_r p1 p2).
Qed.

Section Messages.
Context {interp : Interp}.
Variable fns : fn_sets.

Lemma subprocess_message_end label :
  ends_with "ec." (_out_message_subprocess fns label).
Proof.
  unfold _out_message_subprocess.
  exists (label +:+ " calls an evergreen shell script without a preceding expansions.write call. Always call expansions.write with params: file: expansions.yml; redacted: true, (or use one of these functions: "
            +:+ format_set_list (expansions_write_fns fns)
            +:+ ") before calling an evergreen shell script via subprocess.ex").
  by rewrite !append_assoc.
Qed.

Lemma dangerous_message_end label :
  ends_with "it." (_out_message_dangerous_function fns label).
Proof.
  unfold _out_message_dangerous_function.
  exists (label +:+ " cannot safely take arguments. Call expansions.write with params: file: expansions.yml; redacted: true, (or use one of these functions: "
            +:+ format_set_list (expansions_write_fns fns)
            +:+ ") in the function, or do not pass arguments to ").
  by rewrite !append_assoc.
Qed.

Lemma update_message_end label fname :
  known_update_name fname →
  ends_with "te." (_out_message_expansions_update fns label fname).
Proof.
  unfold _out_message_expansions_update. intros [-> | ->].
  - exists (label +:+ " is an " +:+ "expansions.update"
            +:+ " command that is not immediately followed by an expansions.write call. Always call expansions.write with params: file: expansions.yml; redacted: true, (or use one of these functions: "
            +:+ format_set_list (expansions_write_fns fns)
            +:+ ") after calling " +:+ "expansions.upda").
    by rewrite !append_assoc.
  - exists (label +:+ " is an " +:+ "timeout.update"
            +:+ " command that is not immediately followed by an expansions.write call. Always call expansions.write with params: file: expansions.yml; redacted: true, (or use one of these functions: "
            +:+ format_set_list (expansions_write_fns fns)
            +:+ ") after calling " +:+ "timeout.upda").
    by rewrite !append_assoc.
Qed.

(** X3. The three kinds of message never coincide, whatever the contexts
    they are built from, as long as the update is named [expansions.update]
    or [timeout.update]. *)
Theorem message_kinds_differ (l1 l2 l3 fname : string) :
  known_update_name fname →
  _out_message_subprocess fns l1 ≠ _out_message_expansions_update fns l2 fname ∧
  _out_message_subprocess fns l1 ≠ _out_message_dangerous_function fns l3 ∧
  _out_message_expansions_update fns l2 fname ≠ _out_message_dangerous_function fns l3.
Proof.
  intros Hname. split_and!.
  - eapply ends_with_differ;
      [apply subprocess_message_end|by apply update_message_end|done..].
  - eapply ends_with_differ;
      [apply subprocess_message_end|apply dangerous_message_end|done..].
  - eapply ends_with_differ;
      [by apply update_message_end|apply dangerous_message_end|done..].
Qed.
End Messages.

Section Rendering.
Context {helpers : Helpers} {interp : Interp}.
Variable fns : fn_sets.

Lemma violations_known commands v : v ∈ violations fns commands → known_violation v.
Proof.
  intros (idx & c & _ & Hv)%elem_of_violations.
  unfold violations_at, missing_write_at, update_at in Hv.
  apply elem_of_app in Hv as [Hv|Hv]; case_match; try (by apply elem_of_nil in Hv);
    apply list_elem_of_singleton in Hv as ->; [done|].
  simpl. unfold known_update_name. case_match; auto.
Qed.

(** A message carries the index of its command, followed by no digit. *)
Lemma render_violation_shape context v :
  ∃ tail, render_violation fns context v =
            context +:+ ", command " +:+ str_nat (violation_idx v) +:+ tail ∧
          starts_without_digit tail = true.
Proof.
  destruct v as [idx c|fname idx c]; simpl;
    unfold _out_message_subprocess, _out_message_expansions_update,
      context_with_fn, command_context;
    destruct c as [| | | | |d]; try destruct (dict_get "func" d);
    eexists; rewrite !append_assoc; (split; [reflexivity|reflexivity]).
Qed.

Lemma render_violation_idx context v1 v2 :
  render_violation fns context v1 = render_violation fns context v2 →
  violation_idx v1 = violation_idx v2.
Proof.
  destruct (render_violation_shape context v1) as (t1 & -> & Ht1).
  destruct (render_violation_shape context v2) as (t2 & -> & Ht2).
  intros Heq%append_inj_l%append_inj_l.
  apply digits_then_other in Heq as [Heq _]; auto using str_nat_digits.
  by apply str_nat_inj.
Qed.

Lemma render_violation_kind context v1 v2 :
  known_violation v1 → known_violation v2 →
  render_violation fns context v1 = render_violation fns context v2 →
  is_missing_write v1 = is_missing_write v2.
Proof.
  destruct v1 as [i1 c1|f1 i1 c1], v2 as [i2 c2|f2 i2 c2]; simpl; try done;
    intros H1 H2 Heq; exfalso.
  - eapply (ends_with_differ "ec." "te."); [apply subprocess_message_end
      |by apply update_message_end|done|done|exact Heq].
  - symmetry in Heq.
    eapply (ends_with_differ "ec." "te."); [apply subprocess_message_end
      |by apply update_message_end|done|done|exact Heq].
Qed.

Lemma render_detected_before context v1 v2 :
  known_violation v1 → known_violation v2 → detected_before v1 v2 →
  render_violation fns context v1 ≠ render_violation fns context v2.
Proof.
  intros H1 H2 [Hlt|(Heq & Hm & Hu)] Hr.
  - apply render_violation_idx in Hr. lia.
  - apply render_violation_kind in Hr; [|done..].
    destruct v1, v2; simpl in *; congruence.
Qed.

Lemma render_sorted_NoDup context (vs : list violation) :
  Forall known_violation vs → StronglySorted detected_before vs →
  NoDup (render_violation fns context <$> vs).
Proof.
  induction vs as [|v vs IH]; intros Hk Hs; simpl; [constructor|].
  apply Forall_cons in Hk as [Hv Hk]. apply StronglySorted_inv in Hs as [Hs Hall].
  constructor; [|by apply IH].
  intros (v' & Heq & Hin)%list_elem_of_fmap.
  rewrite Forall_forall in Hall, Hk.
  exact (render_detected_before context v v' Hv (Hk v' Hin) (Hall v' Hin) Heq).
Qed.

(** X2. The errors of one list of well-formed commands are pairwise
    different messages. *)
Theorem no_error_twice context (commands : list value) :
  forallb wf_command commands = true →
  ∃ errs, _check_command_list fns context commands = Ok errs ∧ NoDup errs.
Proof.
  intros Hwf%forallb_wf. eexists. split; [by apply check_command_list_wf|].
  apply render_sorted_NoDup; [|apply violations_sorted].
  apply Forall_forall. intros v. apply violations_known.
Qed.
End Rendering.

(** * The errors as they are printed *)

Section ReportedErrors.
Context {helpers : Helpers} {interp : Interp}.
Variable fns : fn_sets.

Lemma missing_write_text context idx c :
  render_violation fns context (MissingWrite idx c) =
    context_with_fn (context +:+ ", command " +:+ str_nat idx) c
      +:+ " calls an evergreen shell script without a preceding expansions.write call. Always call expansions.write with params: file: expansions.yml; redacted: true, (or use one of these functions: "
      +:+ format_set_list (expansions_write_fns fns)
      +:+ ") before calling an evergreen shell script via subprocess.exec.".
Proof. reflexivity. Qed.

Lemma update_text context fname idx c :
  render_violation fns context (UpdateNotFollowed fname idx c) =
    context_with_fn (context +:+ ", command " +:+ str_nat idx) c
      +:+ " is an " +:+ fname
      +:+ " command that is not immediately followed by an expansions.write call. Always call expansions.write with params: file: expansions.yml; redacted: true, (or use one of these functions: "
      +:+ format_set_list (expansions_write_fns fns)
      +:+ ") after calling " +:+ fname +:+ ".".
Proof. reflexivity. Qed.

Lemma list_error_known (lists : list (string * value)) e :
  e ∈ mjoin (list_errors fns <$> lists) →
  ∃ context v, known_violation v ∧ e = render_violation fns context v.
Proof.
  intros (errs & He & (entry & -> & _)%list_elem_of_fmap)%list_elem_of_join.
  unfold list_errors in He. destruct entry.2 as [| | | |commands|]; try by apply elem_of_nil in He.
  apply list_elem_of_fmap in He as (v & -> & Hv%violations_known).
  by exists entry.1, v.
Qed.

Lemma dangerous_is_no_list_error context v label :
  known_violation v →
  render_violation fns context v ≠ _out_message_dangerous_function fns label.
Proof.
  intros Hv. destruct v as [idx c|fname idx c]; simpl.
  - eapply (ends_with_differ "ec." "it."); [apply subprocess_message_end
      |apply dangerous_message_end|done|done].
  - eapply (ends_with_differ "te." "it."); [by apply update_message_end
      |apply dangerous_message_end|done|done].
Qed.

(** C1. For a list of well-formed commands the checker returns the
    rendering of [violations]; that list holds at most one missing-write
    violation, such a violation names the first script-execution step, and
    there is one exactly when some script-execution step has no
    expansions-write step at an earlier index.  The error of a
    missing-write violation is the label of its step, made of the context
    of the list, the index of the step and the function it calls,
    followed by the words of the missing-write message; no other
    violation of the list gives such an error. *)
Theorem missing_write_reported_iff context (commands : list value) :
  forallb wf_command commands = true →
  _check_command_list fns context commands =
    Ok (render_violation fns context <$> violations fns commands) ∧
  length (filter (λ v, is_missing_write v = true) (violations fns commands)) ≤ 1 ∧
  (∀ idx c, MissingWrite idx c ∈ violations fns commands →
     commands !! idx = Some c ∧ script_execution_step fns c ∧
     ∀ j c', j < idx → commands !! j = Some c' → ¬ script_execution_step fns c') ∧
  ((∃ idx c, MissingWrite idx c ∈ violations fns commands) ↔
   ∃ i c, commands !! i = Some c ∧ script_execution_step fns c ∧
     ∀ j c', j < i → commands !! j = Some c' → ¬ expansions_write_step fns c') ∧
  (∀ idx c,
     render_violation fns context (MissingWrite idx c) =
       context_with_fn (context +:+ ", command " +:+ str_nat idx) c
         +:+ " calls an evergreen shell script without a preceding expansions.write call. Always call expansions.write with params: file: expansions.yml; redacted: true, (or use one of these functions: "
         +:+ format_set_list (expansions_write_fns fns)
         +:+ ") before calling an evergreen shell script via subprocess.exec.") ∧
  (∀ v idx c, v ∈ violations fns commands → is_missing_write v = false →
     render_violation fns context v ≠ render_violation fns context (MissingWrite idx c)).
Proof.
  intros Hwf.
  destruct (missing_write_violations fns context commands Hwf) as (Hout & Hone & Hfirst & Hiff).
  split_and!; [done..|apply missing_write_text|].
  intros v idx c Hv%violations_known Hm Heq.
  apply render_violation_kind in Heq; [|done..]. simpl in Heq. congruence.
Qed.

(** C2. For every index holding an expansions-update or timeout-update
    step, the violations tagged to that index are none when the next step
    is an expansions-write step, and exactly one when the next index is out
    of range or holds another step: named after [expansions.update] when
    the step is an expansions update, after [timeout.update] otherwise; the
    two messages differ.  The error of such a violation is the label of
    its step, made of the context of the list, the index of the step and
    the function it calls, followed by the words of the update message
    with the name of the command; the errors of the list are pairwise
    different strings, so that every violation has an error of its own. *)
Theorem update_not_followed_by_write context (commands : list value) :
  forallb wf_command commands = true →
  _check_command_list fns context commands =
    Ok (render_violation fns context <$> violations fns commands) ∧
  (∀ idx c, commands !! idx = Some c →
     expansions_update_step fns c ∨ timeout_update_step fns c →
     ((∃ next, commands !! S idx = Some next ∧ expansions_write_step fns next) →
      filter (update_violation_at idx) (violations fns commands) = []) ∧
     (commands !! S idx = None ∨
      (∃ next, commands !! S idx = Some next ∧ ¬ expansions_write_step fns next) →
      (expansions_update_step fns c →
       filter (update_violation_at idx) (violations fns commands) =
         [UpdateNotFollowed "expansions.update" idx c]) ∧
      (¬ expansions_update_step fns c →
       filter (update_violation_at idx) (violations fns commands) =
         [UpdateNotFollowed "timeout.update" idx c]))) ∧
  (∀ label,
     _out_message_expansions_update fns label "expansions.update" ≠
     _out_message_expansions_update fns label "timeout.update") ∧
  (∀ fname idx c,
     render_violation fns context (UpdateNotFollowed fname idx c) =
       context_with_fn (context +:+ ", command " +:+ str_nat idx) c
         +:+ " is an " +:+ fname
         +:+ " command that is not immediately followed by an expansions.write call. Always call expansions.write with params: file: expansions.yml; redacted: true, (or use one of these functions: "
         +:+ format_set_list (expansions_write_fns fns)
         +:+ ") after calling " +:+ fname +:+ ".") ∧
  NoDup (render_violation fns context <$> violations fns commands).
Proof.
  intros Hwf.
  destruct (update_violations fns context commands Hwf) as (Hout & Hupd & Hdiff).
  split_and!; [done..|apply update_text|].
  apply render_sorted_NoDup; [|apply violations_sorted].
  apply Forall_forall. intros v. apply violations_known.
Qed.
End ReportedErrors.

Section ReportedCalls.
Context {helpers : Helpers} {interp : Interp}.

(** C4. On a well-formed document the rule returns the errors of the
    command lists followed by the errors of the call sites; a call site
    yields exactly one "cannot safely take arguments" error when its
    function is in [subprocess_exec_fns] and it has a non-empty [vars]
    mapping, and none when the function is not in the set or [vars] is
    absent or empty, whatever the command lists yield.  The error is the
    label of the call site followed by the words of the message, and no
    error of a command list is such a string. *)
Theorem unsafe_arguments_reported config (yaml : dict) :
  wf_document yaml = true →
  ∃ fns list_errs, classify yaml = Ok fns ∧
    check_command_lists fns (iterate_command_lists yaml) [] = Ok list_errs ∧
    __call__ config yaml =
      Ok (list_errs ++ mjoin (call_errors fns <$> iterate_fn_calls_context yaml)) ∧
    (∀ site d, site ∈ iterate_fn_calls_context yaml → site.1.2 = VDict d →
      ((∃ f vars, dict_get "func" d = Some (VStr f) ∧ f ∈ subprocess_exec_fns fns ∧
          dict_get "vars" d = Some (VDict vars) ∧ vars ≠ []) →
       call_errors fns site =
         [site.1.1
            +:+ " cannot safely take arguments. Call expansions.write with params: file: expansions.yml; redacted: true, (or use one of these functions: "
            +:+ format_set_list (expansions_write_fns fns)
            +:+ ") in the function, or do not pass arguments to it."]) ∧
      ((∀ f, dict_get "func" d = Some (VStr f) → f ∉ subprocess_exec_fns fns) →
       call_errors fns site = []) ∧
      (dict_get "vars" d = None ∨ dict_get "vars" d = Some (VDict []) →
       call_errors fns site = [])) ∧
    (∀ e label, e ∈ list_errs →
       e ≠ label
             +:+ " cannot safely take arguments. Call expansions.write with params: file: expansions.yml; redacted: true, (or use one of these functions: "
             +:+ format_set_list (expansions_write_fns fns)
             +:+ ") in the function, or do not pass arguments to it.").
Proof.
  intros Hwf.
  destruct (unsafe_arguments_sites config yaml Hwf) as (fns & list_errs & Hc & Hl & Hcall & Hsites).
  exists fns, list_errs. split_and!; [done..| |].
  - intros site d Hin Hd. destruct (Hsites site d Hin Hd) as (H1 & H2 & H3).
    split_and!; [|done..]. intros Hargs. by rewrite (H1 Hargs).
  - intros e label He.
    assert (list_errs = mjoin (list_errors fns <$> iterate_command_lists yaml)) as ->.
    { unfold wf_document in Hwf. apply andb_prop in Hwf as [[_ Hlists]%andb_prop _].
      rewrite (check_command_lists_wf fns) in Hl by done. by injection Hl as <-. }
    apply list_error_known in He as (context & v & Hv & ->).
    by apply dangerous_is_no_list_error.
Qed.
End ReportedCalls.

Section CleanLists.
Context {helpers : Helpers} {interp : Interp}.
Variable fns : fn_sets.

Lemma update_elem_of (commands : list value) fname idx c :
  UpdateNotFollowed fname idx c ∈ violations fns commands ↔
  commands !! idx = Some c ∧
  updates_expansions fns c || updates_timeout fns c = true ∧
  followed_by_write fns commands idx = false ∧
  fname = (if updates_expansions fns c then "expansions.update" else "timeout.update").
Proof.
  rewrite elem_of_violations. unfold violations_at, missing_write_at, update_at. split.
  - intros (i & c' & Hc & Hv). apply elem_of_app in Hv as [Hv|Hv].
    + case_match; [|by apply elem_of_nil in Hv].
      by apply list_elem_of_singleton in Hv.
    + destruct (updates_expansions fns c' || updates_timeout fns c') eqn:Hu,
        (followed_by_write fns commands i) eqn:Hf; simpl in Hv;
        try by apply elem_of_nil in Hv.
      apply list_elem_of_singleton in Hv. by simplify_eq.
  - intros (Hc & Hu & Hf & ->). exists idx, c. split; [done|].
    rewrite Hu, Hf. simpl. apply elem_of_app. right. constructor.
Qed.

Lemma forallb_false_lookup {A} (f : A → bool) (l : list A) :
  forallb f l = false → ∃ j x, l !! j = Some x ∧ f x = false.
Proof.
  induction l as [|y l IH]; simpl; [done|].
  destruct (f y) eqn:Hy; simpl.
  - intros (j & x & Hj & Hx)%IH. by exists (S j), x.
  - intros _. by exists 0, y.
Qed.

Lemma violations_nil_iff (commands : list value) :
  violations fns commands = [] ↔
  (∀ i c, commands !! i = Some c → script_execution_step fns c →
     ∃ j w, j < i ∧ commands !! j = Some w ∧ expansions_write_step fns w) ∧
  (∀ i c, commands !! i = Some c →
     expansions_update_step fns c ∨ timeout_update_step fns c →
     ∃ next, commands !! S i = Some next ∧ expansions_write_step fns next).
Proof.
  split.
  - intros Hnil. split.
    + intros i c Hc Hr%runs_script_iff.
      destruct (first_script_execution fns commands i c Hc Hr)
        as (s & cs & Hs & Hcs & Hrs & Hfirst).
      destruct (clean_prefix fns (take s commands)) eqn:Hclean.
      { assert (MissingWrite s cs ∈ violations fns commands) as Hin
          by by apply missing_write_elem_of.
        rewrite Hnil in Hin. by apply elem_of_nil in Hin. }
      apply forallb_false_lookup in Hclean as (j & w & Hj & Hw).
      apply lookup_take_Some in Hj as [Hj Hlt].
      exists j, w. split_and!; [lia|done|]. apply writes_expansions_iff.
      rewrite (Hfirst j w Hlt Hj) in Hw. simpl in Hw.
      by destruct (writes_expansions fns w).
    + intros i c Hc Hu.
      assert (updates_expansions fns c || updates_timeout fns c = true) as Hub.
      { apply orb_true_iff.
        destruct Hu; [left; by apply updates_expansions_iff
                     |right; by apply updates_timeout_iff]. }
      destruct (followed_by_write fns commands i) eqn:Hf.
      * unfold followed_by_write in Hf.
        destruct (commands !! S i) as [next|]; [|done].
        exists next. split; [done|]. by apply writes_expansions_iff.
      * assert (UpdateNotFollowed
                  (if updates_expansions fns c then "expansions.update"
                   else "timeout.update") i c ∈ violations fns commands) as Hin
          by by apply update_elem_of.
        rewrite Hnil in Hin. by apply elem_of_nil in Hin.
  - intros [Hexec Hupd].
    destruct (violations fns commands) as [|v vs] eqn:Hv; [done|]. exfalso.
    assert (v ∈ violations fns commands) as Hin by (rewrite Hv; constructor).
    destruct v as [idx c|fname idx c].
    + apply missing_write_elem_of in Hin as (Hc & Hr%runs_script_iff & Hclean).
      destruct (Hexec idx c Hc Hr) as (j & w & Hj & Hw & Hww%writes_expansions_iff).
      rewrite clean_prefix_take in Hclean. destruct (Hclean j w Hj Hw). congruence.
    + apply update_elem_of in Hin as (Hc & Hu & Hf & _).
      apply orb_true_iff in Hu.
      destruct (Hupd idx c Hc) as (next & Hn & Hw%writes_expansions_iff).
      { destruct Hu; [left; by apply updates_expansions_iff
                     |right; by apply updates_timeout_iff]. }
      unfold followed_by_write in Hf. rewrite Hn in Hf. congruence.
Qed.

(** X1. A list of well-formed commands is checked without an error exactly
    when every script-execution step has an expansions-write step somewhere
    before it and every update step is immediately followed by an
    expansions-write step. *)
Theorem no_errors_iff context (commands : list value) :
  forallb wf_command commands = true →
  (_check_command_list fns context commands = Ok [] ↔
   (∀ i c, commands !! i = Some c → script_execution_step fns c →
      ∃ j w, j < i ∧ commands !! j = Some w ∧ expansions_write_step fns w) ∧
   (∀ i c, commands !! i = Some c →
      expansions_update_step fns c ∨ timeout_update_step fns c →
      ∃ next, commands !! S i = Some next ∧ expansions_write_step fns next)).
Proof.
  intros Hwf%forallb_wf. rewrite check_command_list_wf by done.
  rewrite <-violations_nil_iff. split.
  - intros [= Hnil]. by apply fmap_nil_inv in Hnil.
  - by intros ->.
Qed.
End CleanLists.

Section Bounds.
Context {helpers : Helpers} {interp : Interp}.
Variable fns : fn_sets.

(** X4. Every error of a list of well-formed commands starts with the
    context of the list and the index of a command of that list. *)
Theorem errors_name_their_command context (commands : list value) :
  forallb wf_command commands = true →
  ∃ errs, _check_command_list fns context commands = Ok errs ∧
    ∀ e, e ∈ errs →
      ∃ idx, idx < length commands ∧
             String.prefix (command_context context idx) e = true.
Proof.
  intros Hwf%forallb_wf. eexists. split; [by apply check_command_list_wf|].
  intros e (v & -> & Hv)%list_elem_of_fmap. exists (violation_idx v). split.
  - by apply (violations_upto_idx fns commands commands).
  - destruct (render_violation_shape fns context v) as (tail & -> & _).
    unfold command_context. rewrite <-!append_assoc. apply prefix_append.
Qed.

Lemma violations_upto_length commands pre : ∀ rest,
  commands = pre ++ rest →
  length (violations_upto fns commands pre) ≤
    update_step_count fns pre + (if clean_prefix fns pre then 0 else 1).
Proof.
  induction pre as [|c pre IH] using rev_ind; intros rest Hcmds; [simpl; lia|].
  rewrite <-(assoc_L (++)) in Hcmds. simpl in Hcmds.
  specialize (IH _ Hcmds).
  rewrite (violations_upto_snoc fns _ _ _ rest), clean_prefix_snoc by done.
  unfold update_step_count in *. rewrite filter_app, !length_app.
  unfold update_at. rewrite filter_cons, filter_nil.
  destruct (clean_prefix fns pre), (runs_script fns c), (writes_expansions fns c),
    (updates_expansions fns c || updates_timeout fns c),
    (followed_by_write fns commands (length pre)); simpl in *;
    repeat case_decide; simpl; try done; lia.
Qed.

(** X5. A list of well-formed commands gets at most one error for each
    update step, and one more for the missing write. *)
Theorem error_count_bound context (commands : list value) :
  forallb wf_command commands = true →
  ∃ errs, _check_command_list fns context commands = Ok errs ∧
    length errs ≤ update_step_count fns commands + 1.
Proof.
  intros Hwf%forallb_wf. eexists. split; [by apply check_command_list_wf|].
  rewrite length_fmap.
  pose proof (violations_upto_length commands commands [] (eq_sym (app_nil_r _))) as Hle.
  unfold violations. destruct (clean_prefix fns commands); lia.
Qed.
End Bounds.

(** ** Which exceptions a scan can raise *)

Lemma raises_only_bind {A B} (allowed : exn → Prop) (m : res A) (f : A → res B) :
  raises_only allowed m → (∀ a, raises_only allowed (f a)) →
  raises_only allowed (m ≫= f).
Proof. destruct m; simpl; auto. Qed.

Section Exceptions.
Context {helpers : Helpers} {interp : Interp}.
Variable fns : fn_sets.

Lemma func_in_type_error c s : raises_only (.= TypeError) (func_in c s).
Proof.
  unfold func_in. destruct c as [| | |x|l|d]; simpl; try done.
  - destruct (is_substring "func" x); simpl; done.
  - destruct (existsb (is_str "func") l); simpl; done.
  - destruct (dict_get "func" d) as [f|] eqn:E; simpl; [|done].
    destruct f; simpl; done.
Qed.

Lemma func_in_fails c s :
  func_probe_fails c = true → func_in c s = Raise TypeError.
Proof.
  unfold func_in. destruct c as [| | |x|l|d]; simpl; try done.
  - by intros ->.
  - by intros ->.
  - destruct (dict_get "func" d) as [f|] eqn:E; simpl; [|done].
    destruct f; simpl; done.
Qed.

Lemma context_add_fn_type_error context c :
  raises_only (.= TypeError) (_context_add_fn context c).
Proof.
  unfold _context_add_fn. destruct c as [c|]; [|done].
  destruct (py_truthy c); [|done].
  destruct c as [| | |x|l|d]; simpl; try done.
  - destruct (is_substring "func" x); simpl; done.
  - destruct (existsb (is_str "func") l); simpl; done.
  - destruct (dict_get "func" d) as [f|] eqn:E; simpl; done.
Qed.

End Exceptions.

Section WholeRuleFacts.
Context {helpers : Helpers} {interp : Interp}.



(** X9. A command list that is a single command (a mapping) is passed
    over: the result is that of the lists without it. *)
Theorem dict_command_list_skipped fns pre context d post out :
  check_command_lists fns (pre ++ (context, VDict d) :: post) out =
  check_command_lists fns (pre ++ post) out.
Proof.
  revert out. induction pre as [|[context' commands] pre IH]; intros out; simpl; [done|].
  case_match; [apply IH|].
  destruct (py_sequence commands) as [cmds|e]; simpl; [|done].
  destruct (_check_command_list fns context' cmds) as [errs|e]; simpl; [|done].
  apply IH.
Qed.

(** X10. The lists are checked one after the other: the errors of a first
    group of lists are appended to those found so far, and a raise in the
    first group stops the rest. *)
Theorem check_command_lists_app fns lists1 lists2 out :
  check_command_lists fns (lists1 ++ lists2) out =
  (errs ← check_command_lists fns lists1 []; check_command_lists fns lists2 (out ++ errs)).
Proof.
  assert (∀ acc, check_command_lists fns (lists1 ++ lists2) (out ++ acc) =
    (errs ← check_command_lists fns lists1 acc;
     check_command_lists fns lists2 (out ++ errs))) as Hgen.
  { induction lists1 as [|[context commands] lists1 IH]; intros acc; simpl; [done|].
    case_match; [apply IH|].
    destruct (py_sequence commands) as [cmds|e]; simpl; [|done].
    destruct (_check_command_list fns context cmds) as [errs|e]; simpl; [|done].
    rewrite <-(assoc_L (++)). apply IH. }
  specialize (Hgen []). by rewrite app_nil_r in Hgen.
Qed.
End WholeRuleFacts.

Section ClassificationOrder.
Context {helpers : Helpers}.

(** X11. The four sets of function names hold the same names when the
    entries of [functions] come in another order. *)
Theorem classification_order_irrelevant (yaml1 yaml2 functions1 functions2 : dict) :
  dict_get "functions" yaml1 = Some (VDict functions1) →
  dict_get "functions" yaml2 = Some (VDict functions2) →
  functions1 ≡ₚ functions2 →
  ∃ fns1 fns2, classify yaml1 = Ok fns1 ∧ classify yaml2 = Ok fns2 ∧
    ∀ f, (f ∈ expansions_write_fns fns1 ↔ f ∈ expansions_write_fns fns2) ∧
         (f ∈ subprocess_exec_fns fns1 ↔ f ∈ subprocess_exec_fns fns2) ∧
         (f ∈ expansions_update_fns fns1 ↔ f ∈ expansions_update_fns fns2) ∧
         (f ∈ timeout_update_fns fns1 ↔ f ∈ timeout_update_fns fns2).
Proof.
  intros H1 H2 Hperm. unfold classify. rewrite H1, H2. simpl.
  eexists _, _. split_and!; [done..|]. intros f.
  destruct (classify_fold_spec functions1 no_fns f) as (-> & -> & -> & ->).
  destruct (classify_fold_spec functions2 no_fns f) as (-> & -> & -> & ->).
  split_and!; by setoid_rewrite Hperm.
Qed.
End ClassificationOrder.

(** * Facts about the configuration file and the command line *)

Lemma dict_get_set_eq k v (d : dict) : dict_get k (dict_set k v d) = Some v.
Proof.
  induction d as [|[k' v'] d IH]; simpl.
  - by rewrite String.eqb_refl.
  - destruct (String.eqb k k') eqn:E; simpl; [by rewrite String.eqb_refl|by rewrite E].
Qed.

Lemma dict_get_set_ne k k' v (d : dict) :
  k ≠ k' → dict_get k' (dict_set k v d) = dict_get k' d.
Proof.
  intros Hne.
  assert (String.eqb k' k = false) as Hf by (apply String.eqb_neq; congruence).
  induction d as [|[k0 v0] d IH]; simpl.
  - by rewrite Hf.
  - destruct (String.eqb k k0) eqn:E; simpl.
    + apply String.eqb_eq in E as <-. by rewrite Hf.
    + by rewrite IH.
Qed.

Lemma dict_get_Some_elem k v (d : dict) : dict_get k d = Some v → (k, v) ∈ d.
Proof.
  induction d as [|[k' v'] d IH]; simpl; [done|].
  destruct (String.eqb k k') eqn:E.
  - apply String.eqb_eq in E as <-. intros [= ->]. constructor.
  - intros Hd. apply elem_of_cons. right. auto.
Qed.

Lemma dict_get_is_Some k (d : dict) : is_Some (dict_get k d) ↔ k ∈ d.*1.
Proof.
  induction d as [|[k' v'] d IH]; simpl.
  - split; [by intros [? ?]|by intros ?%elem_of_nil].
  - destruct (String.eqb k k') eqn:E.
    + apply String.eqb_eq in E as <-. split; [intros _; constructor|eauto].
    + rewrite IH, elem_of_cons. apply String.eqb_neq in E. naive_solver.
Qed.

Lemma rule_defaults_names n (table : list (string * dict)) :
  is_Some (rule_defaults n table) ↔ n ∈ table.*1.
Proof.
  induction table as [|[n' d'] table IH]; simpl.
  - split; [by intros [? ?]|by intros ?%elem_of_nil].
  - destruct (String.eqb n n') eqn:E.
    + apply String.eqb_eq in E as <-. split; [intros _; constructor|eauto].
    + rewrite IH, elem_of_cons. apply String.eqb_neq in E. naive_solver.
Qed.

Ltac cfg_simpl :=
  cbn [mbind outcome_bind mret outcome_ret lift py_contains py_getitem py_in_set negb].

Section ConfigFacts.
Context {env : ConfigEnv}.

Lemma resolve_files_strings path names : ∀ i,
  resolve_files path i (VStr <$> names) =
  Done ((λ f, VStr (abspath_join path f)) <$> names).
Proof.
  induction names as [|f names IH]; intros i; simpl; [done|]. by rewrite IH.
Qed.

Lemma resolve_files_Done path files : ∀ i files',
  resolve_files path i files = Done files' →
  ∃ names, files = VStr <$> names ∧ files' = (λ f, VStr (abspath_join path f)) <$> names.
Proof.
  induction files as [|file files IH]; intros i files'; simpl.
  - intros [= <-]. by exists [].
  - destruct file as [| | |f| |]; try done.
    destruct (resolve_files path (S i) files) as [rest|e] eqn:E; simpl; [|done].
    apply IH in E as (names & -> & ->). intros [= <-]. by exists (f :: names).
Qed.

Lemma validate_rule_Done i rule : validate_rule i rule = Done () ↔ rule_entry_ok rule.
Proof.
  unfold validate_rule, rule_entry_ok. split.
  - destruct rule as [| | |x|l|d]; cfg_simpl; try done.
    + destruct (is_substring "rule" x); cfg_simpl; done.
    + destruct (existsb (is_str "rule") l); cfg_simpl; done.
    + destruct (dict_get "rule" d) as [name|] eqn:Hn; cfg_simpl;
        [|by rewrite bool_decide_eq_false_2 by by intros [? ?]].
      rewrite bool_decide_eq_true_2 by eauto. cfg_simpl.
      destruct name as [| | |n| |]; cfg_simpl; try done.
      case_bool_decide as Hin; cfg_simpl; [|done].
      apply (proj2 (rule_defaults_names n RULES_defaults)) in Hin as [defaults Hd].
      rewrite Hd. change (default [] (Some defaults)) with defaults.
      case_bool_decide as Hu; [|done]. intros _.
      exists d, n, defaults. split_and!; [done..|].
      intros k Hk. destruct (decide (k = "rule")) as [|Hne]; [by left|right].
      destruct (decide (k ∈ defaults.*1)) as [|Hnot]; [done|]. exfalso.
      assert (k ∈ filter (λ k, k ∉ defaults.*1) (filter (λ k, k ≠ "rule") d.*1)) as Hbad
        by by rewrite !list_elem_of_filter.
      rewrite Hu in Hbad. by apply elem_of_nil in Hbad.
  - intros (d & n & defaults & -> & Hn & Hd & Hkeys). cfg_simpl. rewrite Hn.
    rewrite bool_decide_eq_true_2 by eauto. cfg_simpl.
    rewrite bool_decide_eq_true_2
      by (apply (proj1 (rule_defaults_names n RULES_defaults)); eauto).
    cfg_simpl. rewrite Hd. change (default [] (Some defaults)) with defaults.
    rewrite bool_decide_eq_true_2; [done|].
    apply filter_none. intros k [Hne Hk]%list_elem_of_filter Hnot.
    destruct (Hkeys k Hk); done.
Qed.

Lemma validate_rules_Done rules : ∀ i,
  validate_rules i rules = Done () ↔ Forall rule_entry_ok rules.
Proof.
  induction rules as [|rule rules IH]; intros i; simpl.
  - split; [constructor|done].
  - rewrite Forall_cons, <-(validate_rule_Done i), <-(IH (S i)).
    destruct (validate_rule i rule) as [[]|e]; cfg_simpl; naive_solver.
Qed.
End ConfigFacts.

Lemma dict_set_set k v1 v2 (d : dict) : dict_set k v2 (dict_set k v1 d) = dict_set k v2 d.
Proof.
  induction d as [|[k' v'] d IH]; simpl.
  - by rewrite String.eqb_refl.
  - destruct (String.eqb k k') eqn:E; simpl; [by rewrite String.eqb_refl|].
    by rewrite E, IH.
Qed.

Lemma help_url_set (conf : dict) :
  ∃ url, dict_get "help_url" (set_default_help_url conf) = Some url ∧
         py_truthy url = true ∧
         (∀ old, dict_get "help_url" conf = Some old → py_truthy old = true → url = old).
Proof.
  unfold set_default_help_url.
  destruct (dict_get "help_url" conf) as [old|] eqn:E.
  - destruct (py_truthy old) eqn:Ht.
    + exists old. rewrite E. split_and!; [done..|]. by intros ? [= ->].
    + exists (VStr DEFAULT_HELP_URL). rewrite dict_get_set_eq.
      split_and!; [done..|]. intros ? [= ->]. congruence.
  - exists (VStr DEFAULT_HELP_URL). rewrite dict_get_set_eq. done.
Qed.

Lemma help_url_other k (conf : dict) :
  k ≠ "help_url" → dict_get k (set_default_help_url conf) = dict_get k conf.
Proof.
  intros Hk. unfold set_default_help_url.
  repeat case_match; try done; by rewrite dict_get_set_ne.
Qed.

Lemma help_url_idem (conf : dict) :
  set_default_help_url (set_default_help_url conf) = set_default_help_url conf.
Proof.
  destruct (help_url_set conf) as (url & Hu & Ht & _).
  unfold set_default_help_url at 1. by rewrite Hu, Ht.
Qed.

Section LoadFacts.
Context {env : ConfigEnv}.

Lemma validate_rules_not_strings i (items : list string) :
  items ≠ [] → validate_rules i (VStr <$> items) ≠ Done ().
Proof.
  destruct items as [|x items]; [done|]. intros _ Hd.
  apply validate_rules_Done in Hd. apply Forall_cons in Hd as [(d & ? & ? & ? & _) _].
  done.
Qed.

Lemma load_Done_iff (rawconf : value) (path : string) (cfg : value) :
  load rawconf path = Done cfg ↔
  ∃ conf names rules, rawconf = VDict conf ∧
    dict_get "files" conf = Some (VList (VStr <$> names)) ∧ names ≠ [] ∧
    dict_get "rules" conf = Some (VList rules) ∧ rules ≠ [] ∧
    Forall rule_entry_ok rules ∧
    cfg = VDict (set_default_help_url
                   (dict_set "files"
                      (VList ((λ f, VStr (abspath_join path f)) <$> names)) conf)).
Proof.
  unfold load. split.
  - destruct (_validate path rawconf) as [cfg'|[msg|e]] eqn:Hv; try done.
    intros [= ->]. unfold _validate in Hv.
    destruct rawconf as [| | | | |conf]; try done.
    destruct (dict_get "files" conf) as [files|] eqn:Hf; [|done].
    destruct (py_truthy files) eqn:Hft; [|done].
    destruct files as [| | | |l|]; try done. cbn [validate_files] in Hv.
    destruct (resolve_files path 0 l) as [l'|e] eqn:Hr; [|done].
    apply resolve_files_Done in Hr as (names & -> & ->). cfg_simpl.
    cbn [mbind outcome_bind] in Hv.
    rewrite help_url_other, dict_get_set_ne in Hv by done.
    destruct (dict_get "rules" conf) as [rules|] eqn:Hrules; [|done].
    destruct (py_truthy rules) eqn:Hrt; [|done].
    destruct rules as [| | |x|rl|d]; try done; cbn [py_sequence lift] in Hv;
      cbn [mbind outcome_bind] in Hv.
    + exfalso. destruct (validate_rules 0 _) as [[]|] eqn:Hvr; [|done].
      eapply (validate_rules_not_strings 0
                ((λ c, String c "") <$> String.list_ascii_of_string x));
        [|by rewrite <-list_fmap_compose].
      by destruct x.
    + destruct (validate_rules 0 rl) as [[]|] eqn:Hvr; [|done].
      injection Hv as <-. apply validate_rules_Done in Hvr.
      exists conf, names, rl. split_and!; try done.
      * intros ->. done.
      * intros ->. done.
    + exfalso. destruct (validate_rules 0 _) as [[]|] eqn:Hvr; [|done].
      eapply (validate_rules_not_strings 0 d.*1); [|done].
      by destruct d.
  - intros (conf & names & rules & -> & Hf & Hn & Hr & Hrn & Hok & ->).
    unfold _validate. rewrite Hf.
    assert (py_truthy (VList (VStr <$> names)) = true) as ->.
    { destruct names; [done|]. done. }
    cbn [validate_files]. rewrite resolve_files_strings. cbn [mbind outcome_bind].
    rewrite help_url_other, dict_get_set_ne by done. rewrite Hr.
    assert (py_truthy (VList rules) = true) as ->.
    { destruct rules; [done|]. done. }
    cbn [py_sequence lift mbind outcome_bind].
    apply (proj2 (validate_rules_Done rules 0)) in Hok. rewrite Hok. done.
Qed.

(** X12. [load] returns a config exactly when the stream holds a mapping
    with a non-empty list of strings under [files] and a non-empty list
    of valid rule entries under [rules]; the config is the mapping read,
    with the files resolved against the path and a default [help_url]
    where none (or an empty one) was given. *)
Theorem load_accepts_iff (rawconf : value) (path : string) (cfg : value) :
  load rawconf path = Done cfg ↔
  ∃ conf names rules, rawconf = VDict conf ∧
    dict_get "files" conf = Some (VList (VStr <$> names)) ∧ names ≠ [] ∧
    dict_get "rules" conf = Some (VList rules) ∧ rules ≠ [] ∧
    Forall rule_entry_ok rules ∧
    cfg = VDict (set_default_help_url
                   (dict_set "files"
                      (VList ((λ f, VStr (abspath_join path f)) <$> names)) conf)).
Proof. apply load_Done_iff. Qed.
End LoadFacts.

Lemma dict_set_same k v (d : dict) : dict_get k d = Some v → dict_set k v d = d.
Proof.
  induction d as [|[k' v'] d IH]; simpl; [done|].
  destruct (String.eqb k k') eqn:E.
  - apply String.eqb_eq in E as <-. by intros [= ->].
  - intros Hd. by rewrite IH.
Qed.

Section LoadResults.
Context {env : ConfigEnv}.

Lemma load_Done_shape (rawconf : value) (path : string) (cfg : value) :
  load rawconf path = Done cfg →
  ∃ conf names rules url, cfg = VDict conf ∧
    dict_get "files" conf = Some (VList (VStr <$> names)) ∧ names ≠ [] ∧
    dict_get "rules" conf = Some (VList rules) ∧ rules ≠ [] ∧
    Forall rule_entry_ok rules ∧
    dict_get "help_url" conf = Some url ∧ py_truthy url = true.
Proof.
  intros (conf & names & rules & -> & Hf & Hn & Hr & Hrn & Hok & ->)%load_Done_iff.
  destruct (help_url_set
              (dict_set "files" (VList ((λ f, VStr (abspath_join path f)) <$> names)) conf))
    as (url & Hu & Ht & _).
  eexists _, (abspath_join path <$> names), rules, url. split_and!; [done| | | |done..].
  - rewrite help_url_other, dict_get_set_eq by done. by rewrite <-list_fmap_compose.
  - by destruct names.
  - by rewrite help_url_other, dict_get_set_ne by done.
Qed.

(** X13. A config [load] returns has what [lint] reads: a non-empty list
    of file names, a non-empty list of valid rule entries and a non-empty
    [help_url]. *)
Theorem validated_config_shape (rawconf : value) (path : string) (cfg : value) :
  load rawconf path = Done cfg →
  ∃ conf names rules url, cfg = VDict conf ∧
    dict_get "files" conf = Some (VList (VStr <$> names)) ∧ names ≠ [] ∧
    dict_get "rules" conf = Some (VList rules) ∧ rules ≠ [] ∧
    Forall rule_entry_ok rules ∧
    dict_get "help_url" conf = Some url ∧ py_truthy url = true.
Proof. apply load_Done_shape. Qed.

(** X14. Loading a config that [load] returned gives the same config
    back, when resolving a resolved file name leaves it as it is. *)
Theorem load_again (rawconf : value) (path path' : string) (cfg : value) :
  load rawconf path = Done cfg →
  (∀ f, abspath_join path' (abspath_join path f) = abspath_join path f) →
  load cfg path' = Done cfg.
Proof.
  intros (conf & names & rules & -> & Hf & Hn & Hr & Hrn & Hok & ->)%load_Done_iff Habs.
  apply load_Done_iff.
  eexists _, (abspath_join path <$> names), rules. split_and!; [done| | | |done..|].
  - rewrite help_url_other, dict_get_set_eq by done. by rewrite <-list_fmap_compose.
  - by destruct names.
  - by rewrite help_url_other, dict_get_set_ne by done.
  - f_equal.
    assert ((λ f, VStr (abspath_join path' f)) <$> (abspath_join path <$> names) =
            (λ f, VStr (abspath_join path f)) <$> names) as ->.
    { rewrite <-list_fmap_compose. apply list_fmap_ext. intros i f _. simpl.
      by rewrite Habs. }
    rewrite (dict_set_same "files" _ (set_default_help_url _)), help_url_idem; [done|].
    by rewrite help_url_other, dict_get_set_eq.
Qed.

(** X15. A truthy [files] that is no list, but a string, a number,
    [True] or a mapping with strings as keys: an exception of the
    interpreter leaves [load], [KeyError] for the mapping and [TypeError]
    for the others, and no "config file invalid" message. *)
Theorem files_not_a_list (conf : dict) (files : value) (path : string) :
  dict_get "files" conf = Some files → py_truthy files = true →
  isinstance_list files = false →
  load (VDict conf) path =
    Failed (Uncaught (if isinstance_dict files then KeyError else TypeError)).
Proof.
  intros Hf Ht Hl. unfold load, _validate. rewrite Hf, Ht.
  destruct files; try done; cbn [validate_files mbind outcome_bind]; eauto.
Qed.

(** X16. The message for a rule that [RULES] does not have is a constant:
    it names neither the index nor the rule. *)
Theorem unknown_rule_message (conf : dict) (names : list string) (path : string)
    (good rest : list value) (d : dict) (n : string) :
  dict_get "files" conf = Some (VList (VStr <$> names)) → names ≠ [] →
  dict_get "rules" conf = Some (VList (good ++ VDict d :: rest)) →
  Forall rule_entry_ok good →
  dict_get "rule" d = Some (VStr n) → n ∉ RULES_defaults.*1 →
  load (VDict conf) path =
    Failed (RuntimeError "config file invalid: 'rules' index {i}: unknown rule '{rule[]}'").
Proof.
  intros Hf Hn Hr Hgood Hd Hnot. unfold load, _validate. rewrite Hf.
  assert (py_truthy (VList (VStr <$> names)) = true) as -> by by destruct names.
  cbn [validate_files]. rewrite resolve_files_strings. cbn [mbind outcome_bind].
  rewrite help_url_other, dict_get_set_ne by done. rewrite Hr.
  assert (py_truthy (VList (good ++ VDict d :: rest)) = true) as -> by by destruct good.
  cbn [py_sequence lift mbind outcome_bind].
  assert (∀ i, validate_rules i (good ++ VDict d :: rest) =
               Failed (RuntimeError "'rules' index {i}: unknown rule '{rule[]}'")) as Hall.
  { clear Hr. induction Hgood as [|rule good Hrule Hgood IH]; intros i; simpl.
    - unfold validate_rule. cfg_simpl. rewrite Hd.
      rewrite bool_decide_eq_true_2 by eauto. cfg_simpl.
      by rewrite bool_decide_eq_false_2.
    - apply (proj2 (validate_rule_Done i rule)) in Hrule. rewrite Hrule. cfg_simpl.
      apply IH. }
  by rewrite Hall.
Qed.
End LoadResults.

(** * Facts about the entry point *)

Lemma alist_get_set_eq {A} k (v : A) l : alist_get k (alist_set k v l) = Some v.
Proof.
  induction l as [|[k' v'] l IH]; simpl.
  - by rewrite String.eqb_refl.
  - destruct (String.eqb k k') eqn:E; simpl; [by rewrite String.eqb_refl|by rewrite E].
Qed.

Lemma alist_get_set_ne {A} k k' (v : A) l :
  k ≠ k' → alist_get k' (alist_set k v l) = alist_get k' l.
Proof.
  intros Hne.
  assert (String.eqb k' k = false) as Hf by (apply String.eqb_neq; congruence).
  induction l as [|[k0 v0] l IH]; simpl.
  - by rewrite Hf.
  - destruct (String.eqb k k0) eqn:E; simpl.
    + apply String.eqb_eq in E as <-. by rewrite Hf.
    + by rewrite IH.
Qed.

Lemma alist_set_keys {A} k (v : A) l :
  (alist_set k v l).*1 = if decide (k ∈ l.*1) then l.*1 else l.*1 ++ [k].
Proof.
  induction l as [|[k' v'] l IH]; csimpl.
  - done.
  - destruct (String.eqb k k') eqn:E; csimpl.
    + apply String.eqb_eq in E as <-. rewrite decide_True; [done|constructor].
    + apply String.eqb_neq in E. rewrite IH.
      destruct (decide (k ∈ l.*1)) as [Hin|Hin].
      * rewrite decide_True; [done|by constructor].
      * rewrite decide_False; [done|]. by intros [?|?]%elem_of_cons.
Qed.

Lemma alist_set_elem {A} k (v : A) l k' v' :
  (k', v') ∈ alist_set k v l → (k' = k ∧ v' = v) ∨ (k', v') ∈ l.
Proof.
  induction l as [|[k0 v0] l IH]; simpl.
  - intros ?%list_elem_of_singleton. left. by simplify_eq.
  - destruct (String.eqb k k0) eqn:E.
    + intros [?|?]%elem_of_cons; [left; by simplify_eq|right; by constructor].
    + intros [?|Hin]%elem_of_cons; [right; simplify_eq; constructor|].
      destruct (IH Hin); [by left|right; by constructor].
Qed.

Lemma alist_set_NoDup {A} k (v : A) l : NoDup l.*1 → NoDup (alist_set k v l).*1.
Proof.
  intros Hnd. rewrite alist_set_keys. case_decide; [done|].
  apply NoDup_app. split_and!; [done| |apply NoDup_singleton].
  intros x Hx ->%list_elem_of_singleton. done.
Qed.

Lemma dict_set_keys k v (d : dict) :
  (dict_set k v d).*1 = if decide (k ∈ d.*1) then d.*1 else d.*1 ++ [k].
Proof.
  induction d as [|[k' v'] d IH]; csimpl.
  - done.
  - destruct (String.eqb k k') eqn:E; csimpl.
    + apply String.eqb_eq in E as <-. rewrite decide_True; [done|constructor].
    + apply String.eqb_neq in E. rewrite IH.
      destruct (decide (k ∈ d.*1)) as [Hin|Hin].
      * rewrite decide_True; [done|by constructor].
      * rewrite decide_False; [done|]. by intros [?|?]%elem_of_cons.
Qed.

(** Merging options that are the rule's name and some of its defaults
    adds the key [rule] and no other. *)
Lemma dict_merge_keys (options : dict) : ∀ (config : dict) (keys : list string) b,
  "rule" ∉ keys →
  (∀ k, k ∈ options.*1 → k = "rule" ∨ k ∈ keys) →
  config.*1 = with_rule b keys →
  (dict_merge config options).*1 =
    with_rule (b || bool_decide ("rule" ∈ options.*1)) keys.
Proof.
  unfold dict_merge.
  induction options as [|[k v] options IH]; intros config keys b Hrule Hsub Hconf; csimpl.
  - rewrite ?bool_decide_eq_false_2 by apply not_elem_of_nil. by rewrite orb_false_r.
  - destruct (decide (k = "rule")) as [->|Hne].
    + rewrite (IH _ keys true Hrule).
      * cbn [orb]. rewrite (bool_decide_eq_true_2 ("rule" ∈ "rule" :: _)) by constructor.
        by rewrite orb_true_r.
      * intros k' Hk'. apply Hsub. by constructor.
      * rewrite dict_set_keys, Hconf. destruct b; simpl.
        -- rewrite decide_True; [done|]. apply elem_of_app. right. constructor.
        -- by rewrite decide_False.
    + rewrite (IH _ keys b Hrule).
      * f_equal. f_equal. apply bool_decide_ext. rewrite elem_of_cons. naive_solver.
      * intros k' Hk'. apply Hsub. by constructor.
      * rewrite dict_set_keys, Hconf. rewrite decide_True; [done|].
        destruct (Hsub k) as [?|Hk]; [constructor|done|].
        destruct b; simpl; [apply elem_of_app; by left|done].
Qed.

Lemma dict_del_last k (d : dict) v :
  k ∉ d.*1 → dict_del k (d ++ [(k, v)]) = Ok d.
Proof.
  induction d as [|[k' v'] d IH]; csimpl; intros Hk.
  - by rewrite String.eqb_refl.
  - apply not_elem_of_cons in Hk as [Hne Hk].
    apply String.eqb_neq in Hne as ->. by rewrite IH.
Qed.

Lemma dict_del_keys k (d : dict) keys :
  k ∉ keys → d.*1 = keys ++ [k] → ∃ d', dict_del k d = Ok d' ∧ d'.*1 = keys.
Proof.
  revert keys. induction d as [|[k' v'] d IH]; intros keys Hk Hd; csimpl in *.
  - by destruct keys.
  - destruct keys as [|k0 keys]; csimpl in Hd.
    + injection Hd as -> Hd. rewrite String.eqb_refl. exists d. split; [done|].
      done.
    + injection Hd as -> Hd. apply not_elem_of_cons in Hk as [Hne Hk].
      apply String.eqb_neq in Hne as ->.
      destruct (IH keys Hk Hd) as (d' & -> & Hd'). csimpl. eexists. split; [done|].
      csimpl. by rewrite Hd'.
Qed.

Section LintFacts.
Context {helpers : Helpers} {interp : Interp} {lintenv : LintEnv}.

Lemma rules_defaults_agree n :
  rule_defaults n RULES_defaults = rule_defaults_of <$> alist_get n RULES.
Proof. unfold RULES_defaults, RULES, name. simpl. repeat case_match; reflexivity. Qed.

Lemma rules_no_rule_key n cls :
  alist_get n RULES = Some cls → "rule" ∉ (rule_defaults_of cls).*1.
Proof.
  unfold RULES, name. simpl. repeat case_match; intros [= <-]; simpl;
    rewrite ?elem_of_cons, ?elem_of_nil; naive_solver.
Qed.

Lemma default_configs_get n :
  alist_get n default_configs = rule_defaults_of <$> alist_get n RULES.
Proof. unfold default_configs, RULES, name. simpl. repeat case_match; reflexivity. Qed.

Lemma chosen_inv_init : chosen_inv ([], default_configs).
Proof.
  split_and!; cbn [fst snd].
  - constructor.
  - by intros n cls ?%elem_of_nil.
  - intros n cls Hn. rewrite default_configs_get, Hn. simpl. eauto.
Qed.

Lemma alist_get_elem {A} n (l : list (string * A)) v :
  NoDup l.*1 → (n, v) ∈ l → alist_get n l = Some v.
Proof.
  induction l as [|[k' v'] l IH]; csimpl; [by intros _ ?%elem_of_nil|].
  intros [Hk Hnd]%NoDup_cons [Heq|Hin]%elem_of_cons.
  - simplify_eq. by rewrite String.eqb_refl.
  - destruct (String.eqb n k') eqn:E; [|by apply IH].
    apply String.eqb_eq in E as <-. destruct Hk.
    apply list_elem_of_fmap. by exists (n, v).
Qed.

Lemma choose_rule_ok st rule :
  chosen_inv st → rule_entry_ok rule →
  ∃ st', choose_rule st rule = Ok st' ∧ chosen_inv st' ∧
    ∀ n, n ∈ st'.1.*1 ↔ n ∈ st.1.*1 ∨ names_rule rule n.
Proof.
  intros (Hnd & Hsel & Hconf) (d & n & defaults & -> & Hn & Hd & Hkeys).
  rewrite rules_defaults_agree in Hd.
  destruct (alist_get n RULES) as [cls|] eqn:Hcls; [|done]. injection Hd as <-.
  destruct (Hconf n cls Hcls) as (c & Hc & Hck).
  unfold choose_rule. cbn [py_getitem]. rewrite Hn. res_simpl.
  cbn [rules_getitem]. rewrite Hcls. res_simpl. cbn [fst snd]. rewrite Hc.
  pose proof (rules_no_rule_key n cls Hcls) as Hnr.
  pose proof (dict_merge_keys d c _ false Hnr Hkeys Hck) as Hm.
  rewrite bool_decide_eq_true_2 in Hm by (apply dict_get_is_Some; eauto).
  destruct (dict_del_keys "rule" _ _ Hnr Hm) as (merged & -> & Hmk). res_simpl.
  eexists. split; [done|]. split; [split_and!|]; cbn [fst snd].
  - by apply alist_set_NoDup.
  - intros n' cls' [[-> ->]|Hin]%alist_set_elem; [done|by apply Hsel].
  - intros n' cls' Hn'. destruct (decide (n = n')) as [<-|Hne].
    + rewrite alist_get_set_eq. simplify_eq. eauto.
    + rewrite alist_get_set_ne by done. by apply Hconf.
  - intros n'. rewrite alist_set_keys. unfold names_rule. case_decide.
    + split; [by left|]. intros [?|(d' & Hd0 & Hd')]; [done|]. by simplify_eq.
    + rewrite elem_of_app, list_elem_of_singleton. split.
      * intros [?| ->]; [by left|right; eauto].
      * intros [?|(d' & Hd0 & Hd')]; [by left|right]. by simplify_eq.
Qed.

Lemma choose_rules_ok rules : ∀ st,
  chosen_inv st → Forall rule_entry_ok rules →
  ∃ st', choose_rules st rules = Ok st' ∧ chosen_inv st' ∧
    ∀ n, n ∈ st'.1.*1 ↔ n ∈ st.1.*1 ∨ ∃ rule, rule ∈ rules ∧ names_rule rule n.
Proof.
  induction rules as [|rule rules IH]; intros st Hinv Hok; simpl.
  - exists st. split_and!; [done..|]. intros n. split; [by left|].
    intros [?|(? & []%elem_of_nil & _)]. done.
  - apply Forall_cons in Hok as [Hrule Hok].
    destruct (choose_rule_ok st rule Hinv Hrule) as (st1 & -> & Hinv1 & Hn1). res_simpl.
    destruct (IH st1 Hinv1 Hok) as (st' & -> & Hinv' & Hn').
    exists st'. split_and!; [done..|]. intros n. rewrite Hn', Hn1.
    setoid_rewrite elem_of_cons. naive_solver.
Qed.

Lemma lint_setup_loaded {env : ConfigEnv} (rawconf : value) (path : string)
    (cfg : value) :
  load rawconf path = Done cfg →
  ∃ st files rules, lint_setup cfg = Ok (st, VStr <$> files) ∧
    py_getitem cfg "rules" = Ok (VList rules) ∧
    NoDup st.1.*1 ∧
    (∀ n, n ∈ st.1.*1 ↔ ∃ rule, rule ∈ rules ∧ names_rule rule n) ∧
    (∀ n cls, (n, cls) ∈ st.1 →
       alist_get n RULES = Some cls ∧
       ∃ c, alist_get n st.2 = Some c ∧ c.*1 = (rule_defaults_of cls).*1).
Proof.
  intros (conf & names & rules & url & -> & Hf & Hn & Hr & Hrn & Hok & _)
    %load_Done_shape.
  destruct (choose_rules_ok rules ([], default_configs) chosen_inv_init Hok)
    as (st & Hst & (Hnd & Hsel & Hconf) & Hnames).
  exists st, names, rules. unfold lint_setup. cbn [py_getitem]. rewrite Hf, Hr. res_simpl.
  cbn [py_sequence]. res_simpl. rewrite Hst. res_simpl. split_and!; [done..| |].
  - intros n. rewrite Hnames. split; [|by right].
    intros [[]%elem_of_nil|?]. done.
  - intros n cls Hin. split; [by apply Hsel|]. apply Hconf. by apply Hsel.
Qed.

(** X17. On a config that [load] returned, the first loops of [lint] raise
    nothing; the rules chosen are the rules the config names, each once
    and with its class of [RULES], and the config of each has exactly the
    keys of the rule's defaults. *)
Theorem setup_after_load {env : ConfigEnv} (rawconf : value) (path : string)
    (cfg : value) :
  load rawconf path = Done cfg →
  ∃ st files rules, lint_setup cfg = Ok (st, VStr <$> files) ∧
    py_getitem cfg "rules" = Ok (VList rules) ∧
    NoDup st.1.*1 ∧
    (∀ n, n ∈ st.1.*1 ↔ ∃ rule, rule ∈ rules ∧ names_rule rule n) ∧
    (∀ n cls, (n, cls) ∈ st.1 →
       alist_get n RULES = Some cls ∧
       ∃ c, alist_get n st.2 = Some c ∧ c.*1 = (rule_defaults_of cls).*1).
Proof. apply lint_setup_loaded. Qed.
End LintFacts.

Lemma dict_merge_get (b : dict) : ∀ (a : dict) k,
  NoDup b.*1 →
  dict_get k (dict_merge a b) =
    match dict_get k b with
    | Some v => Some v
    | None => dict_get k a
    end.
Proof.
  unfold dict_merge. induction b as [|[k0 v0] b IH]; intros a k Hnd; csimpl; [done|].
  apply NoDup_cons in Hnd as [Hk0 Hnd]. rewrite IH by done.
  destruct (String.eqb k k0) eqn:E.
  - apply String.eqb_eq in E as ->.
    destruct (dict_get k0 b) eqn:Hb.
    + destruct Hk0. apply dict_get_is_Some. eauto.
    + cbn [fst snd]. by rewrite dict_get_set_eq.
  - apply String.eqb_neq in E. cbn [fst snd].
    by rewrite dict_get_set_ne by congruence.
Qed.

Lemma dict_del_get k (d : dict) : ∀ d' k',
  dict_del k d = Ok d' → k' ≠ k → dict_get k' d' = dict_get k' d.
Proof.
  induction d as [|[k0 v0] d IH]; intros d' k' Hd Hne; simpl in *; [done|].
  destruct (String.eqb k k0) eqn:E.
  - apply String.eqb_eq in E as <-. injection Hd as <-.
    by apply String.eqb_neq in Hne as ->.
  - apply bind_Ok in Hd as (d'' & Hd'' & [= <-]). simpl.
    destruct (String.eqb k' k0); [done|]. by apply IH.
Qed.

Section OptionValues.
Context {helpers : Helpers} {interp : Interp} {lintenv : LintEnv}.

Lemma choose_rule_other st rule st' n :
  choose_rule st rule = Ok st' → ¬ names_rule rule n →
  alist_get n st'.2 = alist_get n st.2.
Proof.
  unfold choose_rule. intros Hc Hn.
  apply bind_Ok in Hc as (name & Hname & Hc).
  apply bind_Ok in Hc as ([n' cls] & Hentry & Hc). cbn [fst snd] in Hc.
  destruct (alist_get n' st.2) as [config|]; [|done].
  destruct rule as [| | | | |options]; try done.
  apply bind_Ok in Hc as (merged & _ & [= <-]). cbn [snd].
  apply alist_get_set_ne. intros ->. apply Hn. exists options. split; [done|].
  destruct name as [| | |x| |]; try done. cbn [rules_getitem] in Hentry.
  destruct (alist_get x RULES); [|done]. injection Hentry as -> _.
  cbn [py_getitem] in Hname. by destruct (dict_get "rule" options); simplify_eq.
Qed.

Lemma choose_rules_other rules : ∀ st st' n,
  choose_rules st rules = Ok st' → Forall (λ rule, ¬ names_rule rule n) rules →
  alist_get n st'.2 = alist_get n st.2.
Proof.
  induction rules as [|rule rules IH]; intros st st' n Hc Hn; simpl in *.
  - by simplify_eq.
  - apply bind_Ok in Hc as (st1 & H1 & Hc). apply Forall_cons in Hn as [Hr Hn].
    rewrite (IH _ _ _ Hc Hn). by eapply choose_rule_other.
Qed.

Lemma choose_rules_app rules1 rules2 st st' :
  choose_rules st (rules1 ++ rules2) = Ok st' ↔
  ∃ st1, choose_rules st rules1 = Ok st1 ∧ choose_rules st1 rules2 = Ok st'.
Proof.
  revert st. induction rules1 as [|rule rules1 IH]; intros st; simpl.
  - split; [eauto|]. by intros (st1 & [= <-] & ?).
  - destruct (choose_rule st rule) as [st0|e]; simpl; [apply IH|].
    split; [done|]. by intros (? & ? & ?).
Qed.

(** X18. The config a rule gets when one entry of the config file names
    it: the options of the entry, and the rule's defaults for the others. *)
Theorem options_override_defaults {env : ConfigEnv} (rawconf : value) (path : string)
    (cfg : value) (before after : list value) (options : dict) (n : string) :
  load rawconf path = Done cfg →
  py_getitem cfg "rules" = Ok (VList (before ++ VDict options :: after)) →
  dict_get "rule" options = Some (VStr n) → dict_wf options →
  Forall (λ rule, ¬ names_rule rule n) (before ++ after) →
  ∃ st files cls config, lint_setup cfg = Ok (st, files) ∧
    alist_get n st.1 = Some cls ∧ alist_get n RULES = Some cls ∧
    alist_get n st.2 = Some config ∧
    config.*1 = (rule_defaults_of cls).*1 ∧
    ∀ k, k ≠ "rule" →
      dict_get k config =
        match dict_get k options with
        | Some v => Some v
        | None => dict_get k (rule_defaults_of cls)
        end.
Proof.
  intros Hload Hrules Hn Hwf Hothers.
  destruct (lint_setup_loaded rawconf path cfg Hload)
    as (st & files & rules & Hsetup & Hr & Hnd & Hnames & Hsel).
  rewrite Hrules in Hr. injection Hr as <-.
  assert (n ∈ st.1.*1) as Hin.
  { apply Hnames. exists (VDict options). split; [|by exists options].
    apply elem_of_app. right. constructor. }
  apply list_elem_of_fmap in Hin as ([n' cls] & -> & Hin). cbn [fst] in *.
  destruct (Hsel n' cls Hin) as (Hcls & config & Hconfig & Hkeys).
  exists st, (VStr <$> files), cls, config.
  split_and!; [done|by apply alist_get_elem|done..|].
  intros k Hk.
  unfold lint_setup in Hsetup.
  apply bind_Ok in Hsetup as (fs & _ & Hsetup).
  apply bind_Ok in Hsetup as (rs & Hrs & Hsetup). rewrite Hrules in Hrs.
  injection Hrs as <-. cbn [py_sequence] in Hsetup. res_simpl.
  apply bind_Ok in Hsetup as (st0 & Hchoose & Hsetup).
  apply bind_Ok in Hsetup as (? & _ & [= -> _]).
  apply Forall_app in Hothers as [Hbefore Hafter].
  apply choose_rules_app in Hchoose as (st1 & H1 & Hchoose). simpl in Hchoose.
  apply bind_Ok in Hchoose as (st2 & H2 & H3).
  pose proof (choose_rules_other _ _ _ n' H1 Hbefore) as Hc1.
  pose proof (choose_rules_other _ _ _ n' H3 Hafter) as Hc3.
  rewrite default_configs_get, Hcls in Hc1. simpl in Hc1.
  rewrite Hc3 in Hconfig. clear H1 H3 Hc3.
  unfold choose_rule in H2. cbn [py_getitem] in H2. rewrite Hn in H2. res_simpl.
  cbn [rules_getitem] in H2. rewrite Hcls in H2. res_simpl. cbn [fst snd] in H2.
  rewrite Hc1 in H2. apply bind_Ok in H2 as (merged & Hdel & [= <-]).
  cbn [snd] in Hconfig. rewrite alist_get_set_eq in Hconfig. injection Hconfig as <-.
  rewrite (dict_del_get _ _ _ _ Hdel Hk). by apply dict_merge_get.
Qed.
End OptionValues.

Lemma sum_lengths_from (es : list (string * list LintError)) : ∀ a,
  foldl (λ n entry, n + length entry.2) a es = a + sum_lengths es.
Proof.
  unfold sum_lengths. induction es as [|e es IH]; intros a; simpl; [lia|].
  rewrite (IH (a + length e.2)), (IH (length e.2)). lia.
Qed.

Lemma sum_lengths_cons (e : string * list LintError) es :
  sum_lengths (e :: es) = length e.2 + sum_lengths es.
Proof. unfold sum_lengths at 1. simpl. apply sum_lengths_from. Qed.

Lemma sum_lengths_zero (es : list (string * list LintError)) :
  Forall (λ e, e.2 ≠ []) es → sum_lengths es = 0 → es = [].
Proof.
  destruct es as [|e es]; [done|]. intros [He _]%Forall_cons.
  rewrite sum_lengths_cons. destruct e.2; [done|]. simpl. lia.
Qed.

Lemma alist_set_Forall {A} (P : string * A → Prop) k v (l : list (string * A)) :
  Forall P l → P (k, v) → Forall P (alist_set k v l).
Proof.
  induction l as [|[k' v'] l IH]; intros Hl Hkv; simpl.
  - by constructor.
  - apply Forall_cons in Hl as [? ?]. destruct (String.eqb k k'); constructor; auto.
Qed.

Lemma alist_set_not_nil {A} k v (l : list (string * A)) : alist_set k v l ≠ [].
Proof. destruct l as [|[k' v'] l]; simpl; [done|]. by destruct (String.eqb k k'). Qed.

Section ExitStatus.
Context {helpers : Helpers} {interp : Interp} {lintenv : LintEnv}.

Lemma run_rules_spec rules configs y : ∀ init errors,
  Forall (λ e, e.2 ≠ []) init →
  run_rules rules configs y init = Ok errors →
  Forall (λ e, e.2 ≠ []) errors ∧
  ((errors = [] ∧ init = [] ∧
    ∀ n cls, (n, cls) ∈ rules →
      rule_call cls (default (rule_defaults_of cls) (alist_get n configs)) y = Ok [])
   ∨ (errors ≠ [] ∧
      (init ≠ [] ∨ ∃ n cls rule_errors, (n, cls) ∈ rules ∧
         rule_call cls (default (rule_defaults_of cls) (alist_get n configs)) y
           = Ok rule_errors ∧ rule_errors ≠ []))).
Proof.
  induction rules as [|[n cls] rules IH]; intros init errors Hinit Hrun; simpl in Hrun.
  - injection Hrun as <-. split; [done|]. destruct init as [|e init].
    + left. split_and!; [done..|]. by intros ?? ?%elem_of_nil.
    + right. split; [done|]. by left.
  - apply bind_Ok in Hrun as (rule_errors & Hcall & Hrun).
    case_bool_decide as Hre.
    + subst rule_errors. destruct (IH _ _ Hinit Hrun) as [Hne [(-> & -> & Hall)|[Hn Hex]]].
      * split; [done|]. left. split_and!; [done..|].
        intros n' cls' [[= -> ->]|?]%elem_of_cons; auto.
      * split; [done|]. right. split; [done|].
        destruct Hex as [?|(n' & cls' & re & Hin & Hc & Hr)]; [by left|right].
        exists n', cls', re. split_and!; [|done..]. by apply elem_of_cons; right.
    + assert (Forall (λ e : string * list LintError, e.2 ≠ [])
                (alist_set n rule_errors init)) as Hinit'
        by by apply alist_set_Forall.
      destruct (IH _ _ Hinit' Hrun) as [Hne [(_ & Hnil & _)|[Hn _]]].
      * by apply alist_set_not_nil in Hnil.
      * split; [done|]. right. split; [done|]. right.
        exists n, cls, rule_errors. split_and!; [|done..]. by apply elem_of_cons; left.
Qed.

Lemma lint_file_spec st yaml_file errors :
  lint_file st yaml_file = Ok errors →
  (sum_lengths errors = 0 ∧ file_clean st yaml_file) ∨
  (sum_lengths errors ≠ 0 ∧ file_dirty st yaml_file).
Proof.
  unfold lint_file. intros (y & Hload & Hrun)%bind_Ok.
  destruct (run_rules_spec _ _ _ _ _ (Forall_nil_2 _) Hrun)
    as [Hne [(-> & _ & Hall)|[Hn [?|(n & cls & re & Hin & Hc & Hr)]]]]; [| done |].
  - left. split; [done|]. by exists y.
  - right. split; [by intros ?%sum_lengths_zero|]. by exists y, n, cls, re.
Qed.

Lemma lint_files_spec config st files : ∀ ret printed prints code,
  lint_files config st files ret printed = (prints, Ok code) →
  (code = ret ∧ Forall (file_clean st) files ∧
   prints = printed ++ (zero_errors_line <$> files)) ∨
  (code = 1 ∧ Exists (file_dirty st) files).
Proof.
  induction files as [|f files IH]; intros ret printed prints code Hl; simpl in Hl.
  - injection Hl as <- <-. left. by rewrite app_nil_r.
  - destruct (lint_file st f) as [errors|] eqn:Hfile; [|done].
    apply lint_file_spec in Hfile as [[Hz Hclean]|[Hnz Hdirty]]; unfold report in Hl.
    + rewrite bool_decide_eq_true_2 in Hl by done.
      destruct (IH _ _ _ _ Hl) as [(-> & Hall & ->)|[-> Hex]].
      * left. split_and!; [done|by constructor|]. by rewrite <-(assoc_L (++)).
      * right. split; [done|]. by apply Exists_cons_tl.
    + rewrite bool_decide_eq_false_2 in Hl by done.
      destruct (py_getitem config "help_url"); [|done].
      destruct (IH _ _ _ _ Hl) as [(-> & _)|[-> _]];
        right; (split; [done|]); by apply Exists_cons_hd.
Qed.

(** X19. The exit status of [lint], when it ends without an exception: 0
    with one line a file when no chosen rule reports anything on any
    file, 1 when some rule reports an error on some file. *)
Theorem exit_status (config : value) (prints : list string) (code : nat) :
  lint (Some config) = (prints, Ok code) →
  ∃ st files, lint_setup config = Ok (st, files) ∧
    ((code = 0 ∧ Forall (file_clean st) files ∧ prints = zero_errors_line <$> files) ∨
     (code = 1 ∧ Exists (file_dirty st) files)).
Proof.
  unfold lint. destruct (lint_setup config) as [[st files]|]; [|done].
  intros Hl. exists st, files. split; [done|].
  by apply lint_files_spec in Hl.
Qed.

(** A clean file and a file with errors are told apart. *)
Lemma clean_not_dirty st yaml_file :
  file_clean st yaml_file → ¬ file_dirty st yaml_file.
Proof.
  intros (y & Hy & Hall) (y' & n & cls & re & Hy' & Hin & Hc & Hr).
  rewrite Hy in Hy'. injection Hy' as <-. rewrite (Hall _ _ Hin) in Hc. by simplify_eq.
Qed.
End ExitStatus.

Lemma blank_before_app l1 l2 :
  blank_before (l1 ++ l2) = blank_before l1 ++ blank_before l2.
Proof. unfold blank_before. by rewrite fmap_app, join_app. Qed.

Lemma error_prints_true rule error_list :
  error_prints true rule error_list
  = blank_before ((λ error, rule +:+ ": " +:+ error) <$> error_list).
Proof. induction error_list as [|e es IH]; [done|]. simpl. by rewrite IH. Qed.

Lemma error_prints_false rule error_list :
  error_prints false rule error_list
  = blank_between ((λ error, rule +:+ ": " +:+ error) <$> error_list).
Proof. destruct error_list as [|e es]; [done|]. simpl. by rewrite error_prints_true. Qed.

Lemma errors_prints_true errors :
  errors_prints true errors = blank_before (error_lines errors).
Proof.
  induction errors as [|[rule es] errors IH]; [done|].
  unfold error_lines. simpl. rewrite IH, error_prints_true. by rewrite blank_before_app.
Qed.

Lemma errors_prints_lines (errors : list (string * list LintError)) :
  errors_prints false errors = blank_between (error_lines errors).
Proof.
  induction errors as [|[rule es] errors IH]; [done|].
  unfold error_lines. simpl. destruct es as [|e es].
  - simpl. apply IH.
  - rewrite error_prints_false. simpl.
    by rewrite errors_prints_true, blank_before_app.
Qed.

(** X20. The error lines of a file come out in the order of the rules
    and of each rule's errors, with one empty line between two of them
    and none before the first or after the last. *)
Theorem errors_separated_by_blank_lines (errors : list (string * list LintError)) :
  errors_prints false errors = blank_between (error_lines errors).
Proof. apply errors_prints_lines. Qed.

Lemma error_lines_length errors : length (error_lines errors) = sum_lengths errors.
Proof.
  induction errors as [|e errors IH]; [done|].
  rewrite sum_lengths_cons, <-IH. unfold error_lines. csimpl.
  by rewrite length_app, length_fmap.
Qed.

Section Report.
Context {interp : Interp}.

(** X21. When errors are reported for a file, the number in the summary
    line is the number of error lines printed below it, the word is
    [errors] exactly when there are several, and the help line comes
    before the errors. *)
Theorem summary_counts_error_lines (config yaml_file : value)
    (errors : list (string * list LintError)) (prints : list string) :
  report config yaml_file errors = (prints, Ok true) →
  ∃ help_url, py_getitem config "help_url" = Ok help_url ∧
    error_lines errors ≠ [] ∧
    prints =
      [summary_line (length (error_lines errors)) yaml_file;
       "For help resolving errors, see the helpful documentation at "
         +:+ py_format help_url]
      ++ blank_between (error_lines errors).
Proof.
  unfold report. rewrite <-error_lines_length. case_bool_decide as Hz; [done|].
  destruct (py_getitem config "help_url") as [help_url|]; [|done].
  intros [= <-]. exists help_url. split_and!; [done| |].
  - intros Hnil. by rewrite Hnil in Hz.
  - by rewrite errors_prints_lines.
Qed.
End Report.

(** * The rule under two enumerations of a set *)

Lemma differ_in_set_here s1 s2 after :
  differ_in_set s1 s2 (s1 +:+ after) (s2 +:+ after).
Proof. by exists "", after. Qed.

Lemma differ_in_set_prepend s1 s2 p e1 e2 :
  differ_in_set s1 s2 e1 e2 → differ_in_set s1 s2 (p +:+ e1) (p +:+ e2).
Proof.
  intros (before & after & -> & ->). exists (p +:+ before), after.
  by rewrite !append_assoc.
Qed.

Section SetOrder.
Context {helpers : Helpers}.
Variable i : Interp.
Variables order1 order2 : name_set → name_set.
Variable fns : fn_sets.

Section SameOrder.
Hypothesis Horder : order1 (expansions_write_fns fns) = order2 (expansions_write_fns fns).

Lemma subprocess_message_order :
  @_out_message_subprocess (with_set_order order1 i) fns = @_out_message_subprocess (with_set_order order2 i) fns.
Proof.
  unfold _out_message_subprocess. cbn [format_set_list with_set_order].
  rewrite Horder. reflexivity.
Qed.

Lemma update_message_order :
  @_out_message_expansions_update (with_set_order order1 i) fns = @_out_message_expansions_update (with_set_order order2 i) fns.
Proof.
  unfold _out_message_expansions_update. cbn [format_set_list with_set_order].
  rewrite Horder. reflexivity.
Qed.

Lemma dangerous_message_order :
  @_out_message_dangerous_function (with_set_order order1 i) fns = @_out_message_dangerous_function (with_set_order order2 i) fns.
Proof.
  unfold _out_message_dangerous_function. cbn [format_set_list with_set_order].
  rewrite Horder. reflexivity.
Qed.

Lemma scan_step_order :
  @scan_step helpers (with_set_order order1 i) fns = @scan_step helpers (with_set_order order2 i) fns.
Proof.
  unfold scan_step, warn_missing_write, check_update.
  rewrite subprocess_message_order, update_message_order. reflexivity.
Qed.

Lemma scan_loop_order context commands rest : ∀ idx st,
  @scan_loop helpers (with_set_order order1 i) fns context commands idx rest st =
  @scan_loop helpers (with_set_order order2 i) fns context commands idx rest st.
Proof.
  induction rest as [|c rest IH]; intros idx st; simpl; [done|].
  rewrite scan_step_order. destruct (scan_step _ _ _ _ _ _); simpl; [apply IH|done].
Qed.

Lemma check_command_list_order context commands :
  @_check_command_list helpers (with_set_order order1 i) fns context commands =
  @_check_command_list helpers (with_set_order order2 i) fns context commands.
Proof.
  unfold _check_command_list.
  rewrite subprocess_message_order.
  destruct (scan_loop_order context commands commands 0 scan_init). reflexivity.
Qed.

Lemma check_command_lists_order lists : ∀ out,
  @check_command_lists helpers (with_set_order order1 i) fns lists out =
  @check_command_lists helpers (with_set_order order2 i) fns lists out.
Proof.
  induction lists as [|[context commands] lists IH]; intros out; simpl; [done|].
  case_match; [apply IH|].
  destruct (py_sequence commands) as [cmds|]; simpl; [|done].
  rewrite check_command_list_order.
  destruct (_check_command_list _ _ _); simpl; [apply IH|done].
Qed.

Lemma check_fn_calls_order calls : ∀ out,
  @check_fn_calls (with_set_order order1 i) fns calls out = @check_fn_calls (with_set_order order2 i) fns calls out.
Proof.
  induction calls as [|[[context command] l] calls IH]; intros out; simpl; [done|].
  destruct (takes_arguments fns command) as [[|]|]; simpl; [|apply IH|done].
  rewrite dangerous_message_order. apply IH.
Qed.
End SameOrder.

Lemma render_differs_in_set context v :
  differ_in_set (@format_set_list i (order1 (expansions_write_fns fns)))
                (@format_set_list i (order2 (expansions_write_fns fns)))
                (@render_violation (with_set_order order1 i) fns context v)
                (@render_violation (with_set_order order2 i) fns context v).
Proof.
  destruct v as [idx c|fname idx c]; cbn [render_violation];
    unfold _out_message_subprocess, _out_message_expansions_update;
    cbn [format_set_list with_set_order];
    repeat apply differ_in_set_prepend; apply differ_in_set_here.
Qed.

Lemma list_errors_differ_in_set (lists : list (string * value)) :
  Forall2 (differ_in_set (@format_set_list i (order1 (expansions_write_fns fns)))
                         (@format_set_list i (order2 (expansions_write_fns fns))))
    (mjoin (@list_errors helpers (with_set_order order1 i) fns <$> lists))
    (mjoin (@list_errors helpers (with_set_order order2 i) fns <$> lists)).
Proof.
  induction lists as [|entry lists IH]; simpl; [constructor|].
  apply Forall2_app; [|done]. unfold list_errors.
  destruct entry.2 as [| | | |commands|]; try constructor.
  apply Forall2_fmap, Forall_Forall2_diag, Forall_forall. intros v _.
  apply render_differs_in_set.
Qed.

Lemma call_errors_differ_in_set (calls : list (string * value * value)) :
  Forall2 (differ_in_set (@format_set_list i (order1 (expansions_write_fns fns)))
                         (@format_set_list i (order2 (expansions_write_fns fns))))
    (mjoin (@call_errors (with_set_order order1 i) fns <$> calls))
    (mjoin (@call_errors (with_set_order order2 i) fns <$> calls)).
Proof.
  induction calls as [|site calls IH]; simpl; [constructor|].
  apply Forall2_app; [|done]. unfold call_errors.
  case_match; repeat constructor.
  unfold _out_message_dangerous_function; cbn [format_set_list with_set_order].
  repeat apply differ_in_set_prepend; apply differ_in_set_here.
Qed.
End SetOrder.

Section TwoRuns.
Context {helpers : Helpers}.

(** C7. Two invocations of the rule on the same config and document,
    by an interpreter that may enumerate a set in another order the
    second time: when the set of the functions that write the expansions
    is enumerated in the same order both times, the two results are the
    same, error by error and in the same order, or the same exception;
    this is so whenever at most one function writes the expansions.  On a
    well-formed document the two lists have the same length, and errors
    at the same place differ in the printed set only. *)
Theorem rule_deterministic_up_to_set_order (i : Interp) (order1 order2 : name_set → name_set)
    (config yaml : dict) :
  ((∀ fns, classify yaml = Ok fns →
      order1 (expansions_write_fns fns) = order2 (expansions_write_fns fns)) →
   @__call__ helpers (with_set_order order1 i) config yaml =
   @__call__ helpers (with_set_order order2 i) config yaml) ∧
  ((∀ names, order1 names ≡ₚ names) → (∀ names, order2 names ≡ₚ names) →
   (∀ fns, classify yaml = Ok fns → length (expansions_write_fns fns) ≤ 1) →
   @__call__ helpers (with_set_order order1 i) config yaml =
   @__call__ helpers (with_set_order order2 i) config yaml) ∧
  (wf_document yaml = true →
   ∃ fns errs1 errs2, classify yaml = Ok fns ∧
     @__call__ helpers (with_set_order order1 i) config yaml = Ok errs1 ∧
     @__call__ helpers (with_set_order order2 i) config yaml = Ok errs2 ∧
     Forall2 (differ_in_set (@format_set_list i (order1 (expansions_write_fns fns)))
                            (@format_set_list i (order2 (expansions_write_fns fns))))
       errs1 errs2).
Proof.
  assert ((∀ fns, classify yaml = Ok fns →
             order1 (expansions_write_fns fns) = order2 (expansions_write_fns fns)) →
          @__call__ helpers (with_set_order order1 i) config yaml =
          @__call__ helpers (with_set_order order2 i) config yaml) as Hsame.
  { intros Horder. unfold __call__.
    destruct (classify yaml) as [fns|] eqn:Hc; simpl; [|done].
    specialize (Horder fns eq_refl).
    rewrite (check_command_lists_order i order1 order2 fns Horder).
    destruct (check_command_lists _ _ _); simpl; [|done].
    apply (check_fn_calls_order i order1 order2 fns Horder). }
  split_and!; [done| |].
  - intros H1 H2 Hone. apply Hsame. intros fns Hc. specialize (Hone fns Hc).
    specialize (H1 (expansions_write_fns fns)). specialize (H2 (expansions_write_fns fns)).
    destruct (expansions_write_fns fns) as [|x [|y l]]; simpl in Hone; [| |lia].
    + apply Permutation_nil_r in H1, H2. congruence.
    + apply Permutation_singleton_r in H1, H2. congruence.
  - intros Hwf.
    destruct (@call_wf helpers (with_set_order order1 i) config yaml Hwf)
      as (fns & Hc & _ & H1).
    destruct (@call_wf helpers (with_set_order order2 i) config yaml Hwf)
      as (fns' & Hc' & _ & H2).
    rewrite Hc in Hc'. injection Hc' as <-.
    eexists fns, _, _. split_and!; [done..|].
    apply Forall2_app; [apply list_errors_differ_in_set|apply call_errors_differ_in_set].
Qed.
End TwoRuns.

(** * The exceptions of the rule *)

Lemma raises_only_weaken {A} (P Q : exn → Prop) (r : res A) :
  (∀ e, P e → Q e) → raises_only P r → raises_only Q r.
Proof. destruct r; simpl; auto. Qed.

Section RaisingScan.
Context {helpers : Raising.Helpers} {interp : Interp}.
Variable fns : fn_sets.
Variable commands : list value.

Lemma type_error_may_raise {A} (r : res A) :
  raises_only (.= TypeError) r → raises_only (Raising.may_raise commands) r.
Proof. apply raises_only_weaken. intros e ->. by left. Qed.

Lemma is_subprocess_may_raise c :
  c ∈ commands →
  raises_only (Raising.may_raise commands) (Raising._is_subprocess_exec_or_fn fns c).
Proof.
  intros Hin. unfold Raising._is_subprocess_exec_or_fn.
  destruct (Raising.match_subprocess_exec c) as [[|]|e] eqn:E; simpl; [done| |].
  - apply type_error_may_raise, func_in_type_error.
  - right. exists c. unfold Raising.predicate_raises. auto.
Qed.

Lemma is_write_may_raise c :
  c ∈ commands →
  raises_only (Raising.may_raise commands) (Raising._is_expansions_write_or_fn fns c).
Proof.
  intros Hin. unfold Raising._is_expansions_write_or_fn.
  destruct (Raising.match_expansions_write c) as [[|]|e] eqn:E; simpl; [done| |].
  - apply type_error_may_raise, func_in_type_error.
  - right. exists c. unfold Raising.predicate_raises. auto.
Qed.

Lemma is_update_may_raise c :
  c ∈ commands →
  raises_only (Raising.may_raise commands) (Raising._is_expansions_update_or_fn fns c).
Proof.
  intros Hin. unfold Raising._is_expansions_update_or_fn.
  destruct (Raising.match_expansions_update c) as [[|]|e] eqn:E; simpl; [done| |].
  - apply type_error_may_raise, func_in_type_error.
  - right. exists c. unfold Raising.predicate_raises. auto.
Qed.

Lemma is_timeout_may_raise c :
  c ∈ commands →
  raises_only (Raising.may_raise commands) (Raising._is_timeout_update_or_fn fns c).
Proof.
  intros Hin. unfold Raising._is_timeout_update_or_fn.
  destruct (Raising.match_timeout_update c) as [[|]|e] eqn:E; simpl; [done| |].
  - apply type_error_may_raise, func_in_type_error.
  - right. exists c. unfold Raising.predicate_raises. auto.
Qed.

Lemma context_add_fn_may_raise context c :
  raises_only (Raising.may_raise commands) (_context_add_fn context c).
Proof. apply type_error_may_raise, context_add_fn_type_error. Qed.

Lemma scan_step_may_raise context idx c st :
  c ∈ commands →
  raises_only (Raising.may_raise commands) (Raising.scan_step fns context commands idx c st).
Proof.
  intros Hin.
  unfold Raising.scan_step, Raising.note_first, Raising.warn_missing_write,
    Raising.check_update.
  repeat first
    [ by apply is_subprocess_may_raise | by apply is_write_may_raise
    | by apply is_update_may_raise | by apply is_timeout_may_raise
    | apply context_add_fn_may_raise
    | apply is_write_may_raise; by eapply list_elem_of_lookup_2
    | done
    | apply raises_only_bind; [|intros ?]
    | case_match ].
Qed.

Lemma scan_loop_may_raise context rest : ∀ idx st,
  rest ⊆ commands →
  raises_only (Raising.may_raise commands)
    (Raising.scan_loop fns context commands idx rest st).
Proof.
  induction rest as [|c rest IH]; intros idx st Hsub; simpl; [done|].
  apply raises_only_bind.
  - apply scan_step_may_raise, Hsub. constructor.
  - intros st'. apply IH. intros x Hx. apply Hsub. by constructor.
Qed.

Lemma check_command_list_may_raise context :
  raises_only (Raising.may_raise commands)
    (Raising._check_command_list fns context commands).
Proof.
  unfold Raising._check_command_list.
  apply raises_only_bind; [by apply scan_loop_may_raise|]. intros st.
  case_match; [|done].
  apply raises_only_bind; [apply context_add_fn_may_raise|done].
Qed.

(** X6. The exceptions of the check of one command list, whatever the
    commands are and whatever the helpers do: the [TypeError] of the
    rule's own tests of [func], or an exception that one of the four
    predicates raises on a command of the list. *)
Theorem list_check_exceptions context :
  raises_only (λ e, e = TypeError ∨ ∃ c, c ∈ commands ∧ Raising.predicate_raises e c)
    (Raising._check_command_list fns context commands).
Proof. apply check_command_list_may_raise. Qed.

Lemma raising_step_needs_update_test context idx c st st' :
  Raising.scan_step fns context commands idx c st = Ok st' →
  ∃ b, Raising._is_expansions_update_or_fn fns c = Ok b.
Proof.
  unfold Raising.scan_step. intros Hs.
  apply bind_Ok in Hs as (st1 & _ & Hs). apply bind_Ok in Hs as (st2 & _ & Hs).
  unfold Raising.check_update in Hs. apply bind_Ok in Hs as (u & Hu & _).
  apply bind_Ok in Hu as (b & Hb & _). eauto.
Qed.

Lemma raising_loop_needs_update_test context rest : ∀ idx st st' c,
  Raising.scan_loop fns context commands idx rest st = Ok st' → c ∈ rest →
  ∃ b, Raising._is_expansions_update_or_fn fns c = Ok b.
Proof.
  induction rest as [|c' rest IH]; intros idx st st' c Hs Hin; simpl in *.
  - by apply elem_of_nil in Hin.
  - apply bind_Ok in Hs as (st1 & H1 & Hs). apply elem_of_cons in Hin as [->|Hin].
    + by eapply raising_step_needs_update_test.
    + by eapply IH.
Qed.

(** X7. A command on which the test of [func] raises, and that the
    predicate for [expansions.update] does not match, makes the check of
    its list raise [TypeError] wherever it stands, when [TypeError] is
    all that the predicates raise on the commands of the list. *)
Theorem bad_command_raises context c :
  c ∈ commands → func_probe_fails c = true →
  Raising.match_expansions_update c ≠ Ok true →
  (∀ e c', c' ∈ commands → Raising.predicate_raises e c' → e = TypeError) →
  Raising._check_command_list fns context commands = Raise TypeError.
Proof.
  intros Hin Hbad Hm Honly.
  pose proof (check_command_list_may_raise context) as Hmay.
  destruct (Raising._check_command_list fns context commands) as [errs|e] eqn:E.
  - exfalso. unfold Raising._check_command_list in E.
    apply bind_Ok in E as (st & Hs & _).
    destruct (raising_loop_needs_update_test _ _ _ _ _ c Hs Hin) as [b Hb].
    unfold Raising._is_expansions_update_or_fn in Hb.
    destruct (Raising.match_expansions_update c) as [[|]|]; simpl in Hb; [done| |done].
    by rewrite func_in_fails in Hb.
  - simpl in Hmay. destruct Hmay as [->|(c' & Hc' & He)]; [done|].
    by rewrite (Honly e c' Hc' He).
Qed.
End RaisingScan.

Section RaisingRule.
Context {helpers : Raising.Helpers} {interp : Interp}.



End RaisingRule.

Section Returning.
Context {helpers : Helpers} {interp : Interp}.

Lemma returning_scan_loop fns context commands rest : ∀ idx st,
  @Raising.scan_loop (returning helpers) interp fns context commands idx rest st =
  scan_loop fns context commands idx rest st.
Proof.
  induction rest as [|c rest IH]; intros idx st; simpl; [done|].
  change (@Raising.scan_step (returning helpers) interp fns context commands idx c st)
    with (scan_step fns context commands idx c st).
  destruct (scan_step fns context commands idx c st); simpl; [apply IH|done].
Qed.

Lemma returning_check_command_list fns context commands :
  @Raising._check_command_list (returning helpers) interp fns context commands =
  _check_command_list fns context commands.
Proof.
  unfold Raising._check_command_list, _check_command_list.
  by rewrite returning_scan_loop.
Qed.

Lemma returning_check_command_lists fns lists : ∀ out,
  @Raising.check_command_lists (returning helpers) interp fns lists out =
  check_command_lists fns lists out.
Proof.
  induction lists as [|[context commands] lists IH]; intros out; simpl; [done|].
  case_match; [apply IH|].
  destruct (py_sequence commands) as [cmds|]; simpl; [|done].
  rewrite returning_check_command_list.
  destruct (_check_command_list fns context cmds); simpl; [apply IH|done].
Qed.

Lemma returning_classify_items items : ∀ fns,
  @Raising.classify_items (returning helpers) fns items =
  Ok (foldl classify_step fns items).
Proof.
  induction items as [|[fname body] items IH]; intros fns; [done|].
  cbn [Raising.classify_items foldl].
  assert (@Raising.classify_step (returning helpers) fns (fname, body) =
          Ok (classify_step fns (fname, body))) as ->.
  { unfold Raising.classify_step, classify_step. simpl.
    repeat (case_match; simpl; try done). }
  apply IH.
Qed.

(** With helpers that never raise, the rule is the rule of the first
    part. *)
Lemma returning_call config yaml :
  @Raising.__call__ (returning helpers) interp config yaml = __call__ config yaml.
Proof.
  unfold Raising.__call__, __call__, Raising.classify, classify.
  assert (∀ fns,
    (out ← @Raising.check_command_lists (returning helpers) interp fns
             (iterate_command_lists yaml) [];
     Raising.walk_end None;;
     out' ← check_fn_calls fns (iterate_fn_calls_context yaml) out;
     Raising.walk_end None;; Ok out') =
    (out ← check_command_lists fns (iterate_command_lists yaml) [];
     check_fn_calls fns (iterate_fn_calls_context yaml) out)) as Hrest.
  { intros fns. rewrite returning_check_command_lists.
    destruct (check_command_lists _ _ _); simpl; [|done].
    by destruct (check_fn_calls _ _ _). }
  destruct (dict_get "functions" yaml) as [functions|]; simpl; [|apply Hrest].
  destruct functions; simpl; try done.
  rewrite returning_classify_items. simpl. apply Hrest.
Qed.
End Returning.

(** * Examples and witnesses *)

(** C5. A task that runs an evergreen script with no expansions.write
    before it: the rule reports it under a [regex] option that matches no
    shell script, exactly as under the default. *)
Theorem regex_option_ignored :
  @__call__ spec_helpers example_interp [("regex", VStr "\.py$")]
    (one_task "compile" [run_script "./src/evergreen/compile.sh"]) =
  @__call__ spec_helpers example_interp defaults
    (one_task "compile" [run_script "./src/evergreen/compile.sh"]) ∧
  @__call__ spec_helpers example_interp [("regex", VStr "\.py$")]
    (one_task "compile" [run_script "./src/evergreen/compile.sh"]) =
  Ok [@_out_message_subprocess example_interp no_fns "Task 'compile', command 0"].
Proof. split; reflexivity. Qed.

Lemma missing_write_reported_iff_witness :
  forallb wf_command [run_script "./src/evergreen/run.sh"; expansions_write_yml] = true ∧
  @_check_command_list spec_helpers example_interp no_fns "Task 't'"
    [run_script "./src/evergreen/run.sh"; expansions_write_yml] =
  Ok ["Task 't', command 0 calls an evergreen shell script without a preceding expansions.write call. Always call expansions.write with params: file: expansions.yml; redacted: true, (or use one of these functions: []) before calling an evergreen shell script via subprocess.exec."].
Proof.
  split; [reflexivity|].
  exact (proj1 (@missing_write_reported_iff spec_helpers example_interp no_fns "Task 't'"
                  [run_script "./src/evergreen/run.sh"; expansions_write_yml] eq_refl)).
Defined.

Lemma update_not_followed_by_write_witness :
  forallb wf_command [cmd "expansions.update"; cmd "shell.exec"; cmd "timeout.update"]
    = true ∧
  @_check_command_list spec_helpers example_interp no_fns "Task 't'"
    [cmd "expansions.update"; cmd "shell.exec"; cmd "timeout.update"] =
  Ok ["Task 't', command 0 is an expansions.update command that is not immediately followed by an expansions.write call. Always call expansions.write with params: file: expansions.yml; redacted: true, (or use one of these functions: []) after calling expansions.update.";
      "Task 't', command 2 is an timeout.update command that is not immediately followed by an expansions.write call. Always call expansions.write with params: file: expansions.yml; redacted: true, (or use one of these functions: []) after calling timeout.update."].
Proof.
  split; [reflexivity|].
  exact (proj1 (@update_not_followed_by_write spec_helpers example_interp no_fns "Task 't'"
                  [cmd "expansions.update"; cmd "shell.exec"; cmd "timeout.update"]
                  eq_refl)).
Defined.

Lemma example_functions_wf :
  dict_wf [("f_write", expansions_write_yml);
           ("f_run", run_script "./src/evergreen/run.sh");
           ("f_both", VList [call "f_run"; call "f_write"])].
Proof. unfold dict_wf. simpl. apply (bool_decide_unpack _). vm_compute. exact I. Qed.

Lemma classification_first_match_witness :
  ∃ fns, @classify spec_helpers example_doc = Ok fns ∧
    ∀ f, f ∈ expansions_write_fns fns ↔
      ∃ body, (f, body) ∈
                [("f_write", expansions_write_yml);
                 ("f_run", run_script "./src/evergreen/run.sh");
                 ("f_both", VList [call "f_run"; call "f_write"])]
              ∧ @goes_to_write spec_helpers body = true.
Proof.
  destruct (@classification_first_match spec_helpers example_doc _ eq_refl
              example_functions_wf) as (fns & Hc & Hw & _).
  exists fns. split; assumption.
Defined.

Lemma unsafe_arguments_reported_witness :
  @wf_document spec_helpers example_doc = true ∧
  @__call__ spec_helpers example_interp defaults example_doc =
    Ok ["Function 'f_both', command 0, (function call: f_run) calls an evergreen shell script without a preceding expansions.write call. Always call expansions.write with params: file: expansions.yml; redacted: true, (or use one of these functions: ['f_write']) before calling an evergreen shell script via subprocess.exec.";
        "Task 'compile', command 1 cannot safely take arguments. Call expansions.write with params: file: expansions.yml; redacted: true, (or use one of these functions: ['f_write']) in the function, or do not pass arguments to it."].
Proof.
  split; [reflexivity|].
  destruct (@unsafe_arguments_reported spec_helpers example_interp defaults example_doc
              eq_refl) as (fns & errs & Hc & Hl & Hcall & _).
  injection Hc as <-. injection Hl as <-. exact Hcall.
Defined.

Lemma errors_in_detection_order_witness :
  @wf_document spec_helpers example_doc = true ∧
  ∃ fns, @classify spec_helpers example_doc = Ok fns ∧
    @__call__ spec_helpers example_interp defaults example_doc =
      Ok (mjoin (@list_errors spec_helpers example_interp fns
                   <$> @iterate_command_lists spec_helpers example_doc) ++
          mjoin (@call_errors example_interp fns
                   <$> @iterate_fn_calls_context spec_helpers example_doc)).
Proof.
  split; [reflexivity|].
  destruct (@errors_in_detection_order spec_helpers example_interp defaults example_doc
              eq_refl) as (fns & Hc & Hcall & _).
  exists fns. split; assumption.
Defined.

Lemma fallback_branch_unreachable_witness :
  forallb (λ c, negb (@runs_script spec_helpers no_fns c
                      && @writes_expansions spec_helpers no_fns c))
    [run_script "./src/evergreen/run.sh"; expansions_write_yml] = true ∧
  @_check_command_list spec_helpers example_interp no_fns "Task 't'"
    [run_script "./src/evergreen/run.sh"; expansions_write_yml] =
  @_check_command_list_no_fallback spec_helpers example_interp no_fns "Task 't'"
    [run_script "./src/evergreen/run.sh"; expansions_write_yml].
Proof.
  split; [reflexivity|].
  exact (proj1 (@fallback_branch_unreachable spec_helpers example_interp no_fns "Task 't'"
                  [run_script "./src/evergreen/run.sh"; expansions_write_yml] eq_refl)).
Defined.

Lemma classification_order_irrelevant_witness :
  ∃ fns1 fns2, @classify spec_helpers example_doc = Ok fns1 ∧
    @classify spec_helpers swapped_doc = Ok fns2 ∧
    ∀ f, (f ∈ expansions_write_fns fns1 ↔ f ∈ expansions_write_fns fns2).
Proof.
  destruct (@classification_order_irrelevant spec_helpers example_doc swapped_doc _ _
              eq_refl eq_refl (perm_swap _ _ _)) as (fns1 & fns2 & H1 & H2 & Hall).
  exists fns1, fns2. split_and!; [done..|]. intros f. apply Hall.
Defined.

Lemma message_kinds_differ_witness :
  @_out_message_subprocess example_interp no_fns "Task 't', command 0" ≠
  @_out_message_expansions_update example_interp no_fns "Task 't', command 0"
    "timeout.update" ∧ known_update_name "timeout.update".
Proof.
  split; [|by right].
  exact (proj1 (@message_kinds_differ example_interp no_fns "Task 't', command 0"
                  "Task 't', command 0" "" "timeout.update" (or_intror eq_refl))).
Defined.

Lemma no_error_twice_witness :
  forallb wf_command [cmd "expansions.update"; cmd "timeout.update"] = true ∧
  ∃ errs, @_check_command_list spec_helpers example_interp no_fns "Task 't'"
            [cmd "expansions.update"; cmd "timeout.update"] = Ok errs ∧ NoDup errs.
Proof.
  split; [reflexivity|].
  exact (@no_error_twice spec_helpers example_interp no_fns "Task 't'"
           [cmd "expansions.update"; cmd "timeout.update"] eq_refl).
Defined.

Lemma no_errors_iff_witness :
  forallb wf_command [expansions_write_yml; run_script "./src/evergreen/run.sh"] = true ∧
  ∀ i c, [expansions_write_yml; run_script "./src/evergreen/run.sh"] !! i = Some c →
    @script_execution_step spec_helpers no_fns c →
    ∃ j w, j < i ∧ [expansions_write_yml; run_script "./src/evergreen/run.sh"] !! j = Some w ∧
           @expansions_write_step spec_helpers no_fns w.
Proof.
  split; [reflexivity|].
  exact (proj1 (proj1 (@no_errors_iff spec_helpers example_interp no_fns "Task 't'"
                         [expansions_write_yml; run_script "./src/evergreen/run.sh"] eq_refl)
                  eq_refl)).
Defined.

Lemma errors_name_their_command_witness :
  forallb wf_command [run_script "./src/evergreen/run.sh"; cmd "timeout.update"] = true ∧
  ∃ errs, @_check_command_list spec_helpers example_interp no_fns "Task 't'"
            [run_script "./src/evergreen/run.sh"; cmd "timeout.update"] = Ok errs ∧
    ∀ e, e ∈ errs →
      ∃ idx, idx < 2 ∧ String.prefix (command_context "Task 't'" idx) e = true.
Proof.
  split; [reflexivity|].
  exact (@errors_name_their_command spec_helpers example_interp no_fns "Task 't'"
           [run_script "./src/evergreen/run.sh"; cmd "timeout.update"] eq_refl).
Defined.

Lemma error_count_bound_witness :
  forallb wf_command [run_script "./src/evergreen/run.sh"; cmd "timeout.update"] = true ∧
  ∃ errs, @_check_command_list spec_helpers example_interp no_fns "Task 't'"
            [run_script "./src/evergreen/run.sh"; cmd "timeout.update"] = Ok errs ∧
    length errs ≤ 2.
Proof.
  split; [reflexivity|].
  exact (@error_count_bound spec_helpers example_interp no_fns "Task 't'"
           [run_script "./src/evergreen/run.sh"; cmd "timeout.update"] eq_refl).
Defined.

Lemma example_rules_ok : Forall rule_entry_ok example_rules.
Proof.
  repeat constructor.
  - exists [("rule", VStr "required-expansions-write"); ("regex", VStr "\.py$")],
      "required-expansions-write", [("regex", VStr ".*\/evergreen\/.*\.sh")].
    split_and!; [done..|]. intros k Hk. apply (bool_decide_unpack _).
    revert k Hk. apply Forall_forall. by repeat constructor.
  - exists [("rule", VStr "no-shell-exec")], "no-shell-exec", [].
    split_and!; [done..|]. intros k Hk. left. by apply list_elem_of_singleton in Hk.
Qed.

Lemma validated_config_shape_witness :
  ∃ conf names rules url, example_config = VDict conf ∧
    dict_get "files" conf = Some (VList (VStr <$> names)) ∧ names ≠ [] ∧
    dict_get "rules" conf = Some (VList rules) ∧ rules ≠ [] ∧
    Forall rule_entry_ok rules ∧
    dict_get "help_url" conf = Some url ∧ py_truthy url = true.
Proof.
  exact (@validated_config_shape example_config_env example_rawconf "/repo" example_config
           eq_refl).
Defined.

Lemma load_again_witness :
  @load example_config_env example_config "/elsewhere" = Done example_config.
Proof.
  apply (@load_again example_config_env example_rawconf "/repo" "/elsewhere" example_config
           eq_refl).
  intros f. simpl. destruct (is_absolute f) eqn:E; [by rewrite E|reflexivity].
Defined.

Lemma files_not_a_list_witness :
  @load example_config_env
    (VDict [("files", VStr "evergreen.yml"); ("rules", VList example_rules)]) "/repo"
  = Failed (Uncaught TypeError) ∧
  @load example_config_env
    (VDict [("files", VDict [("evergreen.yml", VNone)]); ("rules", VList example_rules)])
    "/repo"
  = Failed (Uncaught KeyError).
Proof.
  split.
  - exact (@files_not_a_list example_config_env
             [("files", VStr "evergreen.yml"); ("rules", VList example_rules)]
             (VStr "evergreen.yml") "/repo" eq_refl eq_refl eq_refl).
  - exact (@files_not_a_list example_config_env
             [("files", VDict [("evergreen.yml", VNone)]); ("rules", VList example_rules)]
             (VDict [("evergreen.yml", VNone)]) "/repo" eq_refl eq_refl eq_refl).
Defined.

Lemma unknown_rule_message_witness :
  @load example_config_env
    (VDict [("files", VList [VStr "evergreen.yml"]);
            ("rules", VList (example_rules ++ [VDict [("rule", VStr "no-such-rule")]]))])
    "/repo"
  = Failed (RuntimeError
              "config file invalid: 'rules' index {i}: unknown rule '{rule[]}'").
Proof.
  apply (@unknown_rule_message example_config_env _ ["evergreen.yml"] "/repo" example_rules
           [] [("rule", VStr "no-such-rule")] "no-such-rule");
    [reflexivity|done|reflexivity|exact example_rules_ok|reflexivity|].
  apply (bool_decide_unpack _). vm_compute. exact I.
Defined.

Lemma setup_after_load_witness :
  ∃ st files rules,
    @lint_setup spec_helpers example_interp example_lint_env example_config
      = Ok (st, VStr <$> files) ∧
    py_getitem example_config "rules" = Ok (VList rules) ∧
    NoDup st.1.*1 ∧
    (∀ n, n ∈ st.1.*1 ↔ ∃ rule, rule ∈ rules ∧ names_rule rule n) ∧
    (∀ n cls, (n, cls) ∈ st.1 →
       alist_get n (@RULES spec_helpers example_interp example_lint_env) = Some cls ∧
       ∃ c, alist_get n st.2 = Some c ∧ c.*1 = (rule_defaults_of cls).*1).
Proof.
  exact (@setup_after_load spec_helpers example_interp example_lint_env example_config_env
           example_rawconf "/repo" example_config eq_refl).
Defined.

Lemma options_override_defaults_witness :
  ∃ st files cls config,
    @lint_setup spec_helpers example_interp example_lint_env example_config
      = Ok (st, files) ∧
    alist_get "required-expansions-write" st.1 = Some cls ∧
    alist_get "required-expansions-write"
      (@RULES spec_helpers example_interp example_lint_env) = Some cls ∧
    alist_get "required-expansions-write" st.2 = Some config ∧
    config.*1 = (rule_defaults_of cls).*1 ∧
    ∀ k, k ≠ "rule" →
      dict_get k config =
        match dict_get k [("rule", VStr "required-expansions-write");
                          ("regex", VStr "\.py$")] with
        | Some v => Some v
        | None => dict_get k (rule_defaults_of cls)
        end.
Proof.
  apply (@options_override_defaults spec_helpers example_interp example_lint_env
           example_config_env example_rawconf "/repo" example_config []
           [VDict [("rule", VStr "no-shell-exec")]]
           [("rule", VStr "required-expansions-write"); ("regex", VStr "\.py$")]
           "required-expansions-write" eq_refl eq_refl eq_refl).
  - apply (bool_decide_unpack _). vm_compute. exact I.
  - repeat constructor. intros (d & [= <-] & Hd). discriminate Hd.
Defined.

Lemma exit_status_witness :
  @lint spec_helpers example_interp example_lint_env (Some example_config)
  = ([ "2 errors found in '/repo/evergreen.yml':";
       "For help resolving errors, see the helpful documentation at "
         +:+ DEFAULT_HELP_URL;
       "required-expansions-write: "
         +:+ @_out_message_subprocess example_interp (FnSets ["f_write"] ["f_run"] [] [])
               "Function 'f_both', command 0, (function call: f_run)";
       "";
       "required-expansions-write: "
         +:+ @_out_message_dangerous_function example_interp
               (FnSets ["f_write"] ["f_run"] [] []) "Task 'compile', command 1" ], Ok 1) ∧
  ∃ st files,
    @lint_setup spec_helpers example_interp example_lint_env example_config
      = Ok (st, files) ∧
    Exists (@file_dirty example_lint_env st) files.
Proof.
  split; [reflexivity|].
  destruct (@exit_status spec_helpers example_interp example_lint_env example_config _ 1
              eq_refl) as (st & files & Hsetup & [[Hcode _]|[_ Hdirty]]).
  - discriminate Hcode.
  - by exists st, files.
Defined.

Lemma summary_counts_error_lines_witness :
  ∃ help_url, py_getitem example_config "help_url" = Ok help_url ∧
    error_lines [("no-shell-exec", ["first"; "second"])] ≠ [] ∧
    [ "2 errors found in '/repo/evergreen.yml':";
      "For help resolving errors, see the helpful documentation at "
        +:+ DEFAULT_HELP_URL;
      "no-shell-exec: first"; ""; "no-shell-exec: second" ] =
      [@summary_line example_interp
         (length (error_lines [("no-shell-exec", ["first"; "second"])]))
         (VStr "/repo/evergreen.yml");
       "For help resolving errors, see the helpful documentation at "
         +:+ @py_format example_interp help_url]
      ++ blank_between (error_lines [("no-shell-exec", ["first"; "second"])]).
Proof.
  exact (@summary_counts_error_lines example_interp example_config
           (VStr "/repo/evergreen.yml") [("no-shell-exec", ["first"; "second"])] _ eq_refl).
Defined.

Lemma set_order_changes_errors :
  @__call__ spec_helpers (with_set_order id example_interp) defaults two_writers_doc =
    Ok ["Task 'compile', command 0 calls an evergreen shell script without a preceding expansions.write call. Always call expansions.write with params: file: expansions.yml; redacted: true, (or use one of these functions: ['f_write', 'f_write_too']) before calling an evergreen shell script via subprocess.exec."] ∧
  @__call__ spec_helpers (with_set_order reverse example_interp) defaults two_writers_doc =
    Ok ["Task 'compile', command 0 calls an evergreen shell script without a preceding expansions.write call. Always call expansions.write with params: file: expansions.yml; redacted: true, (or use one of these functions: ['f_write_too', 'f_write']) before calling an evergreen shell script via subprocess.exec."] ∧
  @__call__ spec_helpers (with_set_order id example_interp) defaults two_writers_doc ≠
  @__call__ spec_helpers (with_set_order reverse example_interp) defaults two_writers_doc.
Proof. split_and!; [reflexivity|reflexivity|discriminate]. Qed.

Lemma rule_deterministic_up_to_set_order_witness :
  @__call__ spec_helpers (with_set_order id example_interp) defaults example_doc =
  @__call__ spec_helpers (with_set_order reverse example_interp) defaults example_doc ∧
  ∃ errs1 errs2,
    @__call__ spec_helpers (with_set_order id example_interp) defaults two_writers_doc
      = Ok errs1 ∧
    @__call__ spec_helpers (with_set_order reverse example_interp) defaults two_writers_doc
      = Ok errs2 ∧
    Forall2 (differ_in_set "['f_write', 'f_write_too']" "['f_write_too', 'f_write']")
      errs1 errs2.
Proof.
  split.
  - apply (proj1 (proj2 (@rule_deterministic_up_to_set_order spec_helpers example_interp
                           id reverse defaults example_doc))).
    + done.
    + intros names. apply reverse_Permutation.
    + intros fns [= <-]. simpl. lia.
  - destruct (proj2 (proj2 (@rule_deterministic_up_to_set_order spec_helpers example_interp
                              id reverse defaults two_writers_doc)) eq_refl)
      as (fns & errs1 & errs2 & Hc & H1 & H2 & Hall).
    injection Hc as <-. by exists errs1, errs2.
Defined.

Lemma bad_command_raises_witness :
  @Raising._check_command_list probing_helpers example_interp no_fns "Task 't'"
    [expansions_write_yml; VNone; VDict [("func", VList [VStr "f_run"])]]
  = Raise TypeError.
Proof.
  apply (@bad_command_raises probing_helpers example_interp no_fns
           [expansions_write_yml; VNone; VDict [("func", VList [VStr "f_run"])]]
           "Task 't'" (VDict [("func", VList [VStr "f_run"])])).
  - apply elem_of_cons. right. apply elem_of_cons. right. constructor.
  - reflexivity.
  - discriminate.
  - intros e c' Hc' Hp. unfold Raising.predicate_raises in Hp.
    repeat (apply elem_of_cons in Hc' as [->|Hc']); [..|by apply elem_of_nil in Hc'];
      simpl in Hp; naive_solver.
Defined.
